(** * A shallow embedding of [sudoku_solution.py]

    The solver keeps a 9x9 board [b] (0 for a blank square) and a 9x9 table
    [p] of candidate sets.  [addNumber] places a number and prunes the
    candidates of the row, the column and the 3x3 square; grey lines mirror a
    placed number to the symmetric square of the line, purple lines bound the
    numbers of a line to a window.  [recurse] guesses on a square with the
    fewest candidates and backtracks on [ImpossibleSetup].

    Python mutates the board in place and signals an impossible board with an
    exception, so a method is embedded as a function from the board to an
    outcome and the board it leaves behind.  Recursion that is not structural
    ([addNumber] through the mirrored square, [recurse] through the guesses)
    is driven by a fuel argument; an exhausted fuel is its own outcome, and a
    result other than that does not change with more fuel ([solve_more]).

    The file has three parts: the methods of the source, the vocabulary of
    the verification (the live part of [addNumber], the invariants of the
    lines, the nodes of the search, the rules of the sudoku, example
    boards), and the proofs: first of the behaviour of the single methods
    and of the lines, then of the run as a whole. *)

From Stdlib Require Import ZArith List Lia Bool Arith PeanoNat Permutation.
Import ListNotations.

Set Implicit Arguments.

(** ** Outcomes and the board monad *)

(** [ImpossibleSetup] is the exception class of the source; [IndexError] is
    what Python raises for an index past the end of a list. *)
Inductive exn : Type :=
| ImpossibleSetup
| IndexError.

Inductive outcome (A : Type) : Type :=
| Ok (a : A)
| Raise (e : exn)
| OutOfFuel.

Arguments Ok {A} a.
Arguments Raise {A} e.
Arguments OutOfFuel {A}.

(** A square [(row, col)].  The coordinates of the input are not negative,
    so they are natural numbers; an index past the end of a list raises
    [IndexError], as in Python. *)
Definition coord : Type := (nat * nat)%type.

Definition grid (A : Type) : Type := list (list A).

(** The mutable part of a [Board] object: [b], [M] (set once to [len(b)]) and
    [p].  A candidate set is a list without repetition, iterated in the order
    of the list (Python does not fix the order in which a set is iterated; no
    proof below looks at it). *)
Record Board : Type := mkBoard {
  b : grid Z;
  M : nat;
  p : grid (list Z)
}.

(** The part of a [Board] object that no method writes: the lookup tables
    and the lines. *)
Record PuzzleModel : Type := mkPuzzleModel {
  isGrey : grid nat;
  greyIndexes : grid nat;
  isPurple : grid nat;
  greys : list (list coord);
  purples : list (list coord)
}.

Definition Py (A : Type) : Type := Board -> outcome A * Board.

Definition ret {A} (a : A) : Py A := fun s => (Ok a, s).

Definition bind {A B} (m : Py A) (f : A -> Py B) : Py B :=
  fun s =>
    match m s with
    | (Ok a, s') => f a s'
    | (Raise e, s') => (Raise e, s')
    | (OutOfFuel, s') => (OutOfFuel, s')
    end.

Definition raise {A} (e : exn) : Py A := fun s => (Raise e, s).

Definition out_of_fuel {A} : Py A := fun s => (OutOfFuel, s).

Declare Scope py_scope.
Delimit Scope py_scope with py.
Notation "x <- c1 ;; c2" := (bind c1 (fun x => c2))
  (at level 61, c1 at next level, right associativity) : py_scope.
Notation "c1 ;; c2" := (bind c1 (fun _ => c2))
  (at level 61, right associativity) : py_scope.
Open Scope py_scope.

(** A [for] loop whose body returns nothing. *)
Fixpoint forM_ {X} (l : list X) (f : X -> Py unit) : Py unit :=
  match l with
  | [] => ret tt
  | x :: t => f x ;; forM_ t f
  end.

(** ** Lists and grids indexed as Python does *)

Fixpoint list_set {A} (l : list A) (i : nat) (v : A) : option (list A) :=
  match l, i with
  | [], _ => None
  | _ :: t, O => Some (v :: t)
  | x :: t, S i' => option_map (cons x) (list_set t i' v)
  end.

Definition grid_get {A} (g : grid A) (row col : nat) : option A :=
  match nth_error g row with
  | Some r => nth_error r col
  | None => None
  end.

Definition grid_set {A} (g : grid A) (row col : nat) (v : A) : option (grid A) :=
  match nth_error g row with
  | Some r =>
      match list_set r col v with
      | Some r' => list_set g row r'
      | None => None
      end
  | None => None
  end.

(** [l[i]] for an integer [i] that may be negative: Python counts a
    negative index from the end. *)
Definition py_index {A} (l : list A) (i : Z) : option A :=
  if (0 <=? i)%Z then nth_error l (Z.to_nat i)
  else if (- Z.of_nat (length l) <=? i)%Z then nth_error l (Z.to_nat (Z.of_nat (length l) + i))
  else None.

(** [range(lo, hi)] over the integers. *)
Definition rangeZ (lo hi : Z) : list Z :=
  map (fun i => (lo + Z.of_nat i)%Z) (seq 0 (Z.to_nat (hi - lo))).

Definition of_option {A} (o : option A) : Py A :=
  fun s => match o with Some a => (Ok a, s) | None => (Raise IndexError, s) end.

Definition get_b (row col : nat) : Py Z :=
  fun s => of_option (grid_get (b s) row col) s.

Definition get_p (row col : nat) : Py (list Z) :=
  fun s => of_option (grid_get (p s) row col) s.

Definition set_b (row col : nat) (v : Z) : Py unit :=
  fun s =>
    match grid_set (b s) row col v with
    | Some g => (Ok tt, mkBoard g (M s) (p s))
    | None => (Raise IndexError, s)
    end.

Definition set_p (row col : nat) (v : list Z) : Py unit :=
  fun s =>
    match grid_set (p s) row col v with
    | Some g => (Ok tt, mkBoard (b s) (M s) g)
    | None => (Raise IndexError, s)
    end.

Definition get_M : Py nat := fun s => (Ok (M s), s).

(** The nine squares of the 3x3 square of [(row, col)], row by row. *)
Definition square (row col : nat) : list coord :=
  flat_map (fun i => map (fun j => (i, j)) (seq (col - col mod 3) 3))
           (seq (row - row mod 3) 3).

Section Methods.

Variable pz : PuzzleModel.

(** ** [removePossibility] and [checkPossibility] *)

Definition removePossibility (key : Z) (row col : nat) : Py unit :=
  v <- get_b row col ;;
  if (v =? 0)%Z then
    s <- get_p row col ;;
    if in_dec Z.eq_dec key s then set_p row col (remove Z.eq_dec key s)
    else ret tt
  else ret tt.

(** [checkPossibility] calls [addNumber]; the callee is an argument here and
    [addNumber] passes itself with one unit less of fuel. *)
Definition checkPossibility (addNumber : Z -> nat -> nat -> Py unit)
    (key : Z) (row col : nat) : Py unit :=
  v <- get_b row col ;;
  if (v =? 0)%Z then
    s <- get_p row col ;;
    if in_dec Z.eq_dec key s then
      if length s =? 0 then raise ImpossibleSetup
      else
        match s with
        | [k] => addNumber k row col
        | _ => ret tt
        end
    else ret tt
  else ret tt.

(** ** [addNumber]

    Lines 94 and 101 read the module-level lists [greys] and [purples]; they
    are the lists that the constructor was given, the fields of [pz]. *)

(** The body of the loop over a purple line (lines 102-114). *)
Definition purpleCell (addNumber : Z -> nat -> nat -> Py unit)
    (key : Z) (row col : nat) (len : Z) (rc : coord) : Py unit :=
  let '(r, c) := rc in
  v <- get_b r c ;;
  if negb (v =? 0)%Z && (negb (r =? row) || negb (c =? col)) then
    if ((v =? key) || (v <=? key - len) || (v >=? key + len))%Z
    then raise ImpossibleSetup
    else ret tt
  else
    m <- get_M ;;
    forM_ (rangeZ 0 (key - len + 1)) (fun i => removePossibility i r c) ;;
    forM_ (rangeZ (key + len) (Z.of_nat m)) (fun i => removePossibility i r c) ;;
    forM_ (rangeZ 0 (key - len + 1)) (fun i => checkPossibility addNumber i r c) ;;
    forM_ (rangeZ (key + len) (Z.of_nat m)) (fun i => checkPossibility addNumber i r c).

Fixpoint addNumber (fuel : nat) (key : Z) (row col : nat) {struct fuel} : Py unit :=
  match fuel with
  | O => out_of_fuel
  | S fuel' =>
      v <- get_b row col ;;
      if negb (v =? 0)%Z then
        if negb (v =? key)%Z then raise ImpossibleSetup else ret tt
      else
        set_b row col key ;;
        m <- get_M ;;
        forM_ (seq 0 m) (fun i =>
          removePossibility key row i ;; removePossibility key i col) ;;
        forM_ (square row col) (fun ij => removePossibility key (fst ij) (snd ij)) ;;
        forM_ (seq 0 m) (fun i =>
          checkPossibility (addNumber fuel') key row i ;;
          checkPossibility (addNumber fuel') key i col) ;;
        forM_ (square row col) (fun ij =>
          checkPossibility (addNumber fuel') key (fst ij) (snd ij)) ;;
        g <- of_option (grid_get (isGrey pz) row col) ;;
        if negb (g =? 0) then
          line <- of_option (nth_error (greys pz) (g - 1)) ;;
          gi <- of_option (grid_get (greyIndexes pz) row col) ;;
          mirror <- of_option
            (py_index line (Z.of_nat (length line) - Z.of_nat gi - 1)%Z) ;;
          addNumber fuel' key (fst mirror) (snd mirror)
        else
          pu <- of_option (grid_get (isPurple pz) row col) ;;
          if negb (pu =? 0) then
            line <- of_option (nth_error (purples pz) (pu - 1)) ;;
            forM_ line
              (purpleCell (addNumber fuel') key row col (Z.of_nat (length line)))
          else ret tt
  end.

(** ** [checkGroup] and [check] *)

(** The squares of [group] that hold [num], in the order of [group]
    (the list [l] of lines 121-124). *)
Fixpoint holders (num : Z) (group : list coord) : Py (list coord) :=
  match group with
  | [] => ret []
  | i :: t =>
      v <- get_b (fst i) (snd i) ;;
      l <- holders num t ;;
      ret (if (v =? num)%Z then i :: l else l)
  end.

Definition checkGroup (fuel : nat) (group : list coord) : Py unit :=
  forM_ (rangeZ 1 10) (fun num =>
    l <- holders num group ;;
    match l with
    | [i] => addNumber fuel num (fst i) (snd i)
    | _ => ret tt
    end).

Definition check (fuel : nat) : Py unit :=
  m <- get_M ;;
  forM_ (seq 0 m) (fun i =>
    checkGroup fuel (map (fun j => (i, j)) (seq 0 m)) ;;
    checkGroup fuel (map (fun j => (j, i)) (seq 0 m))) ;;
  forM_ (seq 0 3) (fun i =>
    forM_ (seq 0 3) (fun j =>
      checkGroup fuel
        (flat_map (fun k => map (fun l => (k, l)) (seq (j * 3) 3)) (seq (i * 3) 3)))).

(** ** [updatePossibilities] and the constructor *)

Definition updatePossibilities (fuel : nat) : Py unit :=
  m <- get_M ;;
  forM_ (seq 0 m) (fun i =>
    forM_ (seq 0 m) (fun j =>
      key <- get_b i j ;;
      if negb (key =? 0)%Z then set_b i j 0%Z ;; addNumber fuel key i j
      else ret tt)).

(** The fields set by [__init__] before it calls [updatePossibilities]. *)
Definition newBoard (board : grid Z) : Board :=
  let m := length board in
  mkBoard board m (repeat (repeat (rangeZ 1 (Z.of_nat m + 1)) m) m).

(** ** [recurse] *)

Fixpoint foldM {X Acc} (f : Acc -> X -> Py Acc) (l : list X) (a : Acc) : Py Acc :=
  match l with
  | [] => ret a
  | x :: t => a' <- f a x ;; foldM f t a'
  end.

(** One step of the loop over the grey squares (lines 161-163); the
    accumulator is [(min, minCoords)]. *)
Definition scanGrey (acc : nat * coord) (rc : coord) : Py (nat * coord) :=
  v <- get_b (fst rc) (snd rc) ;;
  if (v =? 0)%Z then
    s <- get_p (fst rc) (snd rc) ;;
    if length s <? fst acc then ret (length s, rc) else ret acc
  else ret acc.

(** One step of the loop over all squares (lines 171-174). *)
Definition scanAny (acc : nat * coord) (rc : coord) : Py (nat * coord) :=
  v <- get_b (fst rc) (snd rc) ;;
  if (v =? 0)%Z then
    s <- get_p (fst rc) (snd rc) ;;
    if length s <? fst acc then ret (length s, rc)
    else if length s =? fst acc then
      pu <- of_option (grid_get (isPurple pz) (fst rc) (snd rc)) ;;
      if negb (pu =? 0) then ret (length s, rc) else ret acc
    else ret acc
  else ret acc.

Definition allSquares (m : nat) : list coord :=
  flat_map (fun i => map (fun j => (i, j)) (seq 0 m)) (seq 0 m).

(** Lines 156-174: the square to guess from.  The result is
    [(min, minCoords, greysLeft)]. *)
Definition selectCell (greysLeft : bool) : Py (nat * coord * bool) :=
  acc1 <- (if greysLeft then foldM scanGrey (concat (greys pz)) (100, (0, 0))
           else ret (100, (0, 0))) ;;
  let greysLeft1 := greysLeft && negb (fst acc1 =? 100) in
  acc2 <- (if negb greysLeft1 then
             m <- get_M ;; foldM scanAny (allSquares m) acc1
           else ret acc1) ;;
  ret (acc2, greysLeft1).

(** Lines 181-189: every guess runs on a deep copy of the board, so the
    board of the caller is the same after the loop; [ImpossibleSetup] is the
    only exception the loop catches. *)
Fixpoint guess {A} (body : Z -> Py A) (ks : list Z) : Py A :=
  fun s =>
    match ks with
    | [] => (Raise ImpossibleSetup, s)
    | k :: ks' =>
        match body k s with
        | (Ok a, _) => (Ok a, s)
        | (Raise ImpossibleSetup, _) => guess body ks' s
        | (Raise e, _) => (Raise e, s)
        | (OutOfFuel, _) => (OutOfFuel, s)
        end
    end.

(** [debug] only prints and writes the trace file; it is left out. *)
Fixpoint recurse (fuel : nat) (level : nat) (greysLeft : bool) {struct fuel}
  : Py (grid Z) :=
  match fuel with
  | O => out_of_fuel
  | S fuel' =>
      check fuel' ;;
      sel <- selectCell greysLeft ;;
      let '(mn, minCoords, greysLeft') := sel in
      if mn =? 100 then (fun s => (Ok (b s), s))
      else
        ks <- get_p (fst minCoords) (snd minCoords) ;;
        guess (fun k =>
                 addNumber fuel' k (fst minCoords) (snd minCoords) ;;
                 recurse fuel' (S level) greysLeft')
              ks
  end.

End Methods.

(** ** Reading the input (lines 220-256) and the main run *)

Definition coord_eq_dec : forall x y : coord, {x = y} + {x <> y}.
Proof. decide equality; apply Nat.eq_dec. Defined.

(** The loop of lines 241-247 over one grey line: square [j] of line [i]
    gets [i + 1] in [greyBoard] and [j] in [greyIndexes]. *)
Fixpoint markGrey (i j : nat) (line : list coord) (tabs : grid nat * grid nat)
  : option (grid nat * grid nat) :=
  match line with
  | [] => Some tabs
  | (row, col) :: t =>
      match grid_set (fst tabs) row col (i + 1) with
      | Some gb =>
          match grid_set (snd tabs) row col j with
          | Some gi => markGrey i (S j) t (gb, gi)
          | None => None
          end
      | None => None
      end
  end.

Fixpoint markGreys (i : nat) (lines : list (list coord)) (tabs : grid nat * grid nat)
  : option (grid nat * grid nat) :=
  match lines with
  | [] => Some tabs
  | line :: t =>
      match markGrey i 0 line tabs with
      | Some tabs' => markGreys (S i) t tabs'
      | None => None
      end
  end.

Fixpoint markPurple (i : nat) (line : list coord) (tab : grid nat) : option (grid nat) :=
  match line with
  | [] => Some tab
  | (row, col) :: t =>
      match grid_set tab row col (i + 1) with
      | Some tab' => markPurple i t tab'
      | None => None
      end
  end.

Fixpoint markPurples (i : nat) (lines : list (list coord)) (tab : grid nat)
  : option (grid nat) :=
  match lines with
  | [] => Some tab
  | line :: t =>
      match markPurple i line tab with
      | Some tab' => markPurples (S i) t tab'
      | None => None
      end
  end.

Definition zeros : grid nat := repeat (repeat 0 9) 9.

(** A purple line is stored as a Python set: a square listed twice is
    kept once.  The order in which a set is iterated is not fixed by the
    language; here it is the order of the list. *)
Definition readInput (greyLines purpleLines : list (list coord)) : option PuzzleModel :=
  match markGreys 0 greyLines (zeros, zeros) with
  | Some (greyBoard, greyIdx) =>
      match markPurples 0 purpleLines zeros with
      | Some purpleBoard =>
          Some (mkPuzzleModel greyBoard greyIdx purpleBoard greyLines
                  (map (nodup coord_eq_dec) purpleLines))
      | None => None
      end
  | None => None
  end.

(** Lines 258-263: build the board, then [recurse(0, True)]. *)
Definition solve (fuel : nat) (board : grid Z) (greyLines purpleLines : list (list coord))
  : outcome (grid Z) :=
  match readInput greyLines purpleLines with
  | None => Raise IndexError
  | Some pz =>
      match updatePossibilities pz fuel (newBoard board) with
      | (Ok _, s) => fst (recurse pz fuel 0 true s)
      | (Raise e, _) => Raise e
      | (OutOfFuel, _) => OutOfFuel
      end
  end.

(** * Vocabulary of the verification *)

(** ** The live part of [addNumber]

    [addNumber] without its calls of [checkPossibility]: every such call
    comes after [removePossibility] took the same key from the same square,
    so its guard [key in self.p[row][col]] fails ([addNumber_live] below). *)

Definition purpleCellLive (key : Z) (row col : nat) (len : Z) (rc : coord) : Py unit :=
  let '(r, c) := rc in
  v <- get_b r c ;;
  if negb (v =? 0)%Z && (negb (r =? row) || negb (c =? col)) then
    if ((v =? key) || (v <=? key - len) || (v >=? key + len))%Z
    then raise ImpossibleSetup
    else ret tt
  else
    m <- get_M ;;
    forM_ (rangeZ 0 (key - len + 1)) (fun i => removePossibility i r c) ;;
    forM_ (rangeZ (key + len) (Z.of_nat m)) (fun i => removePossibility i r c).

Fixpoint addNumberLive (pz : PuzzleModel) (fuel : nat) (key : Z) (row col : nat)
    {struct fuel} : Py unit :=
  match fuel with
  | O => out_of_fuel
  | S fuel' =>
      v <- get_b row col ;;
      if negb (v =? 0)%Z then
        if negb (v =? key)%Z then raise ImpossibleSetup else ret tt
      else
        set_b row col key ;;
        m <- get_M ;;
        forM_ (seq 0 m) (fun i =>
          removePossibility key row i ;; removePossibility key i col) ;;
        forM_ (square row col) (fun ij => removePossibility key (fst ij) (snd ij)) ;;
        g <- of_option (grid_get (isGrey pz) row col) ;;
        if negb (g =? 0) then
          line <- of_option (nth_error (greys pz) (g - 1)) ;;
          gi <- of_option (grid_get (greyIndexes pz) row col) ;;
          mirror <- of_option
            (py_index line (Z.of_nat (length line) - Z.of_nat gi - 1)%Z) ;;
          addNumberLive pz fuel' key (fst mirror) (snd mirror)
        else
          pu <- of_option (grid_get (isPurple pz) row col) ;;
          if negb (pu =? 0) then
            line <- of_option (nth_error (purples pz) (pu - 1)) ;;
            forM_ line (purpleCellLive key row col (Z.of_nat (length line)))
          else ret tt
  end.

(** ** Properties of computations *)

(** The square [(r, c)] can be read and, when it is blank, [key] is not
    among its candidates. *)
Definition cleared (key : Z) (r c : nat) (s : Board) : Prop :=
  exists v, grid_get (b s) r c = Some v /\
    (v = 0%Z -> exists set, grid_get (p s) r c = Some set /\ ~ In key set).

(** The candidate sets of [P'] are those of [P], on the same squares, with
    some numbers taken away. *)
Definition shrinks (P P' : grid (list Z)) : Prop :=
  (forall r c set', grid_get P' r c = Some set' ->
     exists set, grid_get P r c = Some set /\ incl set' set /\ length set' <= length set) /\
  (forall r c set, grid_get P r c = Some set -> exists set', grid_get P' r c = Some set').

(** A computation that writes candidate sets only (and only to shrink
    them) and never runs out of fuel. *)
Definition tame {A} (m : Py A) : Prop :=
  forall s,
    match m s with
    | (Ok _, s') => b s' = b s /\ M s' = M s /\ shrinks (p s) (p s')
    | (Raise _, _) => True
    | (OutOfFuel, _) => False
    end.

(** A computation that leaves the board as it is and ends normally or
    with an [IndexError]. *)
Definition inert {A} (m : Py A) (s : Board) : Prop :=
  (exists a, m s = (Ok a, s)) \/ m s = (Raise IndexError, s).

(** A computation that leaves the board as it is, whatever its outcome. *)
Definition quiet {A} (m : Py A) (s : Board) : Prop := snd (m s) = s.

(** Whatever [m1] ends with, short of running out of fuel, [m2] ends with
    too. *)
Definition refines {A} (m1 m2 : Py A) : Prop :=
  forall s o s', m1 s = (o, s') -> o <> OutOfFuel -> m2 s = (o, s').

(** ** Squares, lines and invariants *)

(** The number in square [X] of the board. *)
Definition val (s : Board) (X : coord) : option Z :=
  grid_get (b s) (fst X) (snd X).

Definition blank (v : Z) : nat := if (v =? 0)%Z then 1 else 0.

(** The number of blank squares of a board. *)
Definition blanks (g : grid Z) : nat :=
  list_sum (map (fun row => list_sum (map blank row)) g).

(** Square [X] is blank and has [n] candidates. *)
Definition blankAt (s : Board) (X : coord) (n : nat) : Prop :=
  val s X = Some 0%Z /\
  exists set, grid_get (p s) (fst X) (snd X) = Some set /\ length set = n.

(** Square [X] can be read, with its candidates when it is blank. *)
Definition readable (s : Board) (X : coord) : Prop :=
  exists v, val s X = Some v /\ (v = 0%Z -> exists n, blankAt s X n).

(** Every square of the 9x9 board can be read, number and candidates. *)
Definition dom_ok (s : Board) : Prop :=
  forall X, In X (allSquares 9) ->
    (exists v, val s X = Some v) /\
    (exists set, grid_get (p s) (fst X) (snd X) = Some set).

(** No candidate set holds 0 or has 100 elements or more. *)
Definition cands_ok (s : Board) : Prop :=
  forall r c set, grid_get (p s) r c = Some set -> ~ In 0%Z set /\ length set < 100.

(** Square [X] is on a purple line according to the table [isPurple]. *)
Definition purpleSq (pz : PuzzleModel) (X : coord) : Prop :=
  exists pu, grid_get (isPurple pz) (fst X) (snd X) = Some pu /\ pu <> 0.

(** The tables send the grey square [X] to [Y]: the lookups of lines 92-96
    all succeed and yield [Y]. *)
Definition mirrorAt (pz : PuzzleModel) (X Y : coord) : Prop :=
  exists g line gi,
    grid_get (isGrey pz) (fst X) (snd X) = Some g /\ g <> 0 /\
    nth_error (greys pz) (g - 1) = Some line /\
    grid_get (greyIndexes pz) (fst X) (snd X) = Some gi /\
    py_index line (Z.of_nat (length line) - Z.of_nat gi - 1)%Z = Some Y.

(** The tables put the square [X], which is not grey, on the purple line
    [line]: the lookups of lines 99-101 succeed and yield [line]. *)
Definition purpleAt (pz : PuzzleModel) (X : coord) (line : list coord) : Prop :=
  grid_get (isGrey pz) (fst X) (snd X) = Some 0 /\
  exists pu, grid_get (isPurple pz) (fst X) (snd X) = Some pu /\ pu <> 0 /\
    nth_error (purples pz) (pu - 1) = Some line.

(** Two numbers that may share a purple line of length [len]. *)
Definition apart (len v w : Z) : Prop :=
  (v <> w /\ v - len < w < v + len)%Z.

(** The tables agree on the grey lines: mirroring twice gives the square
    back. *)
Definition wf_grey (pz : PuzzleModel) : Prop :=
  forall X Y, mirrorAt pz X Y -> mirrorAt pz Y X.

(** The tables agree on the purple lines: a purple square is on its line,
    and all squares of the line are purple squares of that line. *)
Definition wf_purple (pz : PuzzleModel) : Prop :=
  forall X line, purpleAt pz X line ->
    In X line /\ forall Y, In Y line -> purpleAt pz Y line.

(** Every settled grey square that holds a number has that number on its
    mirror square too. *)
Definition mirror_ok (pz : PuzzleModel) (D : coord -> Prop) (s : Board) : Prop :=
  forall X Y v, D X -> mirrorAt pz X Y -> val s X = Some v -> v <> 0%Z ->
    val s Y = Some v.

(** The number of every settled purple square is apart from the numbers of
    the other squares of its line. *)
Definition purple_ok (pz : PuzzleModel) (D : coord -> Prop) (s : Board) : Prop :=
  forall X line Y v w, D X -> purpleAt pz X line -> In Y line -> Y <> X ->
    val s X = Some v -> v <> 0%Z -> val s Y = Some w -> w <> 0%Z ->
    apart (Z.of_nat (length line)) v w.

(** The board [s0] is the board [s] with square [X] blanked, where [s]
    had [key] or a blank on [X]: the board on which [updatePossibilities]
    and [recurse] call [addNumber]. *)
Definition blanked (s s0 : Board) (X : coord) (key : Z) : Prop :=
  (forall Z, Z <> X -> val s0 Z = val s Z) /\
  val s0 X = Some 0%Z /\
  (val s X = Some 0%Z \/ val s X = Some key).

(** ** The nodes of the search

    The boards on which [recurse] is entered, with the flag [greysLeft] it
    is entered with: the board left by the constructor with [True], and from
    a node the board of every guess whose [addNumber] ends normally, with
    the flag that the choice of the square left behind. *)
Inductive searchNode (pz : PuzzleModel) (board : grid Z) : Board -> bool -> Prop :=
| node_root fuel s :
    updatePossibilities pz fuel (newBoard board) = (Ok tt, s) ->
    searchNode pz board s true
| node_guess fuel s gl mn X gl' ks k s1 :
    searchNode pz board s gl ->
    selectCell pz gl s = (Ok (mn, X, gl'), s) ->
    mn <> 100 ->
    grid_get (p s) (fst X) (snd X) = Some ks -> In k ks ->
    addNumber pz fuel k (fst X) (snd X) s = (Ok tt, s1) ->
    searchNode pz board s1 gl'.

(** ** Boards used as examples *)

Definition emptyGrid : grid Z := repeat (repeat 0%Z 9) 9.

(** A puzzle without lines. *)
Definition noLines : PuzzleModel := mkPuzzleModel zeros zeros zeros [] [].

(** A solved sudoku. *)
Definition solvedGrid : grid Z :=
  [[5;3;4;6;7;8;9;1;2];
   [6;7;2;1;9;5;3;4;8];
   [1;9;8;3;4;2;5;6;7];
   [8;5;9;7;6;1;4;2;3];
   [4;2;6;8;5;3;7;9;1];
   [7;1;3;9;2;4;8;5;6];
   [9;6;1;5;3;7;2;8;4];
   [2;8;7;4;1;9;6;3;5];
   [3;4;5;2;8;6;1;7;9]]%Z.

(** [solvedGrid] with its first two squares blank. *)
Definition twoBlanks : grid Z :=
  [0;0;4;6;7;8;9;1;2]%Z :: tl solvedGrid.

(** [solvedGrid] with 5 in place of 3 in its second square: row 0 holds 5
    twice. *)
Definition clashGrid : grid Z :=
  [5;5;4;6;7;8;9;1;2]%Z :: tl solvedGrid.

(** [clashGrid] with its last row blank. *)
Definition clashPuzzle : grid Z :=
  removelast clashGrid ++ [repeat 0%Z 9].

(** The clues 1 to 7 in the first seven squares of row 0. *)
Definition sevenClues : grid Z :=
  [1;2;3;4;5;6;7;0;0]%Z :: repeat (repeat 0%Z 9) 8.

(** [solvedGrid] with the squares (0, 0) and (4, 4), which both hold 5,
    blank; the grey line of the example runs over (0, 0), (3, 3), (4, 4). *)
Definition mirrorPuzzle : grid Z :=
  [[0;3;4;6;7;8;9;1;2];
   [6;7;2;1;9;5;3;4;8];
   [1;9;8;3;4;2;5;6;7];
   [8;5;9;7;6;1;4;2;3];
   [4;2;6;8;0;3;7;9;1];
   [7;1;3;9;2;4;8;5;6];
   [9;6;1;5;3;7;2;8;4];
   [2;8;7;4;1;9;6;3;5];
   [3;4;5;2;8;6;1;7;9]]%Z.

(** [solvedGrid] with the first three squares of row 0, which hold 5, 3
    and 4, blank; the purple line of the example runs over them. *)
Definition purplePuzzle : grid Z :=
  [0;0;0;6;7;8;9;1;2]%Z :: tl solvedGrid.

(** The tables of the puzzle with the one grey line (0, 0), (0, 1). *)
Definition greyPairModel : PuzzleModel :=
  match readInput [[(0, 0); (0, 1)]] [] with
  | Some pz => pz
  | None => noLines
  end.

(** The board that the constructor leaves for [twoBlanks] under
    [greyPairModel]: the root of its search. *)
Definition greyPairRoot : Board :=
  snd (updatePossibilities greyPairModel 100 (newBoard twoBlanks)).

(** ** The rules of the sudoku, the tables, and solutions

    The vocabulary of the properties of the whole run: squares that share a
    row, a column or a 3x3 square, grids without a clash, the tables as the
    input reading builds them, and what it takes for a board to be
    completed to a given solution. *)

(** Two different squares that share a row, a column or a 3x3 square. *)
Definition peer (X Y : coord) : Prop :=
  X <> Y /\
  (fst X = fst Y \/ snd X = snd Y \/
   (fst X / 3 = fst Y / 3 /\ snd X / 3 = snd Y / 3)).

(** No number stands on two squares that share a row, a column or a 3x3
    square of the 9x9 board. *)
Definition no_clash (g : grid Z) : Prop :=
  forall X Y v, In X (allSquares 9) -> In Y (allSquares 9) -> peer X Y ->
    grid_get g (fst X) (snd X) = Some v -> v <> 0%Z ->
    grid_get g (fst Y) (snd Y) <> Some v.

(** The number of a settled square is no candidate of a blank square that
    shares a row, a column or a 3x3 square with it. *)
Definition pruned (D : coord -> Prop) (s : Board) : Prop :=
  forall X Y v set, D X -> In Y (allSquares 9) -> peer X Y ->
    val s X = Some v -> v <> 0%Z -> val s Y = Some 0%Z ->
    grid_get (p s) (fst Y) (snd Y) = Some set -> ~ In v set.

(** The tables name no grey square. *)
Definition no_grey (pz : PuzzleModel) : Prop :=
  forall r c g, grid_get (isGrey pz) r c = Some g -> g = 0.

(** The squares [l] of [g] hold the numbers 1 to 9, each once. *)
Definition unit_ok (g : grid Z) (l : list coord) : Prop :=
  Permutation (map (fun X => grid_get g (fst X) (snd X)) l) (map Some (rangeZ 1 10)).

(** [m], run on [s], ends normally with [Q], or raises [ImpossibleSetup]. *)
Definition ends {A} (m : Py A) (s : Board) (Q : A -> Board -> Prop) : Prop :=
  match m s with
  | (Ok a, s') => Q a s'
  | (Raise ImpossibleSetup, _) => True
  | _ => False
  end.

(** An outcome of the solver on an input that it can handle: a result or
    [ImpossibleSetup]. *)
Definition settled {A} (o : outcome A) : Prop :=
  (exists a, o = Ok a) \/ o = Raise ImpossibleSetup.

(** The lookups of [addNumber] and [recurse] in the tables stay on the 9x9
    board: the grey squares are squares of the board, a grey square has a
    mirror square on the board, and a purple square has a line of squares of
    the board. *)
Definition tables_ok (pz : PuzzleModel) : Prop :=
  (forall X, In X (concat (greys pz)) -> In X (allSquares 9)) /\
  (forall X, In X (allSquares 9) ->
     exists g, grid_get (isGrey pz) (fst X) (snd X) = Some g /\
       (g <> 0 -> exists Y, mirrorAt pz X Y /\ In Y (allSquares 9))) /\
  (forall X, In X (allSquares 9) ->
     exists pu, grid_get (isPurple pz) (fst X) (snd X) = Some pu /\
       (pu <> 0 -> exists line, nth_error (purples pz) (pu - 1) = Some line /\
          forall Y, In Y line -> In Y (allSquares 9))).

(** The squares of the grid are those of the 9x9 board. *)
Definition is9x9 {A} (g : grid A) : Prop :=
  forall r c, grid_get g r c <> None <-> In (r, c) (allSquares 9).

(** Every grey square of the tables [tabs] was written for a line of
    [lines], with its index in that line. *)
Definition grey_written (lines : list (list coord)) (tabs : grid nat * grid nat) : Prop :=
  forall r c g, grid_get (fst tabs) r c = Some g -> g <> 0 ->
    exists line k, nth_error lines (g - 1) = Some line /\
      grid_get (snd tabs) r c = Some k /\ nth_error line k = Some (r, c).

(** Every purple square of the table [tab] was written for a line of
    [lines] that holds it. *)
Definition purple_written (lines : list (list coord)) (tab : grid nat) : Prop :=
  forall r c pu, grid_get tab r c = Some pu -> pu <> 0 ->
    exists line, nth_error lines (pu - 1) = Some line /\ In (r, c) line.

(** The number of square [X] in the grid [sol], 0 off the grid. *)
Definition numberAt (sol : grid Z) (X : coord) : Z :=
  match grid_get sol (fst X) (snd X) with Some v => v | None => 0%Z end.

(** [sol] solves the puzzle: it has a number from 1 to 9 on every square of
    the board, no number twice in a row, a column or a 3x3 square, the clues
    of [board], one number on the two squares of a grey line that mirror
    each other, and numbers that are apart on every purple line. *)
Definition solves (board : grid Z) (greyLines purpleLines : list (list coord))
    (sol : grid Z) : Prop :=
  (forall X, In X (allSquares 9) -> (1 <= numberAt sol X <= 9)%Z) /\
  no_clash sol /\
  (forall X v, In X (allSquares 9) -> grid_get board (fst X) (snd X) = Some v ->
     v <> 0%Z -> numberAt sol X = v) /\
  (forall n line k X Y, nth_error greyLines n = Some line ->
     nth_error line k = Some X -> nth_error line (length line - 1 - k) = Some Y ->
     numberAt sol X = numberAt sol Y) /\
  (forall n line X Y, nth_error purpleLines n = Some line ->
     In X line -> In Y line -> X <> Y ->
     apart (Z.of_nat (length line)) (numberAt sol X) (numberAt sol Y)).

(** The same, read off the tables of the solver. *)
Definition follows (pz : PuzzleModel) (sol : grid Z) : Prop :=
  (forall X, In X (allSquares 9) -> (1 <= numberAt sol X <= 9)%Z) /\
  (forall X Y, In X (allSquares 9) -> In Y (allSquares 9) -> peer X Y ->
     numberAt sol X <> numberAt sol Y) /\
  (forall X Y, In X (allSquares 9) -> mirrorAt pz X Y ->
     numberAt sol X = numberAt sol Y) /\
  (forall X line Y, In X (allSquares 9) -> purpleAt pz X line -> In Y line -> Y <> X ->
     apart (Z.of_nat (length line)) (numberAt sol X) (numberAt sol Y)).

(** The numbers of the board are numbers of [sol]. *)
Definition fits (sol : grid Z) (s : Board) : Prop :=
  forall Z v, In Z (allSquares 9) -> val s Z = Some v -> v <> 0%Z -> numberAt sol Z = v.

(** The number of [sol] on [Z] is a candidate of [Z] when [Z] is blank. *)
Definition open_for (sol : grid Z) (s : Board) (Z : coord) : Prop :=
  forall set, val s Z = Some 0%Z -> grid_get (p s) (fst Z) (snd Z) = Some set ->
    In (numberAt sol Z) set.

(** The board can still be completed to [sol]. *)
Definition viable (sol : grid Z) (s : Board) : Prop :=
  fits sol s /\ forall Z, In Z (allSquares 9) -> open_for sol s Z.

(** ** Checks that can be run on a grid *)

(** [peer], decided. *)
Definition peerb (X Y : coord) : bool :=
  negb ((fst X =? fst Y) && (snd X =? snd Y)) &&
  ((fst X =? fst Y) || (snd X =? snd Y) ||
   ((fst X / 3 =? fst Y / 3) && (snd X / 3 =? snd Y / 3))).

(** [no_clash], decided. *)
Definition no_clashb (g : grid Z) : bool :=
  forallb (fun X =>
    forallb (fun Y =>
      negb (peerb X Y) ||
      match grid_get g (fst X) (snd X), grid_get g (fst Y) (snd Y) with
      | Some v, Some w => (v =? 0)%Z || negb (v =? w)%Z
      | _, _ => true
      end) (allSquares 9)) (allSquares 9).

(** Every square of the 9x9 board can be read. *)
Definition readableb (g : grid Z) : bool :=
  forallb (fun X =>
    match grid_get g (fst X) (snd X) with Some _ => true | None => false end)
    (allSquares 9).

(** Every square of the 9x9 board holds a number from [lo] to 9. *)
Definition digitsb (lo : Z) (g : grid Z) : bool :=
  forallb (fun X =>
    match grid_get g (fst X) (snd X) with
    | Some v => (lo <=? v)%Z && (v <=? 9)%Z
    | None => false
    end) (allSquares 9).

(** Every clue of [board] is a number of [sol]. *)
Definition extendsb (board sol : grid Z) : bool :=
  forallb (fun X =>
    match grid_get board (fst X) (snd X) with
    | Some v => (v =? 0)%Z || (numberAt sol X =? v)%Z
    | None => true
    end) (allSquares 9).

(** ** More boards used as examples *)

(** The empty board after [addNumber(5, 0, 0)], without lines. *)
Definition fiveOnCorner : Board :=
  snd (addNumber noLines 1 5 0 0 (newBoard emptyGrid)).

(** The empty board after [removePossibility(5, 0, 0)]. *)
Definition cornerWithoutFive : Board :=
  snd (removePossibility 5 0 0 (newBoard emptyGrid)).

(** The tables of the puzzle with the one purple line (0, 0), (4, 4). *)
Definition purplePairModel : PuzzleModel :=
  match readInput [] [[(0, 0); (4, 4)]] with
  | Some pz => pz
  | None => noLines
  end.

(** The empty board after [addNumber(3, 0, 0)] under [purplePairModel]. *)
Definition threeOnPurple : Board :=
  snd (addNumber purplePairModel 82 3 0 0 (newBoard emptyGrid)).

(** The clues 1 to 8 in row 0 and a 9 below the blank square of that row:
    the square (0, 8) has no candidate left. *)
Definition deadEndGrid : grid Z :=
  [1;2;3;4;5;6;7;8;0]%Z :: [0;0;0;0;0;0;0;0;9]%Z :: repeat (repeat 0%Z 9) 7.

(** The board that the constructor leaves for [deadEndGrid]. *)
Definition deadEndRoot : Board :=
  snd (updatePossibilities noLines 2 (newBoard deadEndGrid)).

(** * Verification *)

Unset Implicit Arguments.

(** ** Reading and writing a grid *)

Lemma list_set_same A (l : list A) i v l' :
  list_set l i v = Some l' -> nth_error l' i = Some v.
Proof.
  revert i l'; induction l as [|x t IH]; intros [|i] l' H; simpl in H; try discriminate.
  - inversion H; reflexivity.
  - destruct (list_set t i v) eqn:E; simpl in H; inversion H; subst; simpl; eauto.
Qed.

Lemma list_set_other A (l : list A) i v l' j :
  list_set l i v = Some l' -> j <> i -> nth_error l' j = nth_error l j.
Proof.
  revert i l' j; induction l as [|x t IH]; intros [|i] l' j H Hj; simpl in H; try discriminate.
  - inversion H; subst. destruct j; [congruence | reflexivity].
  - destruct (list_set t i v) eqn:E; simpl in H; inversion H; subst.
    destruct j; simpl; [reflexivity | eapply IH; eauto].
Qed.

Lemma list_set_some A (l : list A) i v x :
  nth_error l i = Some x -> exists l', list_set l i v = Some l'.
Proof.
  revert i; induction l as [|y t IH]; intros [|i] H; simpl in *; try discriminate; eauto.
  destruct (IH _ H) as [l' ->]; simpl; eauto.
Qed.

Lemma grid_get_set_same A (g : grid A) r c v g' :
  grid_set g r c v = Some g' -> grid_get g' r c = Some v.
Proof.
  unfold grid_set, grid_get; intros H.
  destruct (nth_error g r) as [row|] eqn:Er; try discriminate.
  destruct (list_set row c v) as [row'|] eqn:Ec; try discriminate.
  erewrite list_set_same by eauto. eapply list_set_same; eauto.
Qed.

Lemma grid_get_set_other A (g : grid A) r c v g' r' c' :
  grid_set g r c v = Some g' -> (r', c') <> (r, c) ->
  grid_get g' r' c' = grid_get g r' c'.
Proof.
  unfold grid_set, grid_get; intros H Hne.
  destruct (nth_error g r) as [row|] eqn:Er; try discriminate.
  destruct (list_set row c v) as [row'|] eqn:Ec; try discriminate.
  destruct (Nat.eq_dec r' r) as [->|Hr].
  - erewrite list_set_same by eauto. rewrite Er.
    eapply list_set_other; eauto; congruence.
  - erewrite list_set_other by eauto. reflexivity.
Qed.

Lemma grid_set_some A (g : grid A) r c v x :
  grid_get g r c = Some x -> exists g', grid_set g r c v = Some g'.
Proof.
  unfold grid_set, grid_get; intros H.
  destruct (nth_error g r) as [row|] eqn:Er; try discriminate.
  destruct (list_set_some _ _ _ v _ H) as [row' ->].
  eapply list_set_some; eauto.
Qed.

(** ** Running a computation to a normal end *)

Lemma bind_Ok A B (m : Py A) (f : A -> Py B) s y s' :
  bind m f s = (Ok y, s') ->
  exists x s1, m s = (Ok x, s1) /\ f x s1 = (Ok y, s').
Proof.
  unfold bind; destruct (m s) as [[x|e|] s1]; intros H; try discriminate; eauto.
Qed.

Lemma bind_ext A B (m : Py A) (f g : A -> Py B) s :
  (forall a s1, f a s1 = g a s1) -> bind m f s = bind m g s.
Proof.
  intros H; unfold bind; destruct (m s) as [[x|e|] s1]; auto.
Qed.

Lemma of_option_Ok A (o : option A) s a s' :
  of_option o s = (Ok a, s') -> o = Some a /\ s' = s.
Proof. unfold of_option; destruct o; intros H; inversion H; auto. Qed.

Lemma get_b_Ok r c s v s' :
  get_b r c s = (Ok v, s') -> grid_get (b s) r c = Some v /\ s' = s.
Proof. apply of_option_Ok. Qed.

Lemma get_p_Ok r c s v s' :
  get_p r c s = (Ok v, s') -> grid_get (p s) r c = Some v /\ s' = s.
Proof. apply of_option_Ok. Qed.

Lemma set_p_Ok r c v s u s' :
  set_p r c v s = (Ok u, s') ->
  exists g, grid_set (p s) r c v = Some g /\ s' = mkBoard (b s) (M s) g.
Proof.
  unfold set_p; destruct (grid_set (p s) r c v); intros H; inversion H; eauto.
Qed.

Lemma forM_ext X (l : list X) (f g : X -> Py unit) s :
  (forall x s1, In x l -> f x s1 = g x s1) -> forM_ l f s = forM_ l g s.
Proof.
  revert s; induction l as [|x t IH]; intros s H; simpl; [reflexivity|].
  unfold bind. rewrite (H x s (or_introl eq_refl)).
  destruct (g x s) as [[u|e|] s1]; auto. apply IH. intros; apply H; simpl; auto.
Qed.

Lemma forM_noop X (l : list X) (f : X -> Py unit) s :
  (forall x, In x l -> f x s = (Ok tt, s)) -> forM_ l f s = (Ok tt, s).
Proof.
  induction l as [|x t IH]; intros H; simpl; [reflexivity|].
  unfold bind. rewrite (H x (or_introl eq_refl)). apply IH. intros; apply H; simpl; auto.
Qed.

(** A property kept by every round of a loop holds at its normal end. *)
Lemma forM_keeps X (l : list X) (f : X -> Py unit) (I : Board -> Prop) s s' :
  (forall x s1 s2, In x l -> I s1 -> f x s1 = (Ok tt, s2) -> I s2) ->
  I s -> forM_ l f s = (Ok tt, s') -> I s'.
Proof.
  revert s; induction l as [|x t IH]; intros s Hf Hs H; simpl in H.
  - inversion H; subst; assumption.
  - apply bind_Ok in H. destruct H as ([] & s1 & H1 & H2).
    eapply IH; [ | | exact H2]; [intros; eapply Hf; simpl; eauto | eapply Hf; simpl; eauto].
Qed.

(** What round [x] establishes, and no later round destroys, holds for
    every [x] at the normal end of the loop. *)
Lemma forM_each X (l : list X) (f : X -> Py unit) (Q : X -> Board -> Prop) s s' :
  (forall x s1 s2, f x s1 = (Ok tt, s2) -> Q x s2) ->
  (forall x y s1 s2, Q x s1 -> f y s1 = (Ok tt, s2) -> Q x s2) ->
  forM_ l f s = (Ok tt, s') -> forall x, In x l -> Q x s'.
Proof.
  intros Hest Hkeep. revert s; induction l as [|y t IH]; intros s H x Hx; simpl in *.
  - contradiction.
  - apply bind_Ok in H. destruct H as ([] & s1 & H1 & H2).
    destruct Hx as [->|Hx].
    + eapply forM_keeps with (I := Q x); [ | | exact H2]; eauto.
    + eapply IH; eauto.
Qed.

(** Stepping through the primitive reads and writes. *)
Lemma bind_of_option A B (o : option A) (f : A -> Py B) s :
  bind (of_option o) f s =
    match o with Some a => f a s | None => (Raise IndexError, s) end.
Proof. unfold bind, of_option; destruct o; reflexivity. Qed.

Lemma bind_get_b B r c (f : Z -> Py B) s :
  bind (get_b r c) f s =
    match grid_get (b s) r c with Some v => f v s | None => (Raise IndexError, s) end.
Proof. unfold get_b. apply bind_of_option with (o := grid_get (b s) r c). Qed.

Lemma bind_get_p B r c (f : list Z -> Py B) s :
  bind (get_p r c) f s =
    match grid_get (p s) r c with Some v => f v s | None => (Raise IndexError, s) end.
Proof. unfold get_p. apply bind_of_option with (o := grid_get (p s) r c). Qed.

Lemma bind_set_b B r c v (f : unit -> Py B) s :
  bind (set_b r c v) f s =
    match grid_set (b s) r c v with
    | Some g => f tt (mkBoard g (M s) (p s))
    | None => (Raise IndexError, s)
    end.
Proof. unfold bind, set_b; destruct (grid_set (b s) r c v); reflexivity. Qed.

Lemma bind_get_M B (f : nat -> Py B) s : bind get_M f s = f (M s) s.
Proof. reflexivity. Qed.

(** ** The calls of [checkPossibility] in [addNumber] do nothing *)

Lemma removePossibility_cleared key r c s s' :
  removePossibility key r c s = (Ok tt, s') -> cleared key r c s'.
Proof.
  unfold removePossibility; intros H.
  apply bind_Ok in H. destruct H as (v & s1 & Hv & H).
  apply get_b_Ok in Hv. destruct Hv as [Hv ->].
  destruct (Z.eqb_spec v 0) as [->|Hnz].
  - apply bind_Ok in H. destruct H as (set & s1 & Hp & H).
    apply get_p_Ok in Hp. destruct Hp as [Hp ->].
    destruct (in_dec Z.eq_dec key set) as [Hin|Hnin].
    + apply set_p_Ok in H. destruct H as (g & Hg & ->).
      exists 0%Z; simpl; split; [assumption|]. intros _.
      exists (remove Z.eq_dec key set); split.
      * eapply grid_get_set_same; eauto.
      * apply remove_In.
    + inversion H; subst. exists 0%Z; split; eauto.
  - inversion H; subst. exists v; split; [assumption | intros; contradiction].
Qed.

Lemma removePossibility_keeps_cleared k r c key r' c' s s' :
  cleared k r c s -> removePossibility key r' c' s = (Ok tt, s') -> cleared k r c s'.
Proof.
  unfold removePossibility; intros (w & Hw & Hc) H.
  apply bind_Ok in H. destruct H as (v & s1 & Hv & H).
  apply get_b_Ok in Hv. destruct Hv as [Hv ->].
  destruct (Z.eqb_spec v 0) as [->|Hnz].
  - apply bind_Ok in H. destruct H as (set & s1 & Hp & H).
    apply get_p_Ok in Hp. destruct Hp as [Hp ->].
    destruct (in_dec Z.eq_dec key set) as [Hin|Hnin].
    + apply set_p_Ok in H. destruct H as (g & Hg & ->).
      exists w; simpl; split; [assumption|]. intros Hz.
      destruct (Hc Hz) as (set0 & Hs0 & Hk).
      destruct (coord_eq_dec (r, c) (r', c')) as [E|E].
      * inversion E; subst. rewrite Hp in Hs0; inversion Hs0; subst.
        exists (remove Z.eq_dec key set0); split.
        -- eapply grid_get_set_same; eauto.
        -- intros Hin'. apply in_remove in Hin'. tauto.
      * exists set0; split; [|assumption].
        erewrite grid_get_set_other; eauto.
    + inversion H; subst. exists w; eauto.
  - inversion H; subst. exists w; eauto.
Qed.

Lemma checkPossibility_cleared f key r c s :
  cleared key r c s -> checkPossibility f key r c s = (Ok tt, s).
Proof.
  intros (v & Hv & Hc). unfold checkPossibility, bind, get_b, get_p, of_option.
  rewrite Hv. destruct (Z.eqb_spec v 0) as [Hz|Hnz]; [|reflexivity].
  destruct (Hc Hz) as (set & -> & Hk).
  destruct (in_dec Z.eq_dec key set); [contradiction | reflexivity].
Qed.

(** The second half of a round trip "remove everywhere, then check
    everywhere" can be dropped when the checks see only cleared squares. *)
Lemma dead_checks A (R1 R2 C1 C2 : Py unit) (k k' : Py A) s :
  (forall s1 s2, R1 s = (Ok tt, s1) -> R2 s1 = (Ok tt, s2) ->
     C1 s2 = (Ok tt, s2) /\ C2 s2 = (Ok tt, s2)) ->
  (forall s2, k s2 = k' s2) ->
  (R1 ;; R2 ;; C1 ;; C2 ;; k) s = (R1 ;; R2 ;; k') s.
Proof.
  intros H Hk. unfold bind.
  destruct (R1 s) as [[[]|e|] s1] eqn:E1; try reflexivity.
  destruct (R2 s1) as [[[]|e|] s2] eqn:E2; try reflexivity.
  destruct (H s1 s2 eq_refl E2) as [-> ->]. apply Hk.
Qed.

Lemma dead_checks_end (R1 R2 C1 C2 : Py unit) s :
  (forall s1 s2, R1 s = (Ok tt, s1) -> R2 s1 = (Ok tt, s2) ->
     C1 s2 = (Ok tt, s2) /\ C2 s2 = (Ok tt, s2)) ->
  (R1 ;; R2 ;; C1 ;; C2) s = (R1 ;; R2) s.
Proof.
  intros H. unfold bind.
  destruct (R1 s) as [[[]|e|] s1] eqn:E1; try reflexivity.
  destruct (R2 s1) as [[[]|e|] s2] eqn:E2; try reflexivity.
  destruct (H s1 s2 eq_refl E2) as [-> ->]. reflexivity.
Qed.

Lemma purpleCell_live f key row col len rc s :
  purpleCell f key row col len rc s = purpleCellLive key row col len rc s.
Proof.
  destruct rc as [r c]. unfold purpleCell, purpleCellLive.
  apply bind_ext; intros v s1.
  destruct (negb (v =? 0)%Z && (negb (r =? row) || negb (c =? col))); [reflexivity|].
  apply bind_ext; intros m s2.
  apply dead_checks_end. intros s3 s4 H1 H2.
  assert (Q1 : forall i, In i (rangeZ 0 (key - len + 1)) -> cleared i r c s4).
  { intros i Hi.
    eapply forM_keeps with (I := cleared i r c); [ | | exact H2].
    - intros; cbv beta in *; eapply removePossibility_keeps_cleared; eauto.
    - eapply forM_each with (Q := fun i => cleared i r c); [ | | exact H1 | exact Hi].
      + intros; cbv beta in *; eapply removePossibility_cleared; eauto.
      + intros; cbv beta in *; eapply removePossibility_keeps_cleared; eauto. }
  assert (Q2 : forall i, In i (rangeZ (key + len) (Z.of_nat m)) -> cleared i r c s4).
  { intros i Hi.
    eapply forM_each with (Q := fun i => cleared i r c); [ | | exact H2 | exact Hi].
    - intros; cbv beta in *; eapply removePossibility_cleared; eauto.
    - intros; cbv beta in *; eapply removePossibility_keeps_cleared; eauto. }
  split; apply forM_noop; intros; apply checkPossibility_cleared; auto.
Qed.

Lemma two_removes_cleared key row col i s s' :
  (removePossibility key row i ;; removePossibility key i col) s = (Ok tt, s') ->
  cleared key row i s' /\ cleared key i col s'.
Proof.
  intros H. apply bind_Ok in H. destruct H as ([] & s1 & H1 & H2). split.
  - eapply removePossibility_keeps_cleared; [|exact H2].
    eapply removePossibility_cleared; eauto.
  - eapply removePossibility_cleared; eauto.
Qed.

Lemma two_removes_keep k r c key row col i s s' :
  cleared k r c s ->
  (removePossibility key row i ;; removePossibility key i col) s = (Ok tt, s') ->
  cleared k r c s'.
Proof.
  intros Hc H. apply bind_Ok in H. destruct H as ([] & s1 & H1 & H2).
  eapply removePossibility_keeps_cleared; [|exact H2].
  eapply removePossibility_keeps_cleared; eauto.
Qed.

Lemma addNumber_live pz fuel key row col s :
  addNumber pz fuel key row col s = addNumberLive pz fuel key row col s.
Proof.
  revert key row col s; induction fuel as [|n IH]; intros key row col s;
    cbn [addNumber addNumberLive]; [reflexivity|].
  apply bind_ext; intros v s1.
  destruct (negb (v =? 0)%Z); [reflexivity|].
  apply bind_ext; intros [] s2.
  apply bind_ext; intros m s3.
  apply dead_checks.
  - intros s4 s5 H1 H2.
    assert (Q1 : forall i, In i (seq 0 m) ->
                cleared key row i s5 /\ cleared key i col s5).
    { intros i Hi.
      eapply forM_keeps
        with (I := fun s => cleared key row i s /\ cleared key i col s); [ | | exact H2].
      - intros x sa sb _ [Ha Hb] Hx; cbv beta in *; split; eapply removePossibility_keeps_cleared; eauto.
      - eapply forM_each
          with (Q := fun i s => cleared key row i s /\ cleared key i col s);
          [ | | exact H1 | exact Hi].
        + intros; cbv beta in *; eapply two_removes_cleared; eauto.
        + intros x y sa sb [Ha Hb] Hy; cbv beta in *; split; eapply two_removes_keep; eauto. }
    assert (Q2 : forall ij, In ij (square row col) -> cleared key (fst ij) (snd ij) s5).
    { intros ij Hi.
      eapply forM_each with (Q := fun ij => cleared key (fst ij) (snd ij));
        [ | | exact H2 | exact Hi].
      - intros; cbv beta in *; eapply removePossibility_cleared; eauto.
      - intros; cbv beta in *; eapply removePossibility_keeps_cleared; eauto. }
    split; apply forM_noop.
    + intros i Hi. destruct (Q1 i Hi) as [Ha Hb].
      unfold bind. rewrite checkPossibility_cleared by assumption.
      apply checkPossibility_cleared; assumption.
    + intros ij Hi. apply checkPossibility_cleared; auto.
  - intros s4. apply bind_ext; intros g s5.
    destruct (negb (g =? 0)).
    + apply bind_ext; intros line s6. apply bind_ext; intros gi s7.
      apply bind_ext; intros mirror s8. apply IH.
    + apply bind_ext; intros pu s6. destruct (negb (pu =? 0)); [|reflexivity].
      apply bind_ext; intros line s7. apply forM_ext. intros rc s8 _.
      apply purpleCell_live.
Qed.

(** ** Tame computations *)

Lemma shrinks_refl P : shrinks P P.
Proof.
  split; intros r c set H; [|eauto].
  exists set; repeat split; auto using incl_refl.
Qed.

Lemma shrinks_trans P1 P2 P3 : shrinks P1 P2 -> shrinks P2 P3 -> shrinks P1 P3.
Proof.
  intros [H12 F12] [H23 F23]. split.
  - intros r c set3 H3.
    destruct (H23 _ _ _ H3) as (set2 & H2 & Hi2 & Hl2).
    destruct (H12 _ _ _ H2) as (set1 & H1 & Hi1 & Hl1).
    exists set1; repeat split; [assumption | eapply incl_tran; eauto | lia].
  - intros r c set1 H1. destruct (F12 _ _ _ H1) as [set2 H2]. eauto.
Qed.

Lemma tame_ret A (a : A) : tame (ret a).
Proof. intros s; simpl; auto using shrinks_refl. Qed.

Lemma tame_raise A e : tame (@raise A e).
Proof. intros s; exact I. Qed.

Lemma tame_of_option A (o : option A) : tame (of_option o).
Proof. intros s; unfold of_option; destruct o; simpl; auto using shrinks_refl. Qed.

Lemma tame_get_b r c : tame (get_b r c).
Proof. intros s; apply tame_of_option. Qed.

Lemma tame_get_M : tame get_M.
Proof. intros s; simpl; auto using shrinks_refl. Qed.

Lemma tame_bind A B (m : Py A) (f : A -> Py B) :
  tame m -> (forall a, tame (f a)) -> tame (bind m f).
Proof.
  intros Hm Hf s. unfold bind. specialize (Hm s).
  destruct (m s) as [[a|e|] s1]; auto.
  specialize (Hf a s1). destruct (f a s1) as [[y|e|] s2]; auto.
  destruct Hm as (Hb & HM & Hp), Hf as (Hb' & HM' & Hp').
  split; [congruence|]. split; [congruence | eapply shrinks_trans; eauto].
Qed.

Lemma tame_forM X (l : list X) (f : X -> Py unit) :
  (forall x, tame (f x)) -> tame (forM_ l f).
Proof.
  intros Hf; induction l as [|x t IH]; simpl.
  - apply tame_ret.
  - apply tame_bind; auto.
Qed.

Lemma tame_removePossibility key r c : tame (removePossibility key r c).
Proof.
  intros s. unfold removePossibility, bind, get_b, get_p, of_option.
  destruct (grid_get (b s) r c) as [v|]; [|exact I].
  destruct (v =? 0)%Z; [|simpl; auto using shrinks_refl].
  destruct (grid_get (p s) r c) as [set|] eqn:Hp; [|exact I].
  destruct (in_dec Z.eq_dec key set); [|simpl; auto using shrinks_refl].
  unfold set_p. destruct (grid_set (p s) r c (remove Z.eq_dec key set)) as [g|] eqn:Hg; [|exact I].
  simpl; repeat split.
  - intros r' c' set' H'.
    destruct (coord_eq_dec (r', c') (r, c)) as [E|E].
    + inversion E; subst. erewrite grid_get_set_same in H' by eauto. inversion H'; subst.
      exists set; repeat split; auto.
      * intros x Hx. apply in_remove in Hx. tauto.
      * apply remove_length_le.
    + erewrite grid_get_set_other in H' by eauto.
      exists set'; repeat split; auto using incl_refl.
  - intros r' c' set' H'.
    destruct (coord_eq_dec (r', c') (r, c)) as [E|E].
    + inversion E; subst. erewrite grid_get_set_same by eauto. eauto.
    + erewrite grid_get_set_other by eauto. eauto.
Qed.

Lemma tame_purpleCellLive key row col len rc : tame (purpleCellLive key row col len rc).
Proof.
  destruct rc as [r c]. unfold purpleCellLive.
  apply tame_bind; [apply tame_get_b|]. intros v.
  destruct (negb (v =? 0)%Z && (negb (r =? row) || negb (c =? col))).
  - destruct ((v =? key) || (v <=? key - len) || (v >=? key + len))%Z;
      [apply tame_raise | apply tame_ret].
  - apply tame_bind; [apply tame_get_M|]. intros m.
    apply tame_bind; [|intros _]; apply tame_forM; intros; apply tame_removePossibility.
Qed.

Lemma tame_no_fuel A (m : Py A) s : tame m -> fst (m s) <> OutOfFuel.
Proof.
  intros H. specialize (H s). destruct (m s) as [[a|e|] s1]; simpl; [discriminate | discriminate | contradiction].
Qed.

(** The pruning loops either raise or hand a board with the same numbers
    and smaller candidate sets to the rest of [addNumber]. *)
Lemma prune_cases A key row col m (k : Py A) s :
  (exists s2, b s2 = b s /\ M s2 = M s /\ shrinks (p s) (p s2) /\
     (forM_ (seq 0 m) (fun i =>
        removePossibility key row i ;; removePossibility key i col) ;;
      forM_ (square row col) (fun ij => removePossibility key (fst ij) (snd ij)) ;;
      k) s = k s2) \/
  (exists e s',
     (forM_ (seq 0 m) (fun i =>
        removePossibility key row i ;; removePossibility key i col) ;;
      forM_ (square row col) (fun ij => removePossibility key (fst ij) (snd ij)) ;;
      k) s = (Raise e, s')).
Proof.
  unfold bind at 1 4.
  assert (T1 : tame (forM_ (seq 0 m) (fun i =>
             removePossibility key row i ;; removePossibility key i col))).
  { apply tame_forM; intros; apply tame_bind; [|intros _]; apply tame_removePossibility. }
  specialize (T1 s).
  destruct (forM_ (seq 0 m) _ s) as [[[]|e|] s1]; [ | right; eauto | contradiction].
  unfold bind at 1 2.
  assert (T2 : tame (forM_ (square row col)
             (fun ij => removePossibility key (fst ij) (snd ij)))).
  { apply tame_forM; intros; apply tame_removePossibility. }
  specialize (T2 s1).
  destruct (forM_ (square row col) _ s1) as [[[]|e|] s2]; [ | right; eauto | contradiction].
  left. exists s2. destruct T1 as (Hb & HM & Hp), T2 as (Hb' & HM' & Hp').
  split; [congruence|]. split; [congruence|].
  split; [eapply shrinks_trans; eauto | reflexivity].
Qed.

(** ** [addNumber] on a square that holds a number *)

Lemma addNumberLive_assigned pz fuel key row col s v :
  grid_get (b s) row col = Some v -> v <> 0%Z ->
  addNumberLive pz (S fuel) key row col s =
    if (v =? key)%Z then (Ok tt, s) else (Raise ImpossibleSetup, s).
Proof.
  intros Hv Hnz. cbn [addNumberLive]. unfold bind, get_b, of_option. rewrite Hv.
  destruct (Z.eqb_spec v 0) as [|_]; [contradiction|]. simpl.
  destruct (v =? key)%Z; reflexivity.
Qed.

(** C7: on a square that already holds [v], [addNumber] with [v] returns
    and leaves the board (numbers and candidate sets) as it was, and
    [addNumber] with any other number raises [ImpossibleSetup], the board
    again as it was. *)
Theorem addNumber_on_assigned pz fuel row col s v :
  grid_get (b s) row col = Some v -> v <> 0%Z ->
  addNumber pz (S fuel) v row col s = (Ok tt, s) /\
  (forall w, w <> v ->
     addNumber pz (S fuel) w row col s = (Raise ImpossibleSetup, s)).
Proof.
  intros Hv Hnz. split.
  - rewrite addNumber_live, (addNumberLive_assigned _ _ _ _ _ _ _ Hv Hnz).
    rewrite Z.eqb_refl. reflexivity.
  - intros w Hw.
    rewrite addNumber_live, (addNumberLive_assigned _ _ _ _ _ _ _ Hv Hnz).
    destruct (Z.eqb_spec v w); [congruence | reflexivity].
Qed.

(** ** Termination of [addNumber] *)

Lemma list_set_sum A (f : A -> nat) l i v l' x :
  nth_error l i = Some x -> list_set l i v = Some l' ->
  list_sum (map f l') + f x = list_sum (map f l) + f v.
Proof.
  revert i l'; induction l as [|y t IH]; intros [|i] l' Hx H; simpl in *; try discriminate.
  - inversion Hx; inversion H; subst; simpl. lia.
  - destruct (list_set t i v) as [t'|] eqn:E; simpl in H; inversion H; subst; simpl.
    specialize (IH _ _ Hx E). lia.
Qed.

Lemma blanks_set g r c key g' :
  grid_get g r c = Some 0%Z -> grid_set g r c key = Some g' -> key <> 0%Z ->
  S (blanks g') = blanks g.
Proof.
  unfold grid_get, grid_set, blanks; intros Hget Hset Hk.
  destruct (nth_error g r) as [row|] eqn:Er; try discriminate.
  destruct (list_set row c key) as [row'|] eqn:Ec; try discriminate.
  pose proof (list_set_sum _ blank _ _ _ _ _ Hget Ec) as H1.
  pose proof (list_set_sum _ (fun row => list_sum (map blank row)) _ _ _ _ _ Er Hset) as H2.
  simpl in H2. unfold blank at 2 4 in H1. simpl in H1.
  destruct (Z.eqb_spec key 0); [contradiction|]. lia.
Qed.

Lemma blanks_le g n m :
  length g = n -> Forall (fun row => length row = m) g -> blanks g <= n * m.
Proof.
  unfold blanks. intros <- H. induction H as [|row t Hrow _ IH]; simpl; [lia|].
  assert (list_sum (map blank row) <= length row).
  { clear. induction row as [|v t IH]; simpl; [lia|]. unfold blank at 1.
    destruct (v =? 0)%Z; lia. }
  lia.
Qed.

Lemma addNumberLive_fuel pz fuel :
  forall key row col s, key <> 0%Z -> blanks (b s) < fuel ->
    fst (addNumberLive pz fuel key row col s) <> OutOfFuel.
Proof.
  induction fuel as [|n IH]; intros key row col s Hk Hlt; [lia|].
  cbn [addNumberLive]. rewrite bind_get_b.
  destruct (grid_get (b s) row col) as [v|] eqn:Hv; [|simpl; discriminate].
  destruct (Z.eqb_spec v 0) as [->|Hnz]; cbn [negb].
  2:{ destruct (negb (v =? key)%Z); simpl; discriminate. }
  destruct (grid_set_some _ _ _ _ key _ Hv) as [g Hg].
  rewrite bind_set_b, Hg, bind_get_M. cbn [M].
  match goal with |- fst (bind _ (fun _ => bind _ (fun _ => ?k)) ?s1) <> _ =>
    destruct (prune_cases _ key row col (M s) k s1)
      as [(s2 & Hb & HM & Hp & ->) | (e & s' & ->)]; [|simpl; discriminate]
  end.
  simpl in Hb.
  assert (Hlt2 : blanks (b s2) < n).
  { rewrite Hb. pose proof (blanks_set _ _ _ _ _ Hv Hg Hk). lia. }
  rewrite bind_of_option.
  destruct (grid_get (isGrey pz) row col) as [gr|]; [|simpl; discriminate].
  destruct (negb (gr =? 0)).
  - rewrite bind_of_option.
    destruct (nth_error (greys pz) (gr - 1)) as [line|]; [|simpl; discriminate].
    rewrite bind_of_option.
    destruct (grid_get (greyIndexes pz) row col) as [gi|]; [|simpl; discriminate].
    rewrite bind_of_option.
    destruct (py_index line _) as [mirror|]; [|simpl; discriminate].
    apply IH; assumption.
  - rewrite bind_of_option.
    destruct (grid_get (isPurple pz) row col) as [pu|]; [|simpl; discriminate].
    destruct (negb (pu =? 0)); [|simpl; discriminate].
    rewrite bind_of_option.
    destruct (nth_error (purples pz) (pu - 1)) as [line|]; [|simpl; discriminate].
    apply tame_no_fuel. apply tame_forM. intros; apply tame_purpleCellLive.
Qed.

(** C10: [addNumber] with a number other than 0 ends (normally or by an
    exception) as soon as the fuel exceeds the number of blank squares: a
    call on a square that holds a number returns at once, a call on a blank
    square fills it before it recurses.  A 9x9 board has at most 81 blank
    squares. *)
Theorem addNumber_terminates pz fuel key row col s :
  key <> 0%Z -> blanks (b s) < fuel ->
  fst (addNumber pz fuel key row col s) <> OutOfFuel /\
  (length (b s) = 9 -> Forall (fun r => length r = 9) (b s) -> blanks (b s) <= 81).
Proof.
  intros Hk Hlt. split.
  - rewrite addNumber_live. apply addNumberLive_fuel; assumption.
  - intros H9 Hrows. apply (blanks_le _ 9 9 H9 Hrows).
Qed.

(** ** [checkGroup] and [check] change nothing *)

Lemma In_rangeZ lo hi i : In i (rangeZ lo hi) <-> (lo <= i < hi)%Z.
Proof.
  unfold rangeZ. rewrite in_map_iff. split.
  - intros (k & <- & Hk). apply in_seq in Hk. lia.
  - intros H. exists (Z.to_nat (i - lo)). split; [lia | apply in_seq; lia].
Qed.

Lemma bind_inert A B (m : Py A) (f : A -> Py B) s :
  inert m s -> (forall a, inert (f a) s) -> inert (bind m f) s.
Proof.
  intros [[a E]|E] Hf; unfold inert, bind; rewrite E; [apply Hf | right; reflexivity].
Qed.

Lemma forM_inert X (l : list X) (f : X -> Py unit) s :
  (forall x, In x l -> inert (f x) s) -> inert (forM_ l f) s.
Proof.
  induction l as [|x t IH]; intros H; simpl.
  - left; exists tt; reflexivity.
  - apply bind_inert; [apply H; simpl; auto | intros _; apply IH; intros; apply H; simpl; auto].
Qed.

Lemma holders_inert num group s :
  (exists l, holders num group s = (Ok l, s) /\
     Forall (fun i => grid_get (b s) (fst i) (snd i) = Some num) l) \/
  holders num group s = (Raise IndexError, s).
Proof.
  induction group as [|i t IH]; cbn [holders].
  - left; exists []; split; [reflexivity | constructor].
  - rewrite bind_get_b.
    destruct (grid_get (b s) (fst i) (snd i)) as [v|] eqn:Hv; [|right; reflexivity].
    unfold bind. destruct IH as [(l & -> & Hl) | ->]; [|right; reflexivity].
    left. exists (if (v =? num)%Z then i :: l else l). split; [reflexivity|].
    destruct (Z.eqb_spec v num); subst; auto.
Qed.

Lemma checkGroup_inert pz fuel group s : inert (checkGroup pz (S fuel) group) s.
Proof.
  unfold checkGroup. apply forM_inert. intros num Hnum.
  apply In_rangeZ in Hnum.
  unfold inert, bind.
  destruct (holders_inert num group s) as [(l & -> & Hl) | ->]; [|right; reflexivity].
  destruct l as [|i [|j l]]; try (left; exists tt; reflexivity).
  inversion Hl; subst.
  assert (Hnz : num <> 0%Z) by lia.
  rewrite addNumber_live, (addNumberLive_assigned _ _ _ _ _ _ _ H1 Hnz), Z.eqb_refl.
  left; exists tt; reflexivity.
Qed.

Lemma check_inert pz fuel s : inert (check pz (S fuel)) s.
Proof.
  unfold check. apply bind_inert; [left; exists (M s); reflexivity|]. intros m.
  apply bind_inert; [|intros _]; apply forM_inert; intros i _.
  - apply bind_inert; [|intros _]; apply checkGroup_inert.
  - apply forM_inert; intros j _. apply checkGroup_inert.
Qed.

(** ** What [addNumber] does to the numbers of the board *)

Lemma mirrorAt_fun pz X Y Y' : mirrorAt pz X Y -> mirrorAt pz X Y' -> Y = Y'.
Proof.
  intros (g & line & gi & H1 & _ & H3 & H4 & H5) (g' & line' & gi' & H1' & _ & H3' & H4' & H5').
  rewrite H1 in H1'; inversion H1'; subst g'.
  rewrite H3 in H3'; inversion H3'; subst line'.
  rewrite H4 in H4'; inversion H4'; subst gi'.
  congruence.
Qed.

Lemma purpleAt_fun pz X line line' : purpleAt pz X line -> purpleAt pz X line' -> line = line'.
Proof.
  intros (_ & pu & H1 & _ & H2) (_ & pu' & H1' & _ & H2').
  rewrite H1 in H1'; inversion H1'; subst pu'. congruence.
Qed.

Lemma mirrorAt_grey pz X Y : mirrorAt pz X Y -> grid_get (isGrey pz) (fst X) (snd X) <> Some 0.
Proof. intros (g & line & gi & H1 & Hg & _) E. rewrite H1 in E. inversion E; contradiction. Qed.

Lemma apart_sym len v w : apart len v w -> apart len w v.
Proof. unfold apart; lia. Qed.

(** The loop over a purple line: the numbers stay, and every other square
    of the line that holds a number passed the test of line 104. *)
Lemma purple_loop key row col line0 len s s' :
  forM_ line0 (purpleCellLive key row col len) s = (Ok tt, s') ->
  b s' = b s /\ M s' = M s /\ shrinks (p s) (p s') /\
  forall Y w, In Y line0 -> Y <> (row, col) -> val s Y = Some w -> w <> 0%Z ->
    apart len key w.
Proof.
  revert s; induction line0 as [|[r c] t IH]; intros s H; cbn [forM_] in H.
  - inversion H; subst. split; [|split; [|split]]; auto using shrinks_refl. intros Y w [].
  - apply bind_Ok in H. destruct H as ([] & s1 & H1 & H2).
    pose proof (tame_purpleCellLive key row col len (r, c) s) as T. rewrite H1 in T.
    destruct T as (Hb & HM & Hp).
    destruct (IH _ H2) as (Hb' & HM' & Hp' & Hrest).
    split; [|split; [|split]]; [congruence | congruence | eapply shrinks_trans; eauto |].
    intros Y w [<-|HY] Hne Hw Hnz.
    + unfold purpleCellLive in H1. rewrite bind_get_b in H1.
      unfold val in Hw; simpl in Hw. rewrite Hw in H1.
      destruct (Z.eqb_spec w 0) as [|_]; [contradiction|].
      assert (Hrc : negb (r =? row) || negb (c =? col) = true).
      { destruct (Nat.eqb_spec r row), (Nat.eqb_spec c col); subst; simpl; auto; congruence. }
      rewrite Hrc in H1. cbn [negb andb] in H1.
      destruct (Z.eqb_spec w key); [discriminate|]. 
      destruct (Z.leb_spec w (key - len)); [discriminate|].
      destruct (Z.geb_spec w (key + len)); [discriminate|].
      unfold apart; lia.
    + apply (Hrest Y w); auto. unfold val. rewrite Hb. exact Hw.
Qed.

Lemma val_after_set s s2 X key g1 :
  grid_set (b s) (fst X) (snd X) key = Some g1 -> b s2 = g1 ->
  val s2 X = Some key /\ forall Z, Z <> X -> val s2 Z = val s Z.
Proof.
  intros Hg Hb. unfold val. rewrite Hb. split.
  - eapply grid_get_set_same; eauto.
  - intros [zr zc] Hne. destruct X as [r c]. simpl in *.
    eapply grid_get_set_other; eauto.
Qed.

(** One round of [addNumber] on a blank square: the number is written, the
    candidates are pruned, and then either the mirror square is filled, or
    the purple line of the square is walked, or nothing is left to do. *)
Lemma addNumberLive_blank pz n key row col s s' :
  val s (row, col) = Some 0%Z ->
  addNumberLive pz (S n) key row col s = (Ok tt, s') ->
  exists g1 s2,
    grid_set (b s) row col key = Some g1 /\ b s2 = g1 /\ M s2 = M s /\
    shrinks (p s) (p s2) /\
    ((exists Y, mirrorAt pz (row, col) Y /\
        addNumberLive pz n key (fst Y) (snd Y) s2 = (Ok tt, s')) \/
     (grid_get (isGrey pz) row col = Some 0 /\
      ((grid_get (isPurple pz) row col = Some 0 /\ s' = s2) \/
       (exists line, purpleAt pz (row, col) line /\
          forM_ line (purpleCellLive key row col (Z.of_nat (length line))) s2
            = (Ok tt, s'))))).
Proof.
  intros Hv H. unfold val in Hv; simpl in Hv.
  cbn [addNumberLive] in H. rewrite bind_get_b, Hv in H. cbn [Z.eqb negb] in H.
  rewrite bind_set_b in H.
  destruct (grid_set (b s) row col key) as [g1|] eqn:Hg; [|discriminate].
  rewrite bind_get_M in H. cbn [M] in H.
  match type of H with bind _ (fun _ => bind _ (fun _ => ?k)) ?s1 = _ =>
    destruct (prune_cases _ key row col (M s) k s1)
      as [(s2 & Hb & HM & Hp & E) | (e & s3 & E)]; rewrite E in H; clear E;
      [|discriminate]
  end.
  simpl in Hb, HM, Hp.
  exists g1, s2. split; [reflexivity|]. split; [assumption|]. split; [assumption|].
  split; [assumption|].
  rewrite bind_of_option in H.
  destruct (grid_get (isGrey pz) row col) as [gr|] eqn:Hgr; [|discriminate].
  destruct (Nat.eqb_spec gr 0) as [->|Hnz]; cbn [negb] in H.
  - right. split; [reflexivity|].
    rewrite bind_of_option in H.
    destruct (grid_get (isPurple pz) row col) as [pu|] eqn:Hpu; [|discriminate].
    destruct (Nat.eqb_spec pu 0) as [->|Hpnz]; cbn [negb] in H.
    + left. inversion H; auto.
    + right. rewrite bind_of_option in H.
      destruct (nth_error (purples pz) (pu - 1)) as [line|] eqn:Hline; [|discriminate].
      exists line. split; [|exact H].
      split; [exact Hgr|]. exists pu; auto.
  - left. rewrite bind_of_option in H.
    destruct (nth_error (greys pz) (gr - 1)) as [line|] eqn:Hline; [|discriminate].
    rewrite bind_of_option in H.
    destruct (grid_get (greyIndexes pz) row col) as [gi|] eqn:Hgi; [|discriminate].
    rewrite bind_of_option in H.
    destruct (py_index line (Z.of_nat (length line) - Z.of_nat gi - 1)) as [Y|] eqn:HY;
      [|discriminate].
    exists Y. split; [|exact H].
    exists gr, line, gi. simpl. auto.
Qed.

Lemma addNumberLive_unreadable pz fuel key row col s s' :
  val s (row, col) = None -> addNumberLive pz fuel key row col s <> (Ok tt, s').
Proof.
  intros Hv. destruct fuel; cbn [addNumberLive]; [discriminate|].
  unfold val in Hv; simpl in Hv. rewrite bind_get_b, Hv. discriminate.
Qed.

(** The numbers of the board after a normal end of [addNumber]: nothing
    changes on a square that holds the number; a blank grey square and its
    mirror square get the number; a blank square that is not grey gets the
    number, and the other numbers of its purple line are apart from it. *)
Lemma addNumberLive_effect pz fuel key row col s s' :
  wf_grey pz -> key <> 0%Z ->
  addNumberLive pz fuel key row col s = (Ok tt, s') ->
  M s' = M s /\ shrinks (p s) (p s') /\
  ((val s (row, col) = Some key /\ b s' = b s) \/
   (val s (row, col) = Some 0%Z /\
    exists Y, mirrorAt pz (row, col) Y /\
      (Y = (row, col) \/ val s Y = Some 0%Z \/ val s Y = Some key) /\
      (forall Z, Z = (row, col) \/ Z = Y -> val s' Z = Some key) /\
      (forall Z, Z <> (row, col) -> Z <> Y -> val s' Z = val s Z)) \/
   (val s (row, col) = Some 0%Z /\
    grid_get (isGrey pz) row col = Some 0 /\
    val s' (row, col) = Some key /\
    (forall Z, Z <> (row, col) -> val s' Z = val s Z) /\
    (forall line Y w, purpleAt pz (row, col) line -> In Y line -> Y <> (row, col) ->
       val s Y = Some w -> w <> 0%Z -> apart (Z.of_nat (length line)) key w))).
Proof.
  intros Hwf Hk H.
  destruct fuel as [|n]; [discriminate|].
  destruct (val s (row, col)) as [v|] eqn:Hv;
    [|exfalso; eapply addNumberLive_unreadable; eauto].
  destruct (Z.eq_dec v 0) as [->|Hnz].
  2:{ rewrite (addNumberLive_assigned _ _ _ _ _ _ _ Hv Hnz) in H.
      destruct (Z.eqb_spec v key) as [E|]; [|discriminate].
      inversion H; subst. split; [reflexivity|]. split; [apply shrinks_refl|]. auto. }
  destruct (addNumberLive_blank _ _ _ _ _ _ _ Hv H)
    as (g1 & s2 & Hg & Hb & HM & Hp & Hcases).
  destruct (val_after_set s s2 (row, col) key g1 Hg Hb) as [Hsame Hother].
  destruct Hcases as [(Y & Hmir & Hrun) | (Hgr & [[Hpu ->] | (line & Hline & Hrun)])].
  - (* a grey square *)
    destruct n as [|m]; [discriminate|].
    destruct (coord_eq_dec Y (row, col)) as [->|HYX].
    + rewrite (addNumberLive_assigned _ _ _ _ _ _ _ Hsame Hk), Z.eqb_refl in Hrun.
      inversion Hrun; subst s'.
      split; [assumption|]. split; [assumption|]. right; left.
      split; [reflexivity|]. exists (row, col). split; [assumption|]. split; [auto|].
      split; [intros Z [->| ->]; assumption | intros; auto].
    + destruct (val s Y) as [w|] eqn:HwY.
      2:{ exfalso. destruct Y as [yr yc].
          eapply addNumberLive_unreadable; [|exact Hrun].
          rewrite Hother by assumption. exact HwY. }
      assert (HwY2 : val s2 Y = Some w) by (rewrite Hother; assumption).
      destruct (Z.eq_dec w 0) as [->|Hwnz].
      * destruct Y as [yr yc].
        destruct (addNumberLive_blank _ _ _ _ _ _ _ HwY2 Hrun)
          as (g2 & s4 & Hg2 & Hb2 & HM2 & Hp2 & Hcases2).
        destruct (val_after_set s2 s4 (yr, yc) key g2 Hg2 Hb2) as [Hsame2 Hother2].
        pose proof (Hwf _ _ Hmir) as Hback.
        destruct Hcases2 as [(Y' & Hmir' & Hrun') | (Hgr' & _)].
        2:{ exfalso. eapply mirrorAt_grey; eauto. }
        assert (Y' = (row, col)) by (eapply mirrorAt_fun; eauto). subst Y'.
        destruct m as [|m']; [discriminate|].
        assert (HX4 : val s4 (row, col) = Some key).
        { rewrite Hother2 by congruence. assumption. }
        rewrite (addNumberLive_assigned _ _ _ _ _ _ _ HX4 Hk), Z.eqb_refl in Hrun'.
        inversion Hrun'; subst s'.
        split; [congruence|]. split; [eapply shrinks_trans; eauto|]. right; left.
        split; [reflexivity|]. exists (yr, yc). split; [assumption|]. split; [auto|].
        split.
        -- intros Z [->| ->]; assumption.
        -- intros Z HZ1 HZ2. rewrite Hother2, Hother by assumption. reflexivity.
      * destruct Y as [yr yc].
        rewrite (addNumberLive_assigned _ _ _ _ _ _ _ HwY2 Hwnz) in Hrun.
        destruct (Z.eqb_spec w key) as [E|]; [|discriminate].
        inversion Hrun; subst s' w.
        split; [assumption|]. split; [assumption|]. right; left.
        split; [reflexivity|]. exists (yr, yc). split; [assumption|]. split; [auto|].
        split; [intros Z [->| ->]; assumption | intros; auto].
  - (* a square on no line *)
    split; [assumption|]. split; [assumption|]. right; right.
    split; [reflexivity|]. split; [assumption|]. split; [assumption|].
    split; [assumption|].
    intros line Y w (_ & pu & Hpu' & Hpnz & _). simpl in Hpu'. congruence.
  - (* a purple square *)
    destruct (purple_loop _ _ _ _ _ _ _ Hrun) as (Hb' & HM' & Hp' & Hfacts).
    split; [congruence|]. split; [eapply shrinks_trans; eauto|]. right; right.
    split; [reflexivity|]. split; [assumption|].
    assert (Hval : forall Z, val s' Z = val s2 Z) by (intros; unfold val; rewrite Hb'; reflexivity).
    split; [rewrite Hval; assumption|].
    split; [intros; rewrite Hval; auto|].
    intros line' Y w Hline' HY Hne Hw Hwnz.
    assert (line' = line) by (eapply purpleAt_fun; eauto). subst line'.
    apply (Hfacts Y w); auto. rewrite Hother; assumption.
Qed.

(** [addNumber] keeps [M], shrinks candidate sets, writes on blank squares
    only, and leaves every square readable. *)
Lemma addNumberLive_frame pz fuel : forall key r c s s',
  addNumberLive pz fuel key r c s = (Ok tt, s') ->
  M s' = M s /\ shrinks (p s) (p s') /\
  (forall Z, val s' Z = Some 0%Z -> val s Z = Some 0%Z) /\
  (forall Z v, val s Z = Some v -> exists v', val s' Z = Some v').
Proof.
  induction fuel as [|n IH]; intros key r c s s' H; [discriminate|].
  destruct (val s (r, c)) as [v|] eqn:Hv;
    [|exfalso; eapply addNumberLive_unreadable; eauto].
  destruct (Z.eq_dec v 0) as [->|Hnz].
  2:{ rewrite (addNumberLive_assigned _ _ _ _ _ _ _ Hv Hnz) in H.
      destruct (v =? key)%Z; [|discriminate]. inversion H; subst.
      split; [reflexivity|]. split; [apply shrinks_refl|]. split; eauto. }
  destruct (addNumberLive_blank _ _ _ _ _ _ _ Hv H)
    as (g1 & s2 & Hg & Hb & HM & Hp & Hcases).
  destruct (val_after_set s s2 (r, c) key g1 Hg Hb) as [Hsame Hother].
  assert (Hback : forall Z, val s2 Z = Some 0%Z -> val s Z = Some 0%Z).
  { intros Z HZ. destruct (coord_eq_dec Z (r, c)) as [->|Hne]; [assumption|].
    rewrite <- Hother by assumption. assumption. }
  assert (Hfwd : forall Z w, val s Z = Some w -> exists w', val s2 Z = Some w').
  { intros Z w HZ. destruct (coord_eq_dec Z (r, c)) as [->|Hne]; [eauto|].
    rewrite Hother by assumption. eauto. }
  destruct Hcases as [(Y & Hmir & Hrun) | (Hgr & [[Hpu ->] | (line & Hline & Hrun)])].
  - destruct (IH _ _ _ _ _ Hrun) as (HM' & Hp' & Hz' & Hf').
    split; [congruence|]. split; [eapply shrinks_trans; eauto|]. split; [auto|].
    intros Z w HZ. destruct (Hfwd _ _ HZ) as [w' Hw']. eauto.
  - split; [assumption|]. split; [assumption|]. split; assumption.
  - destruct (purple_loop _ _ _ _ _ _ _ Hrun) as (Hb' & HM' & Hp' & _).
    split; [congruence|]. split; [eapply shrinks_trans; eauto|]. split.
    + intros Z HZ. apply Hback. unfold val in *. rewrite <- Hb'. assumption.
    + intros Z w HZ. destruct (Hfwd _ _ HZ) as [w' Hw'].
      exists w'. unfold val in *. rewrite Hb'. assumption.
Qed.

(** ** Placing a number keeps the line invariants *)

Lemma cands_ok_shrinks s s' : cands_ok s -> shrinks (p s) (p s') -> cands_ok s'.
Proof.
  intros Hc [Hs _] r c set' H'. destruct (Hs _ _ _ H') as (set & Hset & Hincl & Hlen).
  destruct (Hc _ _ _ Hset) as [H0 H100]. split; [intros Hin; apply H0, Hincl, Hin | lia].
Qed.

Lemma place_mirror pz (D : coord -> Prop) s s0 s' fuel key X0 :
  wf_grey pz -> key <> 0%Z -> mirror_ok pz D s -> blanked s s0 X0 key ->
  addNumberLive pz fuel key (fst X0) (snd X0) s0 = (Ok tt, s') ->
  mirror_ok pz (fun X => D X \/ X = X0) s'.
Proof.
  intros Hwf Hk Hok (Hoth & Hz & Hs) Hrun X Y v HD Hmir Hv Hvnz.
  destruct X0 as [r c]. simpl in Hrun.
  apply addNumberLive_effect in Hrun; [|assumption|assumption].
  destruct Hrun as (_ & _ & [(Hkey & _) |
    [(_ & Y0 & Hm0 & _ & Hset & Hrest) | (_ & Hgr & Hset & Hrest & _)]]).
  - congruence.
  - pose proof (Hwf _ _ Hm0) as Hback.
    destruct (coord_eq_dec X (r, c)) as [->|HX0].
    { assert (Y = Y0) by (eapply mirrorAt_fun; eauto). subst Y.
      rewrite Hset in Hv by auto. rewrite Hset by auto. assumption. }
    destruct (coord_eq_dec X Y0) as [->|HXY0].
    { assert (Y = (r, c)) by (eapply mirrorAt_fun; eauto). subst Y.
      rewrite Hset in Hv by auto. rewrite Hset by auto. assumption. }
    assert (HDX : D X) by (destruct HD; [assumption | contradiction]).
    rewrite Hrest, Hoth in Hv by assumption.
    pose proof (Hok _ _ _ HDX Hmir Hv Hvnz) as HY.
    pose proof (Hwf _ _ Hmir) as HmirYX.
    assert (Y <> (r, c)).
    { intros ->. apply HXY0. eapply mirrorAt_fun; eauto. }
    assert (Y <> Y0).
    { intros ->. apply HX0. eapply mirrorAt_fun; eauto. }
    rewrite Hrest, Hoth by assumption. assumption.
  - assert (HX0 : X <> (r, c)).
    { intros ->. eapply mirrorAt_grey; eauto. }
    assert (HY0 : Y <> (r, c)).
    { intros ->. eapply mirrorAt_grey; [apply Hwf; exact Hmir | exact Hgr]. }
    assert (HDX : D X) by (destruct HD; [assumption | contradiction]).
    rewrite Hrest, Hoth in Hv by assumption.
    rewrite Hrest, Hoth by assumption.
    eapply Hok; eauto.
Qed.

Lemma purpleAt_not_grey pz X line Y :
  purpleAt pz X line -> mirrorAt pz X Y -> False.
Proof. intros (Hg & _) Hm. eapply mirrorAt_grey; eauto. Qed.

Lemma place_purple pz (D : coord -> Prop) s s0 s' fuel key X0 :
  wf_grey pz -> wf_purple pz -> key <> 0%Z -> purple_ok pz D s -> blanked s s0 X0 key ->
  addNumberLive pz fuel key (fst X0) (snd X0) s0 = (Ok tt, s') ->
  purple_ok pz (fun X => D X \/ X = X0) s'.
Proof.
  intros Hwf Hwp Hk Hok (Hoth & Hz & Hs) Hrun X line Y v w HD Hline HY Hne Hv Hvnz Hw Hwnz.
  destruct X0 as [r c]. simpl in Hrun.
  apply addNumberLive_effect in Hrun; [|assumption|assumption].
  destruct (Hwp _ _ Hline) as [HXin Hall].
  pose proof (Hall _ HY) as HlineY.
  destruct Hrun as (_ & _ & [(Hkey & _) |
    [(_ & Y0 & Hm0 & _ & Hset & Hrest) | (_ & Hgr & Hset & Hrest & Hfacts)]]).
  - congruence.
  - pose proof (Hwf _ _ Hm0) as Hback.
    assert (X <> (r, c)) by (intros ->; exact (purpleAt_not_grey _ _ _ _ Hline Hm0)).
    assert (X <> Y0) by (intros ->; exact (purpleAt_not_grey _ _ _ _ Hline Hback)).
    assert (Y <> (r, c)) by (intros ->; exact (purpleAt_not_grey _ _ _ _ HlineY Hm0)).
    assert (Y <> Y0) by (intros ->; exact (purpleAt_not_grey _ _ _ _ HlineY Hback)).
    assert (HDX : D X) by (destruct HD; [assumption | contradiction]).
    rewrite Hrest, Hoth in Hv, Hw by assumption.
    exact (Hok X line Y v w HDX Hline HY Hne Hv Hvnz Hw Hwnz).
  - destruct (coord_eq_dec X (r, c)) as [->|HX0].
    + rewrite Hset in Hv. inversion Hv; subst v.
      rewrite Hrest in Hw by assumption.
      exact (Hfacts line Y w Hline HY Hne Hw Hwnz).
    + assert (HDX : D X) by (destruct HD; [assumption | contradiction]).
      rewrite Hrest in Hv by assumption.
      destruct (coord_eq_dec Y (r, c)) as [->|HY0].
      * rewrite Hset in Hw. inversion Hw; subst w.
        apply apart_sym. exact (Hfacts line X v HlineY HXin HX0 Hv Hvnz).
      * rewrite Hrest in Hw by assumption.
        rewrite Hoth in Hv, Hw by assumption.
        exact (Hok X line Y v w HDX Hline HY Hne Hv Hvnz Hw Hwnz).
Qed.

(** ** The sweep [check] with any fuel, and the choice of a square *)

Lemma quiet_bind A B (m : Py A) (f : A -> Py B) s :
  quiet m s -> (forall a, quiet (f a) s) -> quiet (bind m f) s.
Proof.
  unfold quiet, bind. intros Hm Hf.
  destruct (m s) as [[a|e|] s1]; simpl in Hm; subst; auto.
Qed.

Lemma quiet_forM X (l : list X) (f : X -> Py unit) s :
  (forall x, In x l -> quiet (f x) s) -> quiet (forM_ l f) s.
Proof.
  induction l as [|x t IH]; intros Hf; simpl; [reflexivity|].
  apply quiet_bind; [apply Hf; simpl; auto | intros _; apply IH; intros; apply Hf; simpl; auto].
Qed.

Lemma quiet_checkGroup pz fuel group s : quiet (checkGroup pz fuel group) s.
Proof.
  unfold checkGroup. apply quiet_forM. intros num Hnum. apply In_rangeZ in Hnum.
  unfold quiet, bind.
  destruct (holders_inert num group s) as [(l & -> & Hl) | ->]; [|reflexivity].
  destruct l as [|i [|j l]]; try reflexivity.
  destruct fuel as [|n]; [reflexivity|].
  inversion Hl; subst.
  assert (Hnz : num <> 0%Z) by lia.
  rewrite addNumber_live, (addNumberLive_assigned _ _ _ _ _ _ _ H1 Hnz), Z.eqb_refl.
  reflexivity.
Qed.

Lemma quiet_check pz fuel s : quiet (check pz fuel) s.
Proof.
  unfold check. apply quiet_bind; [reflexivity|]. intros m.
  apply quiet_bind; [|intros _]; apply quiet_forM; intros i _.
  - apply quiet_bind; [|intros _]; apply quiet_checkGroup.
  - apply quiet_forM; intros j _. apply quiet_checkGroup.
Qed.

Lemma check_Ok pz fuel s u s' : check pz fuel s = (Ok u, s') -> s' = s.
Proof. intros H. pose proof (quiet_check pz fuel s) as Q. unfold quiet in Q. rewrite H in Q. auto. Qed.

Lemma blankAt_fun s X n n' : blankAt s X n -> blankAt s X n' -> n = n'.
Proof. intros (_ & set & H1 & <-) (_ & set' & H1' & <-). congruence. Qed.

(** One round of the loop over the grey squares. *)
Lemma scanGrey_step acc X s acc' s' :
  scanGrey acc X s = (Ok acc', s') ->
  s' = s /\ readable s X /\
  ((acc' = acc /\ forall n, blankAt s X n -> fst acc <= n) \/
   (acc' = (fst acc', X) /\ blankAt s X (fst acc') /\ fst acc' < fst acc)).
Proof.
  unfold scanGrey. rewrite bind_get_b. intros H.
  destruct (grid_get (b s) (fst X) (snd X)) as [v|] eqn:Hv; [|discriminate].
  destruct (Z.eqb_spec v 0) as [->|Hnz].
  - rewrite bind_get_p in H.
    destruct (grid_get (p s) (fst X) (snd X)) as [set|] eqn:Hp; [|discriminate].
    assert (Hb : blankAt s X (length set)) by (split; [exact Hv | eauto]).
    assert (Hr : readable s X) by (exists 0%Z; split; [exact Hv | eauto]).
    destruct (Nat.ltb_spec (length set) (fst acc)); inversion H; subst.
    + split; [reflexivity|]. split; [assumption|]. right. simpl. auto.
    + split; [reflexivity|]. split; [assumption|]. left. split; [reflexivity|].
      intros n Hn. rewrite (blankAt_fun _ _ _ _ Hn Hb). assumption.
  - inversion H; subst. split; [reflexivity|]. split.
    + exists v. split; [exact Hv | intros; contradiction].
    + left. split; [reflexivity|]. intros n (Hv' & _). unfold val in Hv'. congruence.
Qed.

(** The loop over the grey squares: either no blank square has fewer
    candidates than the minimum so far, or the result is the first blank
    square with the fewest candidates. *)
Lemma scanGrey_fold l : forall acc s acc' s',
  foldM scanGrey l acc s = (Ok acc', s') ->
  s' = s /\ (forall X, In X l -> readable s X) /\
  ((acc' = acc /\ forall X n, In X l -> blankAt s X n -> fst acc <= n) \/
   (exists l1 l2, l = l1 ++ snd acc' :: l2 /\
      blankAt s (snd acc') (fst acc') /\ fst acc' < fst acc /\
      (forall X n, In X l1 -> blankAt s X n -> fst acc' < n) /\
      (forall X n, In X l2 -> blankAt s X n -> fst acc' <= n))).
Proof.
  induction l as [|X t IH]; intros acc s acc' s' H; cbn [foldM] in H.
  - inversion H; subst. split; [reflexivity|]. split; [intros ? []|].
    left. split; [reflexivity | intros ? ? []].
  - apply bind_Ok in H. destruct H as (acc1 & s1 & H1 & H2).
    apply scanGrey_step in H1. destruct H1 as (-> & Hr & Hstep).
    apply IH in H2. destruct H2 as (-> & Hrt & Hfold).
    split; [reflexivity|]. split; [intros Y [<-|HY]; auto|].
    destruct Hfold as [(-> & Hmin) | (l1 & l2 & -> & Hb & Hlt & Hl1 & Hl2)].
    + destruct Hstep as [(-> & HX) | (E & Hb & Hlt)].
      * left. split; [reflexivity|]. intros Y n [<-|HY] Hn; [auto | eapply Hmin; eauto].
      * right. exists [], t. rewrite E. simpl. split; [reflexivity|].
        split; [assumption|]. split; [assumption|]. split; [intros ? ? []|].
        intros Y n HY Hn. rewrite E in Hmin. simpl in Hmin. eapply Hmin; eauto.
    + right. exists (X :: l1), l2. split; [reflexivity|]. split; [assumption|].
      destruct Hstep as [(-> & HX) | (E & HbX & HltX)].
      * split; [assumption|]. split; [|assumption].
        intros Y n [<-|HY] Hn; [specialize (HX _ Hn); lia | eapply Hl1; eauto].
      * split; [lia|]. split; [|assumption].
        intros Y n [<-|HY] Hn; [|eapply Hl1; eauto].
        rewrite (blankAt_fun _ _ _ _ Hn HbX). assumption.
Qed.

(** One round of the loop over all squares. *)
Lemma scanAny_step pz acc X s acc' s' :
  scanAny pz acc X s = (Ok acc', s') ->
  s' = s /\ readable s X /\ fst acc' <= fst acc /\
  (forall n, blankAt s X n -> fst acc' <= n) /\
  (acc' = acc \/
   (acc' = (fst acc', X) /\ blankAt s X (fst acc') /\
    (fst acc' = fst acc -> purpleSq pz X))) /\
  (forall n, blankAt s X n -> purpleSq pz X -> fst acc' = n -> acc' = (n, X)).
Proof.
  unfold scanAny. rewrite bind_get_b. intros H.
  destruct (grid_get (b s) (fst X) (snd X)) as [v|] eqn:Hv; [|discriminate].
  destruct (Z.eqb_spec v 0) as [->|Hnz].
  - rewrite bind_get_p in H.
    destruct (grid_get (p s) (fst X) (snd X)) as [set|] eqn:Hp; [|discriminate].
    assert (Hb : blankAt s X (length set)) by (split; [exact Hv | eauto]).
    assert (Hr : readable s X) by (exists 0%Z; split; [exact Hv | eauto]).
    assert (Hn : forall n, blankAt s X n -> n = length set)
      by (intros n Hn; eapply blankAt_fun; eauto).
    assert (Hupd : (Ok (length set, X), s) = (Ok acc', s') ->
      s' = s /\ readable s X /\ fst acc' <= length set /\
      (forall n, blankAt s X n -> fst acc' <= n) /\
      acc' = (fst acc', X) /\ blankAt s X (fst acc') /\
      (forall n, blankAt s X n -> purpleSq pz X -> fst acc' = n -> acc' = (n, X))).
    { intros E. inversion E; subst. simpl.
      split; [reflexivity|]. split; [assumption|]. split; [lia|].
      split; [intros n Hbn; rewrite (Hn _ Hbn); lia|].
      split; [reflexivity|]. split; [assumption|].
      intros n Hbn _ _. rewrite (Hn _ Hbn). reflexivity. }
    assert (Hkeep : (Ok acc, s) = (Ok acc', s') -> length set >= fst acc ->
      s' = s /\ readable s X /\ fst acc' <= fst acc /\
      (forall n, blankAt s X n -> fst acc' <= n) /\ acc' = acc).
    { intros E Hge. inversion E; subst.
      split; [reflexivity|]. split; [assumption|]. split; [lia|].
      split; [intros n Hbn; rewrite (Hn _ Hbn); lia | reflexivity]. }
    destruct (Nat.ltb_spec (length set) (fst acc)) as [Hlt|Hge].
    { destruct (Hupd H) as (E1 & E2 & E3 & E4 & E5 & E6 & E7).
      split; [assumption|]. split; [assumption|]. split; [lia|]. split; [assumption|].
      split; [|assumption]. right. split; [assumption|]. split; [assumption|]. lia. }
    destruct (Nat.eqb_spec (length set) (fst acc)) as [Heq|Hneq].
    + rewrite bind_of_option in H.
      destruct (grid_get (isPurple pz) (fst X) (snd X)) as [pu|] eqn:Hpu; [|discriminate].
      destruct (Nat.eqb_spec pu 0) as [->|Hpnz]; cbn [negb] in H.
      * destruct (Hkeep H Hge) as (E1 & E2 & E3 & E4 & E5).
        split; [assumption|]. split; [assumption|]. split; [assumption|].
        split; [assumption|]. split; [left; assumption|].
        intros n _ (pu & Hpu' & Hpnz) _. congruence.
      * destruct (Hupd H) as (E1 & E2 & E3 & E4 & E5 & E6 & E7).
        split; [assumption|]. split; [assumption|]. split; [lia|]. split; [assumption|].
        split; [|assumption]. right. split; [assumption|]. split; [assumption|].
        intros _. exists pu; auto.
    + destruct (Hkeep H Hge) as (E1 & E2 & E3 & E4 & E5).
      split; [assumption|]. split; [assumption|]. split; [assumption|].
      split; [assumption|]. split; [left; assumption|].
      intros n Hbn _ E. subst acc'. rewrite (Hn _ Hbn) in E. lia.
  - inversion H; subst. split; [reflexivity|]. split.
    { exists v. split; [exact Hv | intros; contradiction]. }
    split; [lia|]. split.
    { intros n (Hv' & _). unfold val in Hv'. congruence. }
    split; [left; reflexivity|].
    intros n (Hv' & _). unfold val in Hv'. congruence.
Qed.

(** The loop over all squares: the result has the fewest candidates among
    the blank squares, and it is a purple square when a purple square is
    among those with the fewest. *)
Lemma scanAny_fold pz l : forall acc s acc' s',
  foldM (scanAny pz) l acc s = (Ok acc', s') ->
  s' = s /\ (forall X, In X l -> readable s X) /\ fst acc' <= fst acc /\
  (forall X n, In X l -> blankAt s X n -> fst acc' <= n) /\
  (acc' = acc \/
   (In (snd acc') l /\ blankAt s (snd acc') (fst acc') /\
    (fst acc' = fst acc -> purpleSq pz (snd acc')))) /\
  (forall Y, In Y l -> blankAt s Y (fst acc') -> purpleSq pz Y ->
     In (snd acc') l /\ blankAt s (snd acc') (fst acc') /\ purpleSq pz (snd acc')).
Proof.
  induction l as [|X t IH]; intros acc s acc' s' H; cbn [foldM] in H.
  - inversion H; subst. split; [reflexivity|]. split; [intros ? []|].
    split; [lia|]. split; [intros ? ? []|]. split; [left; reflexivity | intros ? []].
  - apply bind_Ok in H. destruct H as (acc1 & s1 & H1 & H2).
    apply scanAny_step in H1. destruct H1 as (-> & Hr & Hle & HminX & Hch & Hpur).
    apply IH in H2. destruct H2 as (-> & Hrt & Hle' & Hmin & Hch' & Hpur').
    split; [reflexivity|]. split; [intros Y [<-|HY]; auto|].
    split; [lia|]. split.
    { intros Y n [<-|HY] Hn; [specialize (HminX _ Hn); lia | eapply Hmin; eauto]. }
    assert (Hchosen : acc' = acc \/
      (In (snd acc') (X :: t) /\ blankAt s (snd acc') (fst acc') /\
       (fst acc' = fst acc -> purpleSq pz (snd acc')))).
    { destruct Hch' as [->|(Hin & Hb & Hp)].
      - destruct Hch as [->|(E & Hb & Hp)]; [left; reflexivity|].
        right. rewrite E. simpl. auto.
      - right. split; [right; assumption|]. split; [assumption|].
        intros E. apply Hp. lia. }
    split; [exact Hchosen|].
    intros Y [<-|HY] HbY HpY; [|destruct (Hpur' Y HY HbY HpY) as (? & ? & ?); simpl; auto].
    assert (E1 : fst acc1 = fst acc').
    { specialize (HminX _ HbY). lia. }
    pose proof (Hpur _ HbY HpY E1) as Eacc1.
    destruct Hch' as [->|(Hin & Hb & Hp)].
    + rewrite Eacc1. simpl. auto.
    + split; [right; assumption|]. split; [assumption|]. apply Hp. lia.
Qed.

(** The choice of lines 156-174, in its two phases. *)
Lemma selectCell_spec pz gl s mn X gl' s' :
  selectCell pz gl s = (Ok (mn, X, gl'), s') ->
  s' = s /\
  ((gl = true /\ gl' = true /\ mn < 100 /\
    exists l1 l2, concat (greys pz) = l1 ++ X :: l2 /\ blankAt s X mn /\
      (forall Y n, In Y l1 -> blankAt s Y n -> mn < n) /\
      (forall Y n, In Y l2 -> blankAt s Y n -> mn <= n)) \/
   (gl' = false /\
    (gl = true -> forall Y n, In Y (concat (greys pz)) -> blankAt s Y n -> 100 <= n) /\
    (forall Y, In Y (allSquares (M s)) -> readable s Y) /\
    (forall Y n, In Y (allSquares (M s)) -> blankAt s Y n -> mn <= n) /\
    mn <= 100 /\
    ((mn, X) = (100, (0, 0)) \/
     (In X (allSquares (M s)) /\ blankAt s X mn /\ (mn = 100 -> purpleSq pz X))) /\
    (forall Y, In Y (allSquares (M s)) -> blankAt s Y mn -> purpleSq pz Y ->
       In X (allSquares (M s)) /\ blankAt s X mn /\ purpleSq pz X))).
Proof.
  unfold selectCell. intros H.
  apply bind_Ok in H. destruct H as (acc1 & s1 & H1 & H).
  assert (Hphase2 : forall sa,
    fst acc1 = 100 -> snd acc1 = (0, 0) ->
    (acc2 <- (m <- get_M ;; foldM (scanAny pz) (allSquares m) acc1) ;;
     ret (acc2, false)) sa = (Ok (mn, X, gl'), s') ->
    s' = sa /\ gl' = false /\
    (forall Y, In Y (allSquares (M sa)) -> readable sa Y) /\
    (forall Y n, In Y (allSquares (M sa)) -> blankAt sa Y n -> mn <= n) /\
    mn <= 100 /\
    ((mn, X) = (100, (0, 0)) \/
     (In X (allSquares (M sa)) /\ blankAt sa X mn /\ (mn = 100 -> purpleSq pz X))) /\
    (forall Y, In Y (allSquares (M sa)) -> blankAt sa Y mn -> purpleSq pz Y ->
       In X (allSquares (M sa)) /\ blankAt sa X mn /\ purpleSq pz X)).
  { intros sa E100 E00 H2.
    apply bind_Ok in H2. destruct H2 as (acc2 & s2 & H2 & H3).
    rewrite bind_get_M in H2. apply scanAny_fold in H2.
    destruct H2 as (-> & Hr & Hle & Hmin & Hch & Hpur).
    inversion H3; subst. simpl in *.
    split; [reflexivity|]. split; [reflexivity|]. split; [assumption|].
    split; [assumption|]. split; [lia|]. split; [|assumption].
    destruct Hch as [<-|(Hin & Hb & Hp)].
    - left. simpl in E100, E00. rewrite E100, E00. reflexivity.
    - right. split; [assumption|]. split; [assumption|]. intros E. apply Hp. lia. }
  destruct gl.
  - apply scanGrey_fold in H1. destruct H1 as (-> & Hr & Hfold).
    destruct Hfold as [(-> & Hmin) | (l1 & l2 & Hl & Hb & Hlt & Hl1 & Hl2)].
    + cbn [fst andb Nat.eqb negb] in H.
      destruct (Hphase2 s eq_refl eq_refl H) as (-> & -> & Hrest).
      split; [reflexivity|]. right. split; [reflexivity|]. split; [|exact Hrest].
      intros _. exact Hmin.
    + simpl in Hlt. cbn [andb] in H.
      destruct (Nat.eqb_spec (fst acc1) 100) as [E|_]; [lia|]. cbn [negb] in H.
      inversion H; subst. simpl in *.
      split; [reflexivity|]. left. split; [reflexivity|]. split; [reflexivity|].
      split; [assumption|]. exists l1, l2. auto.
  - inversion H1; subst. cbn [andb negb] in H.
    destruct (Hphase2 _ eq_refl eq_refl H) as (-> & -> & Hrest).
    split; [reflexivity|]. right. split; [reflexivity|]. split; [|exact Hrest].
    intros E; discriminate.
Qed.

Lemma guess_Ok A (body : Z -> Py A) ks s a s' :
  guess body ks s = (Ok a, s') ->
  s' = s /\ exists k s'', In k ks /\ body k s = (Ok a, s'').
Proof.
  induction ks as [|k t IH]; cbn [guess]; intros H; [discriminate|].
  destruct (body k s) as [[x|[|]|] s1] eqn:E.
  - inversion H; subst. split; [reflexivity|]. exists k, s1. simpl; auto.
  - destruct (IH H) as (-> & k' & s'' & Hin & Hb).
    split; [reflexivity|]. exists k', s''. simpl; auto.
  - discriminate.
  - discriminate.
Qed.

(** A loop whose rounds each settle some squares settles them all. *)
Lemma forM_grow X (S : X -> coord -> Prop) (l : list X) (f : X -> Py unit)
    (I : (coord -> Prop) -> Board -> Prop) :
  (forall (D D' : coord -> Prop) s, (forall Z, D' Z -> D Z) -> I D s -> I D' s) ->
  (forall x D s s', In x l -> I D s -> f x s = (Ok tt, s') ->
     I (fun Z => D Z \/ S x Z) s') ->
  forall D s s', I D s -> forM_ l f s = (Ok tt, s') ->
    I (fun Z => D Z \/ exists x, In x l /\ S x Z) s'.
Proof.
  intros Hanti. induction l as [|x t IH]; intros Hstep D s s' HI H; cbn [forM_] in H.
  - inversion H; subst. eapply Hanti; [|exact HI]. intros Z [HZ|(x & [] & _)]; assumption.
  - apply bind_Ok in H. destruct H as ([] & s1 & H1 & H2).
    pose proof (Hstep x D s s1 (or_introl eq_refl) HI H1) as HI1.
    assert (Hstep' : forall x0 D0 s0 s0', In x0 t -> I D0 s0 -> f x0 s0 = (Ok tt, s0') ->
              I (fun Z => D0 Z \/ S x0 Z) s0').
    { intros; eapply Hstep; simpl; eauto. }
    pose proof (IH Hstep' _ _ _ HI1 H2) as HI2.
    eapply Hanti; [|exact HI2].
    intros Z [HZ|(x0 & [<-|Hin] & HS)]; [auto | auto | right; eauto].
Qed.

Lemma in_allSquares m Z : In Z (allSquares m) <-> fst Z < m /\ snd Z < m.
Proof.
  unfold allSquares. rewrite in_flat_map. split.
  - intros (i & Hi & HZ). apply in_map_iff in HZ. destruct HZ as (j & <- & Hj).
    apply in_seq in Hi, Hj. simpl. lia.
  - intros [H1 H2]. exists (fst Z). split; [apply in_seq; lia|].
    apply in_map_iff. exists (snd Z). split; [destruct Z; reflexivity | apply in_seq; lia].
Qed.

(** ** Invariants of the constructor and of the search

    [I D s] is a property of the numbers of board [s] on the settled
    squares [D]; it is kept when [addNumber] places a number. *)

Section Solver.

Variable pz : PuzzleModel.
Hypothesis Hwf : wf_grey pz.

Variable I : (coord -> Prop) -> Board -> Prop.
Hypothesis I_anti :
  forall (D D' : coord -> Prop) s, (forall Z, D' Z -> D Z) -> I D s -> I D' s.
Hypothesis I_val :
  forall D s s', (forall Z, val s' Z = val s Z) -> I D s -> I D s'.
Hypothesis I_blank :
  forall D s X, I D s -> val s X = Some 0%Z -> I (fun Z => D Z \/ Z = X) s.
Hypothesis I_place :
  forall D s s0 s' fuel key X0, key <> 0%Z -> I D s -> blanked s s0 X0 key ->
    addNumberLive pz fuel key (fst X0) (snd X0) s0 = (Ok tt, s') ->
    I (fun Z => D Z \/ Z = X0) s'.

Lemma init_cell fuel i j D s s' :
  I D s -> cands_ok s ->
  (key <- get_b i j ;;
   if negb (key =? 0)%Z then set_b i j 0%Z ;; addNumber pz fuel key i j
   else ret tt) s = (Ok tt, s') ->
  I (fun Z => D Z \/ Z = (i, j)) s' /\ M s' = M s /\ cands_ok s'.
Proof.
  intros HI Hc H. rewrite bind_get_b in H.
  destruct (grid_get (b s) i j) as [key|] eqn:Hv; [|discriminate].
  destruct (Z.eqb_spec key 0) as [->|Hk]; cbn [negb] in H.
  - inversion H; subst. split; [|split]; auto.
  - rewrite bind_set_b in H.
    destruct (grid_set (b s) i j 0%Z) as [g0|] eqn:Hg; [|discriminate].
    rewrite addNumber_live in H.
    destruct (val_after_set s (mkBoard g0 (M s) (p s)) (i, j) 0%Z g0 Hg eq_refl)
      as [Hz Hoth].
    assert (Hbl : blanked s (mkBoard g0 (M s) (p s)) (i, j) key).
    { split; [assumption|]. split; [assumption|]. right. exact Hv. }
    split; [eapply I_place; eauto|].
    apply addNumberLive_frame in H.
    destruct H as (HM & Hp & _). simpl in HM, Hp.
    split; [assumption | eapply cands_ok_shrinks; eauto].
Qed.

Lemma updatePossibilities_inv fuel D s s' :
  I D s -> cands_ok s ->
  updatePossibilities pz fuel s = (Ok tt, s') ->
  I (fun Z => D Z \/ In Z (allSquares (M s))) s' /\ M s' = M s /\ cands_ok s'.
Proof.
  intros HI Hc H. unfold updatePossibilities in H. rewrite bind_get_M in H.
  set (m := M s) in *.
  pose (I' := fun (D : coord -> Prop) (s : Board) => I D s /\ M s = m /\ cands_ok s).
  assert (Hanti' : forall (D D' : coord -> Prop) s0,
            (forall Z, D' Z -> D Z) -> I' D s0 -> I' D' s0).
  { intros D1 D2 s0 HD (H1 & H2 & H3). split; [eapply I_anti; eauto | auto]. }
  assert (Hres : I' (fun Z => D Z \/ exists i, In i (seq 0 m) /\
                     exists j, In j (seq 0 m) /\ Z = (i, j)) s').
  { eapply forM_grow with (I := I')
      (S := fun i Z => exists j, In j (seq 0 m) /\ Z = (i, j));
      [exact Hanti' | | | exact H].
    - intros i D1 s1 s1' _ HI1 Hrun.
      eapply forM_grow with (I := I') (S := fun j Z => Z = (i, j));
        [exact Hanti' | | exact HI1 | exact Hrun].
      intros j D2 s2 s2' _ (H1 & H2 & H3) Hcell.
      destruct (init_cell _ _ _ _ _ _ H1 H3 Hcell) as (Ha & Hb & Hd).
      split; [assumption|]. split; [congruence | assumption].
    - split; [assumption|]. split; [reflexivity | assumption]. }
  destruct Hres as (H1 & H2 & H3).
  split; [|split; assumption].
  eapply I_anti; [|exact H1].
  intros Z [HZ|HZ]; [left; assumption|]. right.
  apply in_allSquares in HZ. destruct HZ as [Hi Hj].
  exists (fst Z). split; [apply in_seq; lia|].
  exists (snd Z). split; [apply in_seq; lia | destruct Z; reflexivity].
Qed.

Lemma addNumber_keeps D fuel key r c s s' :
  key <> 0%Z -> I D s -> addNumberLive pz fuel key r c s = (Ok tt, s') -> I D s'.
Proof.
  intros Hk HI H.
  pose proof (addNumberLive_effect _ _ _ _ _ _ _ Hwf Hk H) as (_ & _ & Hcases).
  assert (Hblank : val s (r, c) = Some 0%Z -> I D s').
  { intros Hv. eapply I_anti with (D := fun Z => D Z \/ Z = (r, c)); [intros; auto|].
    eapply I_place with (s := s) (s0 := s); eauto.
    split; [reflexivity|]. split; [assumption|]. left; assumption. }
  destruct Hcases as [(Hv & Hb) | [(Hv & _) | (Hv & _)]]; auto.
  eapply I_val; [|exact HI]. intros Z. unfold val. rewrite Hb. reflexivity.
Qed.

Lemma recurse_inv D : forall fuel level gl s g s',
  I D s -> cands_ok s ->
  recurse pz fuel level gl s = (Ok g, s') ->
  exists sf, I D sf /\ cands_ok sf /\ M sf = M s /\ g = b sf /\
    forall X, In X (allSquares (M sf)) -> exists v, val sf X = Some v /\ v <> 0%Z.
Proof.
  induction fuel as [|n IH]; intros level gl s g s' HI Hc H; [discriminate|].
  cbn [recurse] in H.
  apply bind_Ok in H. destruct H as (u & s1 & Hcheck & H).
  apply check_Ok in Hcheck. subst s1.
  apply bind_Ok in H. destruct H as ([[mn X] gl'] & s2 & Hsel & H).
  apply selectCell_spec in Hsel. destruct Hsel as (-> & Hsel).
  destruct (Nat.eqb_spec mn 100) as [->|Hmn].
  - inversion H; subst. exists s'.
    split; [assumption|]. split; [assumption|]. split; [reflexivity|].
    split; [reflexivity|].
    destruct Hsel as [(_ & _ & Hlt & _) | (_ & _ & Hr & Hmin & _)]; [lia|].
    intros Y HY. destruct (Hr Y HY) as (v & Hv & Hb).
    exists v. split; [assumption|]. intros ->.
    destruct (Hb eq_refl) as (k & Hk).
    pose proof (Hmin _ _ HY Hk) as Hge.
    destruct Hk as (_ & set & Hset & <-).
    destruct (Hc _ _ _ Hset). lia.
  - rewrite bind_get_p in H.
    destruct (grid_get (p s) (fst X) (snd X)) as [ks|] eqn:Hks; [|discriminate].
    apply guess_Ok in H. destruct H as (-> & k & s'' & Hin & Hbody).
    apply bind_Ok in Hbody. destruct Hbody as ([] & sa & Hadd & Hrec).
    assert (Hk : k <> 0%Z).
    { intros ->. destruct (Hc _ _ _ Hks) as [H0 _]. contradiction. }
    rewrite addNumber_live in Hadd.
    pose proof (addNumber_keeps _ _ _ _ _ _ _ Hk HI Hadd) as HIa.
    pose proof (addNumberLive_effect _ _ _ _ _ _ _ Hwf Hk Hadd) as (HM & Hp & _).
    pose proof (cands_ok_shrinks _ _ Hc Hp) as Hca.
    destruct (IH _ _ _ _ _ HIa Hca Hrec) as (sf & H1 & H2 & H3 & H4 & H5).
    exists sf. split; [assumption|]. split; [assumption|]. split; [congruence|].
    split; assumption.
Qed.

End Solver.

(** ** The lookup tables built from the lines *)

Lemma NoDup_app_disjoint A (l1 l2 : list A) x :
  NoDup (l1 ++ l2) -> In x l1 -> In x l2 -> False.
Proof.
  induction l1 as [|a t IH]; simpl; intros Hnd H1 H2; [contradiction|].
  inversion Hnd; subst. destruct H1 as [->|H1].
  - apply H3. apply in_or_app; auto.
  - eapply IH; eauto.
Qed.

Lemma list_set_readable A (l : list A) i v l' :
  list_set l i v = Some l' -> exists x, nth_error l i = Some x.
Proof.
  revert i l'; induction l as [|y t IH]; intros [|i] l' H; simpl in *; try discriminate; eauto.
  destruct (list_set t i v) eqn:E; [|discriminate]. eauto.
Qed.

Lemma grid_set_readable A (g : grid A) r c v g' :
  grid_set g r c v = Some g' -> exists x, grid_get g r c = Some x.
Proof.
  unfold grid_set, grid_get. intros H.
  destruct (nth_error g r) as [row|]; [|discriminate].
  destruct (list_set row c v) as [row'|] eqn:E; [|discriminate].
  eapply list_set_readable; eauto.
Qed.

Lemma grid_get_zeros r c v : grid_get zeros r c = Some v -> v = 0.
Proof.
  unfold grid_get, zeros. intros H.
  destruct (nth_error (repeat (repeat 0 9) 9) r) as [row|] eqn:Er; [|discriminate].
  apply nth_error_In, repeat_spec in Er. subst row.
  apply nth_error_In, repeat_spec in H. assumption.
Qed.

Lemma markGrey_spec i : forall line j tabs tabs',
  markGrey i j line tabs = Some tabs' -> NoDup line ->
  (forall k X, nth_error line k = Some X ->
     grid_get (fst tabs') (fst X) (snd X) = Some (i + 1) /\
     grid_get (snd tabs') (fst X) (snd X) = Some (j + k)) /\
  (forall X, ~ In X line ->
     grid_get (fst tabs') (fst X) (snd X) = grid_get (fst tabs) (fst X) (snd X) /\
     grid_get (snd tabs') (fst X) (snd X) = grid_get (snd tabs) (fst X) (snd X)).
Proof.
  induction line as [|[row col] t IH]; intros j tabs tabs' H Hnd; cbn [markGrey] in H.
  - inversion H; subst. split; [intros [|k] X E; discriminate | auto].
  - destruct (grid_set (fst tabs) row col (i + 1)) as [gb|] eqn:Eb; [|discriminate].
    destruct (grid_set (snd tabs) row col j) as [gi|] eqn:Ei; [|discriminate].
    inversion Hnd; subst.
    destruct (IH _ _ _ H H3) as [Hin Hout]. simpl in Hout.
    split.
    + intros [|k] X E; simpl in E.
      * inversion E; subst X.
        destruct (Hout (row, col) H2) as [-> ->]. simpl.
        rewrite Nat.add_0_r. split; eapply grid_get_set_same; eauto.
      * destruct (Hin _ _ E) as [Ha Hb]. split; [assumption|].
        rewrite Hb. f_equal. lia.
    + intros [xr xc] HX. simpl in HX.
      destruct (Hout (xr, xc)) as [-> ->]; [tauto|]. simpl.
      assert ((xr, xc) <> (row, col)) by (intros E; apply HX; auto).
      split; eapply grid_get_set_other; eauto.
Qed.

Lemma markGreys_spec : forall lines i tabs tabs',
  markGreys i lines tabs = Some tabs' -> NoDup (concat lines) ->
  (forall n line k X, nth_error lines n = Some line -> nth_error line k = Some X ->
     grid_get (fst tabs') (fst X) (snd X) = Some (i + n + 1) /\
     grid_get (snd tabs') (fst X) (snd X) = Some k) /\
  (forall X, ~ In X (concat lines) ->
     grid_get (fst tabs') (fst X) (snd X) = grid_get (fst tabs) (fst X) (snd X) /\
     grid_get (snd tabs') (fst X) (snd X) = grid_get (snd tabs) (fst X) (snd X)).
Proof.
  induction lines as [|line t IH]; intros i tabs tabs' H Hnd; cbn [markGreys] in H.
  - inversion H; subst. split; [intros [|n] line k X E; discriminate | auto].
  - destruct (markGrey i 0 line tabs) as [tabs1|] eqn:E1; [|discriminate].
    simpl in Hnd.
    pose proof (NoDup_app_remove_r _ _ Hnd) as Hnd1.
    pose proof (NoDup_app_remove_l _ _ Hnd) as Hnd2.
    destruct (markGrey_spec _ _ _ _ _ E1 Hnd1) as [Hin1 Hout1].
    destruct (IH _ _ _ H Hnd2) as [Hin Hout].
    split.
    + intros [|n] line' k X En Ek; simpl in En.
      * inversion En; subst line'.
        assert (HX : ~ In X (concat t)).
        { intros HX. eapply NoDup_app_disjoint; eauto. eapply nth_error_In; eauto. }
        destruct (Hout _ HX) as [-> ->]. destruct (Hin1 _ _ Ek) as [Ha Hb].
        rewrite Ha, Hb. split; f_equal; lia.
      * destruct (Hin _ _ _ _ En Ek) as [Ha Hb]. rewrite Ha, Hb. split; f_equal; lia.
    + intros X HX. simpl in HX.
      destruct (Hout X) as [-> ->]; [intros ?; apply HX, in_or_app; auto|].
      apply Hout1. intros ?; apply HX, in_or_app; auto.
Qed.

Lemma markPurple_spec i : forall line tab tab',
  markPurple i line tab = Some tab' ->
  (forall X, In X line -> grid_get tab' (fst X) (snd X) = Some (i + 1)) /\
  (forall X, ~ In X line -> grid_get tab' (fst X) (snd X) = grid_get tab (fst X) (snd X)) /\
  (forall X, In X line -> exists x, grid_get tab (fst X) (snd X) = Some x).
Proof.
  induction line as [|[row col] t IH]; intros tab tab' H; cbn [markPurple] in H.
  - inversion H; subst. split; [intros ? [] | split; [auto | intros ? []]].
  - destruct (grid_set tab row col (i + 1)) as [tab1|] eqn:E1; [|discriminate].
    destruct (IH _ _ H) as (Hin & Hout & Hrd).
    split; [|split].
    + intros X HX. destruct (in_dec coord_eq_dec X t) as [Ht|Ht]; [auto|].
      destruct HX as [<-|HX]; [|contradiction].
      rewrite (Hout _ Ht). simpl. eapply grid_get_set_same; eauto.
    + intros [xr xc] HX. simpl in HX.
      rewrite (Hout (xr, xc)) by tauto. simpl.
      eapply grid_get_set_other; eauto.
    + intros X [<-|HX].
      * simpl. eapply grid_set_readable; eauto.
      * destruct (Hrd _ HX) as [x Hx].
        destruct (coord_eq_dec X (row, col)) as [->|Hne].
        -- simpl. eapply grid_set_readable; eauto.
        -- destruct X as [xr xc]. simpl in *.
           erewrite grid_get_set_other in Hx by eauto. eauto.
Qed.

Lemma markPurples_spec : forall lines i tab tab',
  markPurples i lines tab = Some tab' -> NoDup (concat lines) ->
  (forall n line X, nth_error lines n = Some line -> In X line ->
     grid_get tab' (fst X) (snd X) = Some (i + n + 1)) /\
  (forall X, ~ In X (concat lines) ->
     grid_get tab' (fst X) (snd X) = grid_get tab (fst X) (snd X)) /\
  (forall X, In X (concat lines) -> exists x, grid_get tab (fst X) (snd X) = Some x).
Proof.
  induction lines as [|line t IH]; intros i tab tab' H Hnd; cbn [markPurples] in H.
  - inversion H; subst.
    split; [intros [|n] line X E; discriminate | split; [auto | intros ? []]].
  - destruct (markPurple i line tab) as [tab1|] eqn:E1; [|discriminate].
    simpl in Hnd.
    pose proof (NoDup_app_remove_l _ _ Hnd) as Hnd2.
    destruct (markPurple_spec _ _ _ _ E1) as (Hin1 & Hout1 & Hrd1).
    destruct (IH _ _ _ H Hnd2) as (Hin & Hout & Hrd).
    split; [|split].
    + intros [|n] line' X En HX; simpl in En.
      * inversion En; subst line'.
        assert (HXt : ~ In X (concat t)).
        { intros HXt. eapply NoDup_app_disjoint; eauto. }
        rewrite (Hout _ HXt), (Hin1 _ HX). f_equal; lia.
      * rewrite (Hin _ _ _ En HX). f_equal; lia.
    + intros X HX. simpl in HX.
      rewrite Hout by (intros ?; apply HX, in_or_app; auto).
      apply Hout1. intros ?; apply HX, in_or_app; auto.
    + intros X HX. simpl in HX. apply in_app_or in HX. destruct HX as [HX|HX]; [auto|].
      destruct (Hrd _ HX) as [x Hx].
      destruct (in_dec coord_eq_dec X line) as [Hl|Hl]; [auto|].
      rewrite (Hout1 _ Hl) in Hx. eauto.
Qed.

Lemma grid_set_domain A (g : grid A) r c v g' r' c' :
  grid_set g r c v = Some g' -> grid_get g' r' c' <> None -> grid_get g r' c' <> None.
Proof.
  intros H Hr. destruct (coord_eq_dec (r', c') (r, c)) as [E|E].
  - inversion E; subst. destruct (grid_set_readable _ _ _ _ _ _ H) as [x ->]. discriminate.
  - erewrite <- grid_get_set_other; eauto.
Qed.

Lemma markGrey_domain i : forall line j tabs tabs' r c,
  markGrey i j line tabs = Some tabs' ->
  grid_get (fst tabs') r c <> None -> grid_get (fst tabs) r c <> None.
Proof.
  induction line as [|[row col] t IH]; intros j tabs tabs' r c H Hr; cbn [markGrey] in H.
  - inversion H; subst; assumption.
  - destruct (grid_set (fst tabs) row col (i + 1)) as [gb|] eqn:Eb; [|discriminate].
    destruct (grid_set (snd tabs) row col j) as [gi|] eqn:Ei; [|discriminate].
    eapply grid_set_domain; eauto. eapply (IH _ _ _ _ _ H) in Hr. exact Hr.
Qed.

Lemma markGreys_domain : forall lines i tabs tabs' r c,
  markGreys i lines tabs = Some tabs' ->
  grid_get (fst tabs') r c <> None -> grid_get (fst tabs) r c <> None.
Proof.
  induction lines as [|line t IH]; intros i tabs tabs' r c H Hr; cbn [markGreys] in H.
  - inversion H; subst; assumption.
  - destruct (markGrey i 0 line tabs) as [tabs1|] eqn:E1; [|discriminate].
    eapply markGrey_domain; eauto.
Qed.

Lemma zeros_domain r c : grid_get zeros r c <> None -> In (r, c) (allSquares 9).
Proof.
  intros H. apply in_allSquares. simpl. unfold grid_get, zeros in H.
  destruct (nth_error (repeat (repeat 0 9) 9) r) as [row|] eqn:Er; [|contradiction].
  assert (Hr : r < 9).
  { assert (E : nth_error (repeat (repeat 0 9) 9) r <> None) by congruence.
    apply nth_error_Some in E. rewrite repeat_length in E. assumption. }
  apply nth_error_In, repeat_spec in Er. subst row.
  apply nth_error_Some in H. rewrite repeat_length in H. auto.
Qed.

Lemma py_index_mirror A (l : list A) k :
  k < length l ->
  py_index l (Z.of_nat (length l) - Z.of_nat k - 1) = nth_error l (length l - 1 - k).
Proof.
  intros Hk. unfold py_index.
  destruct (Z.leb_spec 0 (Z.of_nat (length l) - Z.of_nat k - 1)); [|lia].
  f_equal. lia.
Qed.

(** Grey lines without a repeated square give tables that mirror back and
    forth, and every square of a line is sent to its mirror square. *)
Lemma readInput_grey greyLines purpleLines pz :
  readInput greyLines purpleLines = Some pz -> NoDup (concat greyLines) ->
  wf_grey pz /\
  forall n line k X Y, nth_error greyLines n = Some line ->
    nth_error line k = Some X -> nth_error line (length line - 1 - k) = Some Y ->
    mirrorAt pz X Y /\ In X (allSquares 9).
Proof.
  unfold readInput. intros H Hnd.
  destruct (markGreys 0 greyLines (zeros, zeros)) as [[gb gi]|] eqn:EG; [|discriminate].
  destruct (markPurples 0 purpleLines zeros) as [pb|] eqn:EP; [|discriminate].
  inversion H; subst pz; clear H.
  destruct (markGreys_spec _ _ _ _ EG Hnd) as [F1 F2]. simpl in F1, F2.
  assert (Hfwd : forall n line k X Y, nth_error greyLines n = Some line ->
    nth_error line k = Some X -> nth_error line (length line - 1 - k) = Some Y ->
    mirrorAt (mkPuzzleModel gb gi pb greyLines (map (nodup coord_eq_dec) purpleLines)) X Y
    /\ In X (allSquares 9)).
  { intros n line k X Y En Ek EY. destruct (F1 _ _ _ _ En Ek) as [Ha Hb]. split.
    - exists (n + 1), line, k. simpl.
      split; [assumption|]. split; [lia|].
      split; [replace (n + 1 - 1) with n by lia; assumption|].
      split; [assumption|].
      rewrite py_index_mirror; [assumption|].
      apply nth_error_Some. congruence.
    - destruct X as [xr xc]. apply zeros_domain.
      apply (markGreys_domain _ _ _ _ xr xc EG). simpl in *. congruence. }
  split; [|exact Hfwd].
  intros X Y (g & line & k & H1 & Hg & H3 & H4 & H5). simpl in H1, H3, H4, H5.
  assert (HX : In X (concat greyLines)).
  { destruct (in_dec coord_eq_dec X (concat greyLines)) as [|Hn]; [assumption|].
    destruct (F2 _ Hn) as [E _]. rewrite E in H1. apply grid_get_zeros in H1. contradiction. }
  apply in_concat in HX. destruct HX as (line' & Hl & HXl).
  apply In_nth_error in Hl, HXl. destruct Hl as [n En], HXl as [k' Ek'].
  destruct (F1 _ _ _ _ En Ek') as [Ha Hb].
  rewrite Ha in H1. inversion H1; subst g.
  replace (n + 1 - 1) with n in H3 by lia.
  rewrite En in H3. inversion H3; subst line'.
  rewrite Hb in H4. inversion H4; subst k'.
  assert (Hk : k < length line) by (apply nth_error_Some; congruence).
  rewrite py_index_mirror in H5 by assumption.
  apply (Hfwd n line (length line - 1 - k) Y X En H5).
  replace (length line - 1 - (length line - 1 - k)) with k by lia. assumption.
Qed.

Lemma map_nodup_id (lines : list (list coord)) :
  NoDup (concat lines) -> map (nodup coord_eq_dec) lines = lines.
Proof.
  induction lines as [|l t IH]; simpl; intros H; [reflexivity|].
  rewrite (nodup_fixed_point coord_eq_dec (NoDup_app_remove_r _ _ H)).
  rewrite (IH (NoDup_app_remove_l _ _ H)). reflexivity.
Qed.

(** Lines without a repeated or shared square give tables that agree on
    the purple lines. *)
Lemma readInput_purple greyLines purpleLines pz :
  readInput greyLines purpleLines = Some pz ->
  NoDup (concat greyLines ++ concat purpleLines) ->
  wf_purple pz /\
  forall n line X, nth_error purpleLines n = Some line -> In X line ->
    purpleAt pz X line /\ In X (allSquares 9).
Proof.
  unfold readInput. intros H Hnd.
  pose proof (NoDup_app_remove_r _ _ Hnd) as HndG.
  pose proof (NoDup_app_remove_l _ _ Hnd) as HndP.
  destruct (markGreys 0 greyLines (zeros, zeros)) as [[gb gi]|] eqn:EG; [|discriminate].
  destruct (markPurples 0 purpleLines zeros) as [pb|] eqn:EP; [|discriminate].
  inversion H; subst pz; clear H.
  rewrite (map_nodup_id _ HndP).
  destruct (markGreys_spec _ _ _ _ EG HndG) as [_ F2]. simpl in F2.
  destruct (markPurples_spec _ _ _ _ EP HndP) as (P1 & P2 & P3). simpl in P1.
  assert (Hfwd : forall n line X, nth_error purpleLines n = Some line -> In X line ->
    purpleAt (mkPuzzleModel gb gi pb greyLines purpleLines) X line /\
    In X (allSquares 9)).
  { intros n line X En HX.
    assert (HXc : In X (concat purpleLines)).
    { apply in_concat. exists line. split; [eapply nth_error_In; eauto | assumption]. }
    destruct (P3 _ HXc) as [x Hx].
    split.
    - split; simpl.
      + destruct (F2 X) as [E _].
        { intros HXg. eapply NoDup_app_disjoint; eauto. }
        rewrite E, Hx. f_equal. eapply grid_get_zeros; eauto.
      + exists (n + 1). split; [apply (P1 _ _ _ En HX)|]. split; [lia|].
        replace (n + 1 - 1) with n by lia. assumption.
    - destruct X as [xr xc]. apply zeros_domain. simpl in Hx. congruence. }
  split.
  - intros X line (_ & pu & H1 & Hpu & H2). simpl in H1, H2.
    assert (HX : In X (concat purpleLines)).
    { destruct (in_dec coord_eq_dec X (concat purpleLines)) as [|Hn]; [assumption|].
      rewrite (P2 _ Hn) in H1. apply grid_get_zeros in H1. contradiction. }
    apply in_concat in HX. destruct HX as (line' & Hl & HXl).
    apply In_nth_error in Hl. destruct Hl as [n En].
    rewrite (P1 _ _ _ En HXl) in H1. inversion H1; subst pu.
    replace (n + 1 - 1) with n in H2 by lia.
    rewrite En in H2. inversion H2; subst line'.
    split; [assumption|]. intros Y HY. apply (Hfwd n line Y En HY).
  - exact Hfwd.
Qed.

(** ** The two line invariants as instances *)

Lemma mirror_ok_anti pz (D D' : coord -> Prop) s :
  (forall Z, D' Z -> D Z) -> mirror_ok pz D s -> mirror_ok pz D' s.
Proof. intros HD H X Y v HX. apply H. auto. Qed.

Lemma mirror_ok_val pz D s s' :
  (forall Z, val s' Z = val s Z) -> mirror_ok pz D s -> mirror_ok pz D s'.
Proof. intros E H X Y v HX Hm. rewrite !E. apply H; assumption. Qed.

Lemma mirror_ok_blank pz D s X :
  mirror_ok pz D s -> val s X = Some 0%Z -> mirror_ok pz (fun Z => D Z \/ Z = X) s.
Proof.
  intros H HX X' Y v [HD| ->] Hm Hv Hnz; [eapply H; eauto | congruence].
Qed.

Lemma purple_ok_anti pz (D D' : coord -> Prop) s :
  (forall Z, D' Z -> D Z) -> purple_ok pz D s -> purple_ok pz D' s.
Proof. intros HD H X line Y v w HX. apply H. auto. Qed.

Lemma purple_ok_val pz D s s' :
  (forall Z, val s' Z = val s Z) -> purple_ok pz D s -> purple_ok pz D s'.
Proof. intros E H X line Y v w HX Hl HY Hne. rewrite !E. apply H; assumption. Qed.

Lemma purple_ok_blank pz D s X :
  purple_ok pz D s -> val s X = Some 0%Z -> purple_ok pz (fun Z => D Z \/ Z = X) s.
Proof.
  intros H HX X' line Y v w [HD| ->] Hl HY Hne Hv Hnz; [eapply H; eauto | congruence].
Qed.

Lemma cands_ok_newBoard board : length board = 9 -> cands_ok (newBoard board).
Proof.
  intros H9 r c set Hset. unfold newBoard in Hset. cbv zeta in Hset. cbn [p] in Hset.
  rewrite H9 in Hset.
  unfold grid_get in Hset.
  destruct (nth_error _ r) as [row|] eqn:Er; [|discriminate].
  apply nth_error_In, repeat_spec in Er. subst row.
  apply nth_error_In, repeat_spec in Hset. subst set.
  split; [intros H0; apply In_rangeZ in H0; lia | vm_compute; lia].
Qed.

(** The run of [solve] after the tables are built: an invariant that holds
    before the clues are placed holds, on all 81 squares, on the board whose
    numbers are returned, and that board has no blank square. *)
Lemma run_inv pz (I : (coord -> Prop) -> Board -> Prop) fuel board g :
  wf_grey pz ->
  (forall (D D' : coord -> Prop) s, (forall Z, D' Z -> D Z) -> I D s -> I D' s) ->
  (forall D s s', (forall Z, val s' Z = val s Z) -> I D s -> I D s') ->
  (forall D s X, I D s -> val s X = Some 0%Z -> I (fun Z => D Z \/ Z = X) s) ->
  (forall D s s0 s' fuel key X0, key <> 0%Z -> I D s -> blanked s s0 X0 key ->
     addNumberLive pz fuel key (fst X0) (snd X0) s0 = (Ok tt, s') ->
     I (fun Z => D Z \/ Z = X0) s') ->
  length board = 9 -> I (fun _ => False) (newBoard board) ->
  match updatePossibilities pz fuel (newBoard board) with
  | (Ok _, s) => fst (recurse pz fuel 0 true s)
  | (Raise e, _) => Raise e
  | (OutOfFuel, _) => OutOfFuel
  end = Ok g ->
  exists sf, I (fun Z => In Z (allSquares 9)) sf /\ g = b sf /\
    forall X, In X (allSquares 9) -> exists v, val sf X = Some v /\ v <> 0%Z.
Proof.
  intros Hwf Hanti Hval Hblank Hplace H9 HI0 H.
  destruct (updatePossibilities pz fuel (newBoard board)) as [[[]|e|] s0] eqn:EU;
    try discriminate.
  destruct (updatePossibilities_inv pz I Hanti Hblank Hplace fuel _ _ _
              HI0 (cands_ok_newBoard _ H9) EU) as (HI1 & HM & Hc).
  assert (HM9 : M s0 = 9) by (rewrite HM; exact H9).
  assert (HI2 : I (fun Z => In Z (allSquares 9)) s0).
  { eapply Hanti; [|exact HI1]. intros Z HZ. right.
    change (M (newBoard board)) with (length board). rewrite H9. assumption. }
  destruct (recurse pz fuel 0 true s0) as [o s'] eqn:ER. simpl in H. subst o.
  destruct (recurse_inv pz Hwf I Hanti Hval Hplace _ _ _ _ _ _ _ HI2 Hc ER)
    as (sf & H1 & H2 & H3 & H4 & H5).
  exists sf. split; [assumption|]. split; [assumption|].
  rewrite H3, HM9 in H5. assumption.
Qed.

(** C6: when the board has 9 rows and no square occurs twice in the grey
    lines, every grid returned by [solve] has the same number, not 0, on the
    squares at index [i] and [L - 1 - i] of every grey line; and [addNumber]
    on a blank square of a grey line puts the number on that square and on
    its mirror square and nowhere else (for the middle square of a line of
    odd length the two are one square). *)
Theorem solve_mirror_lines fuel board greyLines purpleLines g n line i X Y :
  length board = 9 -> NoDup (concat greyLines) ->
  solve fuel board greyLines purpleLines = Ok g ->
  nth_error greyLines n = Some line ->
  nth_error line i = Some X -> nth_error line (length line - 1 - i) = Some Y ->
  (exists v, v <> 0%Z /\
     grid_get g (fst X) (snd X) = Some v /\ grid_get g (fst Y) (snd Y) = Some v) /\
  (forall pz fuel' key s s',
     readInput greyLines purpleLines = Some pz -> key <> 0%Z ->
     val s X = Some 0%Z ->
     addNumber pz fuel' key (fst X) (snd X) s = (Ok tt, s') ->
     val s' X = Some key /\ val s' Y = Some key /\
     forall Z, Z <> X -> Z <> Y -> val s' Z = val s Z).
Proof.
  intros H9 Hnd Hsolve En Ei EY. split.
  - unfold solve in Hsolve.
    destruct (readInput greyLines purpleLines) as [pz|] eqn:ER; [|discriminate].
    destruct (readInput_grey _ _ _ ER Hnd) as [Hwf Hfwd].
    destruct (Hfwd _ _ _ _ _ En Ei EY) as [Hmir HX].
    destruct (run_inv pz (mirror_ok pz) fuel board g Hwf
                (mirror_ok_anti pz) (mirror_ok_val pz) (mirror_ok_blank pz)
                (fun D s s0 s' fuel key X0 Hk HI Hb Hrun =>
                   place_mirror pz D s s0 s' fuel key X0 Hwf Hk HI Hb Hrun)
                H9) as (sf & Hok & -> & Hfull); [intros ? ? ? [] | exact Hsolve |].
    destruct (Hfull _ HX) as (v & Hv & Hnz).
    exists v. split; [assumption|]. split; [exact Hv|].
    exact (Hok X Y v HX Hmir Hv Hnz).
  - intros pz fuel' key s s' ER Hk Hv Hrun.
    destruct (readInput_grey _ _ _ ER Hnd) as [Hwf Hfwd].
    destruct (Hfwd _ _ _ _ _ En Ei EY) as [Hmir HX].
    rewrite addNumber_live in Hrun. destruct X as [r c]. simpl in Hrun.
    apply addNumberLive_effect in Hrun; [|assumption|assumption].
    destruct Hrun as (_ & _ & [(Hkey & _) |
      [(_ & Y0 & Hm0 & _ & Hset & Hrest) | (_ & Hgr & _)]]).
    + congruence.
    + assert (Y0 = Y) by (eapply mirrorAt_fun; eauto). subst Y0.
      split; [apply Hset; auto|]. split; [apply Hset; auto | exact Hrest].
    + exfalso. eapply mirrorAt_grey; eauto.
Qed.

(** ** Numbers that are pairwise apart are consecutive *)

Lemma length_rangeZ lo hi : length (rangeZ lo hi) = Z.to_nat (hi - lo).
Proof. unfold rangeZ. rewrite length_map, length_seq. reflexivity. Qed.

Lemma exists_min (l : list Z) :
  l <> [] -> exists m, In m l /\ forall v, In v l -> (m <= v)%Z.
Proof.
  induction l as [|a t IH]; intros Hne; [contradiction|].
  destruct t as [|a' t'].
  - exists a. split; [simpl; auto|]. intros v [<-|[]]. lia.
  - destruct IH as (m & Hm & Hmin); [discriminate|].
    destruct (Z.le_gt_cases a m).
    + exists a. split; [simpl; auto|].
      intros v [<-|Hv]; [lia | specialize (Hmin _ Hv); lia].
    + exists m. split; [right; assumption|].
      intros v [<-|Hv]; [lia | auto].
Qed.

Lemma apart_consecutive (vals : list Z) :
  NoDup vals ->
  (forall v w, In v vals -> In w vals -> v <> w ->
     apart (Z.of_nat (length vals)) v w) ->
  exists m, Permutation vals (rangeZ m (m + Z.of_nat (length vals))).
Proof.
  intros Hnd Hap. destruct vals as [|a t].
  - exists 0%Z. apply Permutation_refl.
  - destruct (exists_min (a :: t)) as (m & Hm & Hmin); [discriminate|].
    exists m. apply NoDup_Permutation_bis; [assumption | |].
    + rewrite length_rangeZ. lia.
    + intros v Hv. apply In_rangeZ.
      pose proof (Hmin _ Hv) as Hle.
      destruct (Z.eq_dec m v) as [<-|Hne]; [cbn [length]; lia|].
      destruct (Hap m v Hm Hv Hne) as [_ Hwin]. lia.
Qed.

Lemma NoDup_map_on A B (f : A -> B) (l : list A) :
  NoDup l -> (forall x y, In x l -> In y l -> x <> y -> f x <> f y) ->
  NoDup (map f l).
Proof.
  induction 1 as [|a t Ha Hnd IH]; intros Hf; simpl; constructor.
  - intros Hin. apply in_map_iff in Hin. destruct Hin as (y & Hy & Hyt).
    apply (Hf y a); simpl; auto. intros ->. contradiction.
  - apply IH. intros; apply Hf; simpl; auto.
Qed.

(** C5: when the board has 9 rows and no square occurs twice in the lines,
    the numbers that a grid returned by [solve] has on a purple line of
    length [L] are pairwise distinct and are, in some order, the
    consecutive integers [m], [m + 1], ..., [m + L - 1] for some [m]. *)
Theorem solve_purple_lines fuel board greyLines purpleLines g n line :
  length board = 9 -> NoDup (concat greyLines ++ concat purpleLines) ->
  solve fuel board greyLines purpleLines = Ok g ->
  nth_error purpleLines n = Some line ->
  exists vals m,
    Forall2 (fun X v => grid_get g (fst X) (snd X) = Some v) line vals /\
    NoDup vals /\
    Permutation vals (rangeZ m (m + Z.of_nat (length line))).
Proof.
  intros H9 Hnd Hsolve En.
  pose proof (NoDup_app_remove_r _ _ Hnd) as HndG.
  unfold solve in Hsolve.
  destruct (readInput greyLines purpleLines) as [pz|] eqn:ER; [|discriminate].
  destruct (readInput_grey _ _ _ ER HndG) as [Hwf _].
  destruct (readInput_purple _ _ _ ER Hnd) as [Hwp Hfwd].
  destruct (run_inv pz (purple_ok pz) fuel board g Hwf
              (purple_ok_anti pz) (purple_ok_val pz) (purple_ok_blank pz)
              (fun D s s0 s' fuel key X0 Hk HI Hb Hrun =>
                 place_purple pz D s s0 s' fuel key X0 Hwf Hwp Hk HI Hb Hrun)
              H9) as (sf & Hok & -> & Hfull);
    [intros ? ? ? ? ? [] | exact Hsolve |].
  assert (HndL : NoDup line).
  { pose proof (NoDup_app_remove_l _ _ Hnd) as HndP.
    apply nth_error_split in En. destruct En as (l1 & l2 & -> & _).
    rewrite concat_app in HndP. apply NoDup_app_remove_l in HndP.
    simpl in HndP. apply NoDup_app_remove_r in HndP. assumption. }
  set (f := fun X => match val sf X with Some v => v | None => 0%Z end).
  assert (Hf : forall X, In X line -> val sf X = Some (f X) /\ f X <> 0%Z).
  { intros X HX. destruct (Hfwd _ _ _ En HX) as [_ HXin].
    destruct (Hfull _ HXin) as (v & Hv & Hnz). unfold f. rewrite Hv. auto. }
  assert (Hap : forall X Y, In X line -> In Y line -> X <> Y ->
            apart (Z.of_nat (length line)) (f X) (f Y)).
  { intros X Y HX HY Hne.
    destruct (Hfwd _ _ _ En HX) as [Hline HXin].
    destruct (Hf _ HX) as [HvX HnzX]. destruct (Hf _ HY) as [HvY HnzY].
    apply (Hok X line Y (f X) (f Y)); auto. }
  assert (HndV : NoDup (map f line)).
  { apply NoDup_map_on; [assumption|]. intros X Y HX HY Hne.
    destruct (Hap X Y HX HY Hne) as [Hd _]. assumption. }
  destruct (apart_consecutive (map f line) HndV) as [m Hm].
  { intros v w Hv Hw Hne. apply in_map_iff in Hv, Hw.
    destruct Hv as (X & <- & HX), Hw as (Y & <- & HY).
    rewrite length_map. apply Hap; auto. intros ->. contradiction. }
  rewrite length_map in Hm.
  exists (map f line), m. split; [|split; assumption].
  clear - Hf. induction line as [|X t IH]; simpl; constructor.
  - apply (Hf X). simpl; auto.
  - apply IH. intros; apply Hf; simpl; auto.
Qed.

(** ** The search nodes *)

Lemma updatePossibilities_frame pz fuel s s' :
  updatePossibilities pz fuel s = (Ok tt, s') ->
  M s' = M s /\ shrinks (p s) (p s').
Proof.
  unfold updatePossibilities. rewrite bind_get_M. intros H.
  eapply forM_keeps with (I := fun s1 => M s1 = M s /\ shrinks (p s) (p s1));
    [ | split; [reflexivity | apply shrinks_refl] | exact H].
  intros i s1 s2 _ Hs1 Hrow. cbv beta in Hrow.
  eapply forM_keeps with (I := fun s1 => M s1 = M s /\ shrinks (p s) (p s1));
    [ | exact Hs1 | exact Hrow].
  intros j s3 s4 _ [HM Hp] Hcell. cbv beta in Hcell.
  rewrite bind_get_b in Hcell.
  destruct (grid_get (b s3) i j) as [key|]; [|discriminate].
  destruct (negb (key =? 0)%Z).
  - rewrite bind_set_b in Hcell.
    destruct (grid_set (b s3) i j 0%Z) as [g0|]; [|discriminate].
    rewrite addNumber_live in Hcell.
    apply addNumberLive_frame in Hcell. simpl in Hcell.
    destruct Hcell as (HM' & Hp' & _ & _).
    split; [congruence | eapply shrinks_trans; eauto].
  - inversion Hcell; subst. auto.
Qed.

Lemma blankAt_back s s' Y n :
  shrinks (p s) (p s') -> (forall Z, val s' Z = Some 0%Z -> val s Z = Some 0%Z) ->
  blankAt s' Y n -> exists n', blankAt s Y n'.
Proof.
  intros [Hp _] Hz (Hv & set' & Hset' & _).
  destruct (Hp _ _ _ Hset') as (set & Hset & _).
  exists (length set). split; [auto | eauto].
Qed.

Lemma blankAt_small s Y n : cands_ok s -> blankAt s Y n -> n < 100.
Proof. intros Hc (_ & set & Hset & <-). destruct (Hc _ _ _ Hset). assumption. Qed.

(** *** The squares stay readable *)

Lemma newBoard_p board r c :
  length board = 9 -> r < 9 -> c < 9 ->
  grid_get (p (newBoard board)) r c = Some (rangeZ 1 10).
Proof.
  intros H9 Hr Hc. unfold newBoard. cbv zeta. cbn [p]. rewrite H9.
  unfold grid_get. rewrite nth_error_repeat by assumption.
  rewrite nth_error_repeat by assumption. reflexivity.
Qed.

Lemma dom_ok_step pz fuel key r c s s' :
  dom_ok s -> addNumberLive pz fuel key r c s = (Ok tt, s') -> dom_ok s'.
Proof.
  intros Hd H. apply addNumberLive_frame in H. destruct H as (_ & [_ Hp] & _ & Hf).
  intros X HX. destruct (Hd X HX) as [[v Hv] [set Hset]]. split; eauto.
Qed.

Lemma dom_ok_root pz fuel board s :
  length board = 9 ->
  updatePossibilities pz fuel (newBoard board) = (Ok tt, s) -> dom_ok s.
Proof.
  intros H9 H.
  pose (I := fun (D : coord -> Prop) (s : Board) =>
               forall X, D X -> exists v, val s X = Some v).
  assert (HI : I (fun Z => False \/ In Z (allSquares (M (newBoard board)))) s).
  { eapply (updatePossibilities_inv pz I) with (D := fun _ => False);
      [ | | | | apply cands_ok_newBoard; exact H9 | exact H].
    - intros D D' s0 HD H0 X HX. apply H0. auto.
    - intros D s0 X0 H0 Hv X [HX| ->]; eauto.
    - intros D s0 s1 s2 fuel0 key X0 Hk H0 (Hoth & Hz & _) Hrun X HX.
      apply addNumberLive_frame in Hrun. destruct Hrun as (_ & _ & _ & Hf).
      destruct (coord_eq_dec X X0) as [->|Hne]; [eauto|].
      destruct HX as [HX|HX]; [|contradiction].
      destruct (H0 X HX) as [v Hv]. rewrite <- Hoth in Hv by assumption. eauto.
    - intros X []. }
  change (M (newBoard board)) with (length board) in HI. rewrite H9 in HI.
  apply updatePossibilities_frame in H. destruct H as [_ [_ Hp]].
  intros X HX. split; [apply HI; auto|].
  apply in_allSquares in HX. destruct HX as [Hr Hc].
  eapply Hp. apply newBoard_p; assumption.
Qed.

Lemma dom_ok_readable s X : dom_ok s -> In X (allSquares 9) -> readable s X.
Proof.
  intros Hd HX. destruct (Hd X HX) as [[v Hv] [set Hset]].
  exists v. split; [assumption|]. intros ->.
  exists (length set). split; [assumption | eauto].
Qed.

(** At a node, the candidate sets are sound, the board has 9 rows and all
    its squares can be read; at a node entered with [greysLeft = False], no
    grey square is blank. *)
Lemma searchNode_inv pz board s gl :
  length board = 9 -> searchNode pz board s gl ->
  cands_ok s /\ M s = 9 /\ dom_ok s /\
  (gl = false -> forall Y n, In Y (concat (greys pz)) -> ~ blankAt s Y n).
Proof.
  intros H9 Hnode. induction Hnode as [fuel s Hinit | fuel s gl mn X gl' ks k s1 Hn IH Hsel Hmn Hks Hk Hadd].
  - pose proof (dom_ok_root _ _ _ _ H9 Hinit) as Hd.
    apply updatePossibilities_frame in Hinit. destruct Hinit as [HM Hp].
    split; [apply (cands_ok_shrinks (newBoard board));
            [apply cands_ok_newBoard; exact H9 | exact Hp]|].
    split; [rewrite HM; exact H9|]. split; [assumption | discriminate].
  - destruct IH as (Hc & HM & Hd & Hgrey).
    rewrite addNumber_live in Hadd.
    pose proof (dom_ok_step _ _ _ _ _ _ _ Hd Hadd) as Hd1.
    apply addNumberLive_frame in Hadd.
    destruct Hadd as (HM' & Hp' & Hz' & Hf').
    split; [eapply cands_ok_shrinks; eauto|]. split; [congruence|].
    split; [assumption|].
    intros -> Y n HY Hb.
    destruct (blankAt_back _ _ _ _ Hp' Hz' Hb) as [n' Hb'].
    apply selectCell_spec in Hsel. destruct Hsel as (_ & [(_ & E & _) | (_ & Hg & _)]);
      [discriminate|].
    destruct gl.
    + pose proof (Hg eq_refl _ _ HY Hb'). pose proof (blankAt_small _ _ _ Hc Hb'). lia.
    + exact (Hgrey eq_refl _ _ HY Hb').
Qed.

(** *** The tables of a puzzle that was read cover the 9x9 board *)

Lemma grid_set_domain_fwd A (g : grid A) r c v g' r' c' :
  grid_set g r c v = Some g' -> grid_get g r' c' <> None -> grid_get g' r' c' <> None.
Proof.
  intros H Hr. destruct (coord_eq_dec (r', c') (r, c)) as [E|E].
  - inversion E; subst. erewrite grid_get_set_same by eauto. discriminate.
  - erewrite grid_get_set_other; eauto.
Qed.

Lemma markPurple_fwd i : forall line tab tab' r c,
  markPurple i line tab = Some tab' ->
  grid_get tab r c <> None -> grid_get tab' r c <> None.
Proof.
  induction line as [|[row col] t IH]; intros tab tab' r c H Hr; cbn [markPurple] in H.
  - inversion H; subst; assumption.
  - destruct (grid_set tab row col (i + 1)) as [tab1|] eqn:E1; [|discriminate].
    eapply IH; eauto. eapply grid_set_domain_fwd; eauto.
Qed.

Lemma markPurples_fwd : forall lines i tab tab' r c,
  markPurples i lines tab = Some tab' ->
  grid_get tab r c <> None -> grid_get tab' r c <> None.
Proof.
  induction lines as [|line t IH]; intros i tab tab' r c H Hr; cbn [markPurples] in H.
  - inversion H; subst; assumption.
  - destruct (markPurple i line tab) as [tab1|] eqn:E1; [|discriminate].
    eapply IH; eauto. eapply markPurple_fwd; eauto.
Qed.

Lemma markGrey_written i : forall line j tabs tabs' X,
  markGrey i j line tabs = Some tabs' -> In X line ->
  grid_get (fst tabs) (fst X) (snd X) <> None.
Proof.
  induction line as [|[row col] t IH]; intros j tabs tabs' X H HX; cbn [markGrey] in H.
  - contradiction.
  - destruct (grid_set (fst tabs) row col (i + 1)) as [gb|] eqn:Eb; [|discriminate].
    destruct (grid_set (snd tabs) row col j) as [gi|] eqn:Ei; [|discriminate].
    destruct HX as [<-|HX].
    + simpl. destruct (grid_set_readable _ _ _ _ _ _ Eb) as [x ->]. discriminate.
    + eapply grid_set_domain; eauto. apply (IH _ _ _ _ H HX).
Qed.

Lemma markGreys_written : forall lines i tabs tabs' X,
  markGreys i lines tabs = Some tabs' -> In X (concat lines) ->
  grid_get (fst tabs) (fst X) (snd X) <> None.
Proof.
  induction lines as [|line t IH]; intros i tabs tabs' X H HX; cbn [markGreys] in H.
  - contradiction.
  - destruct (markGrey i 0 line tabs) as [tabs1|] eqn:E1; [|discriminate].
    simpl in HX. apply in_app_or in HX. destruct HX as [HX|HX].
    + eapply markGrey_written; eauto.
    + eapply markGrey_domain; eauto.
Qed.

Lemma zeros_readable r c : In (r, c) (allSquares 9) -> grid_get zeros r c <> None.
Proof.
  intros H. apply in_allSquares in H. simpl in H. destruct H as [Hr Hc].
  unfold grid_get, zeros. rewrite nth_error_repeat by assumption.
  rewrite nth_error_repeat by assumption. discriminate.
Qed.

Lemma readInput_tables greyLines purpleLines pz :
  readInput greyLines purpleLines = Some pz ->
  (forall X, In X (concat (greys pz)) -> In X (allSquares 9)) /\
  (forall X, In X (allSquares 9) ->
     exists pu, grid_get (isPurple pz) (fst X) (snd X) = Some pu).
Proof.
  unfold readInput. intros H.
  destruct (markGreys 0 greyLines (zeros, zeros)) as [[gb gi]|] eqn:EG; [|discriminate].
  destruct (markPurples 0 purpleLines zeros) as [pb|] eqn:EP; [|discriminate].
  inversion H; subst pz; clear H. simpl. split.
  - intros [r c] HX. apply zeros_domain.
    apply (markGreys_written _ _ _ _ _ EG HX).
  - intros [r c] HX. simpl.
    pose proof (markPurples_fwd _ _ _ _ r c EP (zeros_readable _ _ HX)) as Hr.
    destruct (grid_get pb r c) as [pu|]; [eauto | contradiction].
Qed.

(** *** The choice of the square always ends normally at a node *)

Lemma bind_Ok_intro A B (m : Py A) (f : A -> Py B) s a s1 :
  m s = (Ok a, s1) -> bind m f s = f a s1.
Proof. intros E. unfold bind. rewrite E. reflexivity. Qed.

Lemma scanGrey_total l : forall acc s,
  (forall X, In X l -> readable s X) ->
  exists acc', foldM scanGrey l acc s = (Ok acc', s).
Proof.
  induction l as [|X t IH]; intros acc s Hr; cbn [foldM].
  - exists acc; reflexivity.
  - assert (Hstep : exists acc1, scanGrey acc X s = (Ok acc1, s)).
    { destruct (Hr X (or_introl eq_refl)) as (v & Hv & Hb).
      unfold scanGrey. rewrite bind_get_b. unfold val in Hv. rewrite Hv.
      destruct (Z.eqb_spec v 0) as [E|_]; [|eexists; reflexivity].
      destruct (Hb E) as (n & _ & set & Hset & _).
      rewrite bind_get_p, Hset.
      destruct (length set <? fst acc); eexists; reflexivity. }
    destruct Hstep as [acc1 E1]. rewrite (bind_Ok_intro _ _ _ _ _ _ _ E1).
    apply IH. intros; apply Hr; simpl; auto.
Qed.

Lemma scanAny_total pz l : forall acc s,
  (forall X, In X l -> readable s X /\
     exists pu, grid_get (isPurple pz) (fst X) (snd X) = Some pu) ->
  exists acc', foldM (scanAny pz) l acc s = (Ok acc', s).
Proof.
  induction l as [|X t IH]; intros acc s Hr; cbn [foldM].
  - exists acc; reflexivity.
  - assert (Hstep : exists acc1, scanAny pz acc X s = (Ok acc1, s)).
    { destruct (Hr X (or_introl eq_refl)) as ((v & Hv & Hb) & pu & Hpu).
      unfold scanAny. rewrite bind_get_b. unfold val in Hv. rewrite Hv.
      destruct (Z.eqb_spec v 0) as [E|_]; [|eexists; reflexivity].
      destruct (Hb E) as (n & _ & set & Hset & _).
      rewrite bind_get_p, Hset.
      destruct (length set <? fst acc); [eexists; reflexivity|].
      destruct (length set =? fst acc); [|eexists; reflexivity].
      rewrite bind_of_option, Hpu.
      destruct (negb (pu =? 0)); eexists; reflexivity. }
    destruct Hstep as [acc1 E1]. rewrite (bind_Ok_intro _ _ _ _ _ _ _ E1).
    apply IH. intros; apply Hr; simpl; auto.
Qed.

Lemma selectCell_total pz gl s :
  M s = 9 -> dom_ok s ->
  (forall X, In X (concat (greys pz)) -> In X (allSquares 9)) ->
  (forall X, In X (allSquares 9) ->
     exists pu, grid_get (isPurple pz) (fst X) (snd X) = Some pu) ->
  exists res, selectCell pz gl s = (Ok res, s).
Proof.
  intros HM Hd Hg Hpu. unfold selectCell.
  assert (H1 : exists acc1,
    (if gl then foldM scanGrey (concat (greys pz)) (100, (0, 0))
     else ret (100, (0, 0))) s = (Ok acc1, s)).
  { destruct gl; [|eexists; reflexivity].
    apply scanGrey_total. intros X HX. apply dom_ok_readable; auto. }
  destruct H1 as [acc1 E1]. rewrite (bind_Ok_intro _ _ _ _ _ _ _ E1).
  destruct (negb (gl && negb (fst acc1 =? 100))).
  - destruct (scanAny_total pz (allSquares (M s)) acc1 s) as [acc2 E2].
    { rewrite HM. intros X HX. split; [apply dom_ok_readable; auto | auto]. }
    assert (E3 : (m <- get_M ;; foldM (scanAny pz) (allSquares m) acc1) s = (Ok acc2, s)).
    { rewrite bind_get_M. exact E2. }
    rewrite (bind_Ok_intro _ _ _ _ _ _ _ E3). eexists; reflexivity.
  - eexists; reflexivity.
Qed.

(** C8: at every search node of a puzzle that was read, on a board with 9
    rows, the choice of lines 156-174 ends normally, leaves the board as it
    is, and works in two phases.  While a grey square is blank, the chosen
    square is the first blank square, in the order of the grey lines and of
    their squares, with the fewest candidates, and [greysLeft] stays [True].
    When no grey square is blank, [greysLeft] is [False] for the guesses
    below; the minimum stays 100 when no square is blank, and otherwise the
    chosen square is a blank square with the fewest candidates, a purple one
    whenever a purple square is among those with the fewest.  A node entered
    with [greysLeft = False] has no blank grey square. *)
Theorem selectCell_two_phases greyLines purpleLines pz board s gl :
  readInput greyLines purpleLines = Some pz ->
  length board = 9 -> searchNode pz board s gl ->
  exists mn X gl',
    selectCell pz gl s = (Ok (mn, X, gl'), s) /\
    (gl = false -> forall Y n, In Y (concat (greys pz)) -> ~ blankAt s Y n) /\
    ((exists Y n, In Y (concat (greys pz)) /\ blankAt s Y n) ->
     gl' = true /\
     exists l1 l2, concat (greys pz) = l1 ++ X :: l2 /\ blankAt s X mn /\
       (forall Y n, In Y l1 -> blankAt s Y n -> mn < n) /\
       (forall Y n, In Y l2 -> blankAt s Y n -> mn <= n)) /\
    ((forall Y n, In Y (concat (greys pz)) -> ~ blankAt s Y n) ->
     gl' = false /\
     ((forall Y n, In Y (allSquares 9) -> ~ blankAt s Y n) -> mn = 100) /\
     ((exists Y n, In Y (allSquares 9) /\ blankAt s Y n) ->
      In X (allSquares 9) /\ blankAt s X mn /\
      (forall Y n, In Y (allSquares 9) -> blankAt s Y n -> mn <= n) /\
      (forall Y, In Y (allSquares 9) -> blankAt s Y mn -> purpleSq pz Y ->
         purpleSq pz X))).
Proof.
  intros Hread H9 Hnode.
  destruct (searchNode_inv _ _ _ _ H9 Hnode) as (Hc & HM & Hd & Hgrey).
  destruct (readInput_tables _ _ _ Hread) as [Hgin Hpu].
  destruct (selectCell_total pz gl s HM Hd Hgin Hpu) as [[[mn X] gl'] Hsel].
  exists mn, X, gl'. split; [exact Hsel|].
  apply selectCell_spec in Hsel. destruct Hsel as (_ & Hsel). rewrite HM in Hsel.
  split; [exact Hgrey|].
  destruct Hsel as [(-> & -> & Hlt & l1 & l2 & Hl & Hb & Hl1 & Hl2) |
                    (-> & Hg & Hr & Hmin & Hle & Hch & Hpur)].
  - split.
    + intros _. split; [reflexivity|]. exists l1, l2. auto.
    + intros Hnone. exfalso. apply (Hnone X mn); [|assumption].
      rewrite Hl. apply in_or_app. right. simpl; auto.
  - split.
    + intros (Y & n & HY & HbY). exfalso. destruct gl.
      * pose proof (Hg eq_refl _ _ HY HbY). pose proof (blankAt_small _ _ _ Hc HbY). lia.
      * exact (Hgrey eq_refl _ _ HY HbY).
    + intros _. split; [reflexivity|]. split.
      * intros Hnone. destruct Hch as [E | (HX & HbX & _)]; [congruence|].
        exfalso. exact (Hnone _ _ HX HbX).
      * intros (Y & n & HY & HbY).
        pose proof (Hmin _ _ HY HbY). pose proof (blankAt_small _ _ _ Hc HbY).
        destruct Hch as [E | (HX & HbX & _)]; [inversion E; lia|].
        split; [assumption|]. split; [assumption|]. split; [assumption|].
        intros Y' HY' HbY' HpY'. destruct (Hpur _ HY' HbY' HpY') as (_ & _ & ?). assumption.
Qed.

(** [recurse], entered at a node, returns the numbers of a node. *)
Lemma recurse_returns_node pz board : forall fuel level gl s g s',
  searchNode pz board s gl ->
  recurse pz fuel level gl s = (Ok g, s') ->
  exists sf glf, searchNode pz board sf glf /\ g = b sf.
Proof.
  induction fuel as [|n IH]; intros level gl s g s' Hnode H; [discriminate|].
  cbn [recurse] in H.
  apply bind_Ok in H. destruct H as (u & s1 & Hcheck & H).
  apply check_Ok in Hcheck. subst s1.
  apply bind_Ok in H. destruct H as ([[mn X] gl'] & s2 & Hsel & H).
  pose proof (selectCell_spec _ _ _ _ _ _ _ Hsel) as (-> & _).
  destruct (Nat.eqb_spec mn 100) as [->|Hmn].
  - inversion H; subst. exists s', gl. auto.
  - rewrite bind_get_p in H.
    destruct (grid_get (p s) (fst X) (snd X)) as [ks|] eqn:Hks; [|discriminate].
    apply guess_Ok in H. destruct H as (-> & k & s'' & Hin & Hbody).
    apply bind_Ok in Hbody. destruct Hbody as ([] & sa & Hadd & Hrec).
    eapply IH; [|exact Hrec].
    eapply node_guess; eauto.
Qed.

(** ** [check] on a board whose squares can all be read *)

Lemma holders_Ok num group s :
  dom_ok s -> (forall i, In i group -> In i (allSquares 9)) ->
  exists l, holders num group s = (Ok l, s).
Proof.
  intros Hd. induction group as [|i t IH]; intros Hg; cbn [holders].
  - exists []; reflexivity.
  - destruct (Hd i (Hg i (or_introl eq_refl))) as [[v Hv] _].
    rewrite bind_get_b. unfold val in Hv. rewrite Hv.
    destruct IH as [l El]; [intros; apply Hg; simpl; auto|].
    rewrite (bind_Ok_intro _ _ _ _ _ _ _ El). eexists; reflexivity.
Qed.

Lemma checkGroup_Ok pz fuel group s :
  dom_ok s -> (forall i, In i group -> In i (allSquares 9)) ->
  checkGroup pz (S fuel) group s = (Ok tt, s).
Proof.
  intros Hd Hg. unfold checkGroup. apply forM_noop. intros num Hnum.
  apply In_rangeZ in Hnum.
  destruct (holders_inert num group s) as [(l & E & Hl) | E].
  - rewrite (bind_Ok_intro _ _ _ _ _ _ _ E).
    destruct l as [|i [|j l]]; try reflexivity.
    inversion Hl; subst.
    assert (Hnz : num <> 0%Z) by lia.
    rewrite addNumber_live, (addNumberLive_assigned _ _ _ _ _ _ _ H1 Hnz), Z.eqb_refl.
    reflexivity.
  - destruct (holders_Ok num group s Hd Hg) as [l El]. congruence.
Qed.

Lemma check_Ok_full pz fuel s :
  M s = 9 -> dom_ok s -> check pz (S fuel) s = (Ok tt, s).
Proof.
  intros HM Hd. unfold check. rewrite bind_get_M, HM.
  assert (H1 : forM_ (seq 0 9) (fun i =>
      checkGroup pz (S fuel) (map (fun j => (i, j)) (seq 0 9)) ;;
      checkGroup pz (S fuel) (map (fun j => (j, i)) (seq 0 9))) s = (Ok tt, s)).
  { apply forM_noop. intros i Hi. apply in_seq in Hi.
    assert (E1 : checkGroup pz (S fuel) (map (fun j => (i, j)) (seq 0 9)) s = (Ok tt, s)).
    { apply checkGroup_Ok; [assumption|]. intros X HX.
      apply in_map_iff in HX. destruct HX as (j & <- & Hj). apply in_seq in Hj.
      apply in_allSquares. simpl. lia. }
    rewrite (bind_Ok_intro _ _ _ _ _ _ _ E1).
    apply checkGroup_Ok; [assumption|]. intros X HX.
    apply in_map_iff in HX. destruct HX as (j & <- & Hj). apply in_seq in Hj.
    apply in_allSquares. simpl. lia. }
  rewrite (bind_Ok_intro _ _ _ _ _ _ _ H1).
  apply forM_noop. intros i Hi. apply in_seq in Hi.
  apply forM_noop. intros j Hj. apply in_seq in Hj.
  apply checkGroup_Ok; [assumption|]. intros X HX.
  apply in_flat_map in HX. destruct HX as (k & Hk & HX).
  apply in_map_iff in HX. destruct HX as (l & <- & Hl).
  apply in_seq in Hk, Hl. apply in_allSquares. simpl. lia.
Qed.

(** C9: with any positive fuel, [checkGroup] on any group and the whole
    sweep [check] leave the board (numbers and candidate sets) as it was and
    never raise [ImpossibleSetup]; they end normally, or with the
    [IndexError] of a square that is not on the board; on a board with
    [M = 9] whose 81 squares can be read, [check] ends normally. *)
Theorem check_changes_nothing pz fuel s :
  (check pz (S fuel) s = (Ok tt, s) \/ check pz (S fuel) s = (Raise IndexError, s)) /\
  (forall group,
     checkGroup pz (S fuel) group s = (Ok tt, s) \/
     checkGroup pz (S fuel) group s = (Raise IndexError, s)) /\
  (M s = 9 -> dom_ok s -> check pz (S fuel) s = (Ok tt, s)).
Proof.
  split; [|split; [intros group | apply check_Ok_full]].
  - destruct (check_inert pz fuel s) as [[[] E]|E]; auto.
  - destruct (checkGroup_inert pz fuel group s) as [[[] E]|E]; auto.
Qed.

(** ** More fuel does not change a result *)

Lemma refines_refl A (m : Py A) : refines m m.
Proof. intros s o s' H _. exact H. Qed.

Lemma refines_bind A B (m1 m2 : Py A) (f1 f2 : A -> Py B) :
  refines m1 m2 -> (forall a, refines (f1 a) (f2 a)) ->
  refines (bind m1 f1) (bind m2 f2).
Proof.
  intros Hm Hf s o s' H Ho. unfold bind in *.
  destruct (m1 s) as [[a|e|] s1] eqn:E1.
  - rewrite (Hm _ _ _ E1) by discriminate. apply Hf; assumption.
  - rewrite (Hm _ _ _ E1) by discriminate. assumption.
  - inversion H; subst. contradiction.
Qed.

Lemma refines_forM X (l : list X) (f1 f2 : X -> Py unit) :
  (forall x, refines (f1 x) (f2 x)) -> refines (forM_ l f1) (forM_ l f2).
Proof.
  intros Hf. induction l as [|x t IH]; cbn [forM_]; [apply refines_refl|].
  apply refines_bind; auto.
Qed.

Lemma refines_guess A (b1 b2 : Z -> Py A) ks :
  (forall k, refines (b1 k) (b2 k)) -> refines (guess b1 ks) (guess b2 ks).
Proof.
  intros Hb. induction ks as [|k t IH]; cbn [guess]; intros s o s' H Ho; [exact H|].
  destruct (b1 k s) as [[a|[|]|] s1] eqn:E1.
  - rewrite (Hb _ _ _ _ E1) by discriminate. assumption.
  - rewrite (Hb _ _ _ _ E1) by discriminate. apply IH; assumption.
  - rewrite (Hb _ _ _ _ E1) by discriminate. assumption.
  - inversion H; subst. contradiction.
Qed.

Lemma addNumberLive_more pz n : forall key r c,
  refines (addNumberLive pz n key r c) (addNumberLive pz (S n) key r c).
Proof.
  induction n as [|n IH]; intros key r c.
  - intros s o s' H Ho. inversion H; subst. contradiction.
  - cbn [addNumberLive].
    apply refines_bind; [apply refines_refl|]. intros v.
    destruct (negb (v =? 0)%Z); [apply refines_refl|].
    apply refines_bind; [apply refines_refl|]. intros _.
    apply refines_bind; [apply refines_refl|]. intros m.
    apply refines_bind; [apply refines_refl|]. intros _.
    apply refines_bind; [apply refines_refl|]. intros _.
    apply refines_bind; [apply refines_refl|]. intros g.
    destruct (negb (g =? 0)); [|apply refines_refl].
    apply refines_bind; [apply refines_refl|]. intros line.
    apply refines_bind; [apply refines_refl|]. intros gi.
    apply refines_bind; [apply refines_refl|]. intros mirror.
    apply IH.
Qed.

Lemma addNumber_more pz n key r c :
  refines (addNumber pz n key r c) (addNumber pz (S n) key r c).
Proof.
  intros s o s' H Ho. rewrite addNumber_live in *.
  eapply addNumberLive_more; eauto.
Qed.

Lemma check_more pz n : refines (check pz n) (check pz (S n)).
Proof.
  assert (Hg : forall group, refines (checkGroup pz n group) (checkGroup pz (S n) group)).
  { intros group. unfold checkGroup. apply refines_forM. intros num.
    apply refines_bind; [apply refines_refl|]. intros l.
    destruct l as [|i [|j l]]; try apply refines_refl. apply addNumber_more. }
  unfold check. apply refines_bind; [apply refines_refl|]. intros m.
  apply refines_bind; [|intros _]; apply refines_forM; intros i.
  - apply refines_bind; [|intros _]; apply Hg.
  - apply refines_forM; intros j. apply Hg.
Qed.

Lemma updatePossibilities_more pz n :
  refines (updatePossibilities pz n) (updatePossibilities pz (S n)).
Proof.
  unfold updatePossibilities. apply refines_bind; [apply refines_refl|]. intros m.
  apply refines_forM; intros i. apply refines_forM; intros j.
  apply refines_bind; [apply refines_refl|]. intros key.
  destruct (negb (key =? 0)%Z); [|apply refines_refl].
  apply refines_bind; [apply refines_refl|]. intros _. apply addNumber_more.
Qed.

Lemma recurse_more pz n : forall level gl,
  refines (recurse pz n level gl) (recurse pz (S n) level gl).
Proof.
  induction n as [|n IH]; intros level gl.
  - intros s o s' H Ho. inversion H; subst. contradiction.
  - cbn [recurse].
    apply refines_bind; [apply check_more|]. intros _.
    apply refines_bind; [apply refines_refl|]. intros [[mn X] gl'].
    destruct (mn =? 100); [apply refines_refl|].
    apply refines_bind; [apply refines_refl|]. intros ks.
    apply refines_guess. intros k.
    apply refines_bind; [apply addNumber_more | intros _; apply IH].
Qed.

(** A result of [solve] other than [OutOfFuel] is its result with any
    larger fuel. *)
Lemma solve_more fuel board greyLines purpleLines o :
  solve fuel board greyLines purpleLines = o -> o <> OutOfFuel ->
  forall fuel', fuel <= fuel' -> solve fuel' board greyLines purpleLines = o.
Proof.
  intros H Ho fuel' Hle. induction Hle as [|m Hle IH]; [assumption|].
  clear H. unfold solve in *.
  destruct (readInput greyLines purpleLines) as [pz|]; [|assumption].
  destruct (updatePossibilities pz m (newBoard board)) as [[[]|e|] s0] eqn:EU.
  - rewrite (updatePossibilities_more _ _ _ _ _ EU) by discriminate.
    destruct (recurse pz m 0 true s0) as [o1 s1] eqn:ER. simpl in IH. subst o1.
    rewrite (recurse_more _ _ _ _ _ _ _ ER Ho). reflexivity.
  - rewrite (updatePossibilities_more _ _ _ _ _ EU) by discriminate. assumption.
  - subst o. contradiction.
Qed.

(** ** The defects, run on boards *)

(** Whatever [removePossibility] did, the [checkPossibility] that follows
    it with the same key and square does nothing. *)
Lemma checkPossibility_dead f key r c s s' :
  removePossibility key r c s = (Ok tt, s') ->
  checkPossibility f key r c s' = (Ok tt, s').
Proof.
  intros H. apply checkPossibility_cleared. eapply removePossibility_cleared; eauto.
Qed.

(** C3 (not met by the code): on the board built from the clues
    1 to 7 in row 0, square (0, 8) is blank with candidates 8 and 9.  After
    [removePossibility(8, 0, 8)] one candidate is left and
    [checkPossibility(8, 0, 8)] returns without placing it; after
    [removePossibility(9, 0, 8)] no candidate is left and
    [checkPossibility(9, 0, 8)] returns without raising. *)
Theorem checkPossibility_skips_forced_square :
  let f := addNumber noLines 82 in
  let s0 := snd (updatePossibilities noLines 82 (newBoard sevenClues)) in
  let s1 := snd (removePossibility 8 0 8 s0) in
  let s2 := snd (removePossibility 9 0 8 s1) in
  grid_get (b s0) 0 8 = Some 0%Z /\ grid_get (p s0) 0 8 = Some [8; 9]%Z /\
  grid_get (p s1) 0 8 = Some [9]%Z /\
  checkPossibility f 8 0 8 s1 = (Ok tt, s1) /\ grid_get (b s1) 0 8 = Some 0%Z /\
  grid_get (p s2) 0 8 = Some [] /\
  checkPossibility f 9 0 8 s2 = (Ok tt, s2).
Proof. vm_compute. repeat split. Qed.

(** C4 (not met by the code): with the purple line
    {(0, 0), (4, 4)} of length 2 on a blank board, [addNumber(3, 0, 0)]
    leaves 9 among the candidates of (4, 4), although 9 >= 3 + 2: the loop
    [range(key + len(line), self.M)] stops at 8. *)
Theorem purple_line_keeps_nine :
  match readInput [] [[(0, 0); (4, 4)]] with
  | Some pz =>
      let r := addNumber pz 82 3 0 0 (newBoard emptyGrid) in
      fst r = Ok tt /\
      grid_get (b (snd r)) 4 4 = Some 0%Z /\
      grid_get (p (snd r)) 4 4 = Some [2; 3; 4; 9]%Z
  | None => False
  end.
Proof. vm_compute. repeat split. Qed.

(** C1 (not met by the code): the clues of [twoBlanks] agree
    with the sudoku rules, the grey line runs over its two blank squares,
    and [solve] returns a grid with 5 twice in row 0: the mirrored square
    gets the number without a look at its candidates. *)
Theorem solve_returns_repeated_number :
  solve 100 twoBlanks [[(0, 0); (0, 1)]] [] = Ok clashGrid /\
  grid_get clashGrid 0 0 = Some 5%Z /\ grid_get clashGrid 0 1 = Some 5%Z /\
  (forall fuel, 100 <= fuel -> solve fuel twoBlanks [[(0, 0); (0, 1)]] [] = Ok clashGrid).
Proof.
  assert (H : solve 100 twoBlanks [[(0, 0); (0, 1)]] [] = Ok clashGrid)
    by (vm_compute; reflexivity).
  split; [exact H|]. split; [reflexivity|]. split; [reflexivity|].
  intros fuel Hle. exact (solve_more _ _ _ _ _ H ltac:(discriminate) fuel Hle).
Qed.

(** C2 (not met by the code): the clues of [clashGrid] and of
    [clashPuzzle] hold 5 twice in row 0, and [solve] returns a grid for
    both instead of raising [ImpossibleSetup]. *)
Theorem solve_accepts_clashing_clues :
  grid_get clashPuzzle 0 0 = Some 5%Z /\ grid_get clashPuzzle 0 1 = Some 5%Z /\
  (forall fuel, 100 <= fuel -> solve fuel clashGrid [] [] = Ok clashGrid) /\
  (forall fuel, 100 <= fuel -> solve fuel clashPuzzle [] [] = Ok clashGrid).
Proof.
  assert (H1 : solve 100 clashGrid [] [] = Ok clashGrid) by (vm_compute; reflexivity).
  assert (H2 : solve 100 clashPuzzle [] [] = Ok clashGrid) by (vm_compute; reflexivity).
  split; [reflexivity|]. split; [reflexivity|].
  split; intros fuel Hle.
  - exact (solve_more _ _ _ _ _ H1 ltac:(discriminate) fuel Hle).
  - exact (solve_more _ _ _ _ _ H2 ltac:(discriminate) fuel Hle).
Qed.

(** ** The theorems at concrete boards *)

Ltac nodup_coords :=
  repeat (apply NoDup_cons; [simpl; intuition discriminate|]); apply NoDup_nil.

Lemma solve_purple_lines_witness :
  exists vals m,
    Forall2 (fun X v => grid_get solvedGrid (fst X) (snd X) = Some v)
      [(0, 0); (0, 1); (0, 2)] vals /\
    NoDup vals /\ Permutation vals (rangeZ m (m + Z.of_nat 3)).
Proof.
  apply (solve_purple_lines 100 purplePuzzle [] [[(0, 0); (0, 1); (0, 2)]]
           solvedGrid 0 [(0, 0); (0, 1); (0, 2)]).
  - reflexivity.
  - simpl. nodup_coords.
  - vm_compute. reflexivity.
  - reflexivity.
Defined.

Lemma solve_mirror_lines_witness :
  exists v, v <> 0%Z /\
    grid_get solvedGrid 0 0 = Some v /\ grid_get solvedGrid 4 4 = Some v.
Proof.
  apply (solve_mirror_lines 100 mirrorPuzzle [[(0, 0); (3, 3); (4, 4)]] []
           solvedGrid 0 [(0, 0); (3, 3); (4, 4)] 0 (0, 0) (4, 4)).
  - reflexivity.
  - simpl. nodup_coords.
  - vm_compute. reflexivity.
  - reflexivity.
  - reflexivity.
  - reflexivity.
Defined.

Lemma addNumber_on_assigned_witness :
  addNumber noLines 1 5 0 0 (newBoard solvedGrid) = (Ok tt, newBoard solvedGrid) /\
  (forall w, w <> 5%Z ->
     addNumber noLines 1 w 0 0 (newBoard solvedGrid)
       = (Raise ImpossibleSetup, newBoard solvedGrid)).
Proof.
  apply (addNumber_on_assigned noLines 0 0 0 (newBoard solvedGrid) 5%Z).
  - reflexivity.
  - lia.
Defined.

Lemma selectCell_two_phases_witness :
  exists mn X gl',
    selectCell greyPairModel true greyPairRoot = (Ok (mn, X, gl'), greyPairRoot) /\
    (true = false ->
     forall Y n, In Y (concat (greys greyPairModel)) -> ~ blankAt greyPairRoot Y n) /\
    ((exists Y n, In Y (concat (greys greyPairModel)) /\ blankAt greyPairRoot Y n) ->
     gl' = true /\
     exists l1 l2, concat (greys greyPairModel) = l1 ++ X :: l2 /\
       blankAt greyPairRoot X mn /\
       (forall Y n, In Y l1 -> blankAt greyPairRoot Y n -> mn < n) /\
       (forall Y n, In Y l2 -> blankAt greyPairRoot Y n -> mn <= n)) /\
    ((forall Y n, In Y (concat (greys greyPairModel)) -> ~ blankAt greyPairRoot Y n) ->
     gl' = false /\
     ((forall Y n, In Y (allSquares 9) -> ~ blankAt greyPairRoot Y n) -> mn = 100) /\
     ((exists Y n, In Y (allSquares 9) /\ blankAt greyPairRoot Y n) ->
      In X (allSquares 9) /\ blankAt greyPairRoot X mn /\
      (forall Y n, In Y (allSquares 9) -> blankAt greyPairRoot Y n -> mn <= n) /\
      (forall Y, In Y (allSquares 9) -> blankAt greyPairRoot Y mn ->
         purpleSq greyPairModel Y -> purpleSq greyPairModel X))).
Proof.
  apply (selectCell_two_phases [[(0, 0); (0, 1)]] [] greyPairModel twoBlanks
           greyPairRoot true).
  - reflexivity.
  - reflexivity.
  - apply (node_root greyPairModel twoBlanks 100). vm_compute. reflexivity.
Defined.

Lemma addNumber_terminates_witness :
  fst (addNumber noLines 82 5 0 0 (newBoard emptyGrid)) <> OutOfFuel /\
  (length (b (newBoard emptyGrid)) = 9 ->
   Forall (fun r => length r = 9) (b (newBoard emptyGrid)) ->
   blanks (b (newBoard emptyGrid)) <= 81).
Proof.
  apply (addNumber_terminates noLines 82 5 0 0 (newBoard emptyGrid)).
  - lia.
  - vm_compute. lia.
Defined.

(** * Verification of the methods and of the whole run

    What the methods do beyond the claims above: the effect of
    [removePossibility] and [addNumber] on the board, the tables that the
    input reading builds, and the run of [solve] as a whole, which ends,
    keeps the clues, rejects clues that break a line, and finds a grid
    whenever the puzzle has a solution. *)

(** ** What [removePossibility] writes *)

Lemma removePossibility_spec key r c s s' :
  removePossibility key r c s = (Ok tt, s') ->
  b s' = b s /\ M s' = M s /\
  (forall r' c', (r', c') <> (r, c) -> grid_get (p s') r' c' = grid_get (p s) r' c') /\
  (forall set, val s (r, c) = Some 0%Z -> grid_get (p s) r c = Some set ->
     grid_get (p s') r c = Some (remove Z.eq_dec key set)) /\
  (val s (r, c) <> Some 0%Z -> s' = s) /\
  removePossibility key r c s' = (Ok tt, s').
Proof.
  unfold removePossibility, val; cbn [fst snd]; intros H.
  rewrite bind_get_b in H. rewrite !bind_get_b.
  destruct (grid_get (b s) r c) as [v|] eqn:Hv; [|discriminate].
  destruct (Z.eqb_spec v 0) as [->|Hnz].
  2:{ inversion H; subst. rewrite Hv.
      destruct (Z.eqb_spec v 0) as [E|_]; [contradiction|].
      repeat (split; [reflexivity || auto|]).
      - intros set E; inversion E; contradiction.
      - split; reflexivity. }
  rewrite bind_get_p in H.
  destruct (grid_get (p s) r c) as [set|] eqn:Hp; [|discriminate].
  destruct (in_dec Z.eq_dec key set) as [Hin|Hnin].
  - apply set_p_Ok in H. destruct H as (g & Hg & ->). cbn [b M p].
    split; [reflexivity|]. split; [reflexivity|]. split.
    { intros r' c' Hne. eapply grid_get_set_other; eauto. }
    split.
    { intros set0 _ E; inversion E; subst. eapply grid_get_set_same; eauto. }
    split.
    { intros E; contradiction E; reflexivity. }
    rewrite Hv. cbn [Z.eqb]. rewrite bind_get_p. cbn [p].
    erewrite grid_get_set_same by eauto.
    destruct (in_dec Z.eq_dec key (remove Z.eq_dec key set)) as [Hin'|_];
      [|reflexivity].
    exfalso; revert Hin'; apply remove_In.
  - inversion H; subst.
    split; [reflexivity|]. split; [reflexivity|]. split; [reflexivity|]. split.
    { intros set0 _ E; inversion E; subst. rewrite Hp, notin_remove by assumption. reflexivity. }
    split; [reflexivity|].
    rewrite Hv. cbn [Z.eqb]. rewrite bind_get_p, Hp.
    destruct (in_dec Z.eq_dec key set); [contradiction | reflexivity].
Qed.

(** X1: [removePossibility] never touches the numbers of the board or
    [M]; the only candidate set it can change is that of its own square, and
    only when that square is blank: the set then loses [key] and nothing
    else.  On a square that holds a number the board stays as it is, and a
    second call with the same arguments changes nothing. *)
Theorem removePossibility_effect key r c s s' :
  removePossibility key r c s = (Ok tt, s') ->
  b s' = b s /\ M s' = M s /\
  (forall r' c', (r', c') <> (r, c) -> grid_get (p s') r' c' = grid_get (p s) r' c') /\
  (forall set, val s (r, c) = Some 0%Z -> grid_get (p s) r c = Some set ->
     grid_get (p s') r c = Some (remove Z.eq_dec key set)) /\
  (val s (r, c) <> Some 0%Z -> s' = s) /\
  removePossibility key r c s' = (Ok tt, s').
Proof.
  exact (removePossibility_spec key r c s s').
Qed.

(** ** [checkPossibility] is dead code *)

(** X2: [checkPossibility] is dead code.  Called after
    [removePossibility] took the same key from the same square, as every call
    in the source is, it returns at once, whatever it would call; and
    [addNumber] with its four loops of [checkPossibility] calls deleted ends
    with the same outcome and the same board, on every board and for every
    puzzle. *)
Theorem checkPossibility_never_acts :
  (forall f key r c s s',
     removePossibility key r c s = (Ok tt, s') ->
     checkPossibility f key r c s' = (Ok tt, s')) /\
  (forall pz fuel key row col s,
     addNumber pz fuel key row col s = addNumberLive pz fuel key row col s).
Proof.
  split.
  - intros f key r c s s' H. eapply checkPossibility_dead; eauto.
  - intros. apply addNumber_live.
Qed.

(** ** The squares that [addNumber] prunes *)

Lemma in_square r c Y :
  In Y (square r c) <->
  (r - r mod 3 <= fst Y < r - r mod 3 + 3 /\ c - c mod 3 <= snd Y < c - c mod 3 + 3).
Proof.
  unfold square. rewrite in_flat_map. split.
  - intros (i & Hi & HY). apply in_map_iff in HY. destruct HY as (j & <- & Hj).
    apply in_seq in Hi. apply in_seq in Hj. cbn [fst snd]. lia.
  - intros [Hr Hc]. exists (fst Y). split; [apply in_seq; lia|].
    apply in_map_iff. exists (snd Y). split; [destruct Y; reflexivity | apply in_seq; lia].
Qed.

Lemma block_start n : n - n mod 3 = 3 * (n / 3).
Proof.
  pose proof (Nat.div_mod_eq n 3). lia.
Qed.

Lemma in_square_block r c Y :
  In Y (square r c) <-> (fst Y / 3 = r / 3 /\ snd Y / 3 = c / 3).
Proof.
  rewrite in_square, !block_start.
  pose proof (Nat.div_mod_eq (fst Y) 3). pose proof (Nat.div_mod_eq (snd Y) 3).
  pose proof (Nat.mod_upper_bound (fst Y) 3). pose proof (Nat.mod_upper_bound (snd Y) 3).
  lia.
Qed.

Lemma prune_cases_cleared A key row col m (k : Py A) s :
  (exists s2, b s2 = b s /\ M s2 = M s /\ shrinks (p s) (p s2) /\
     (forall i, i < m -> cleared key row i s2 /\ cleared key i col s2) /\
     (forall ij, In ij (square row col) -> cleared key (fst ij) (snd ij) s2) /\
     (forM_ (seq 0 m) (fun i =>
        removePossibility key row i ;; removePossibility key i col) ;;
      forM_ (square row col) (fun ij => removePossibility key (fst ij) (snd ij)) ;;
      k) s = k s2) \/
  (exists e s',
     (forM_ (seq 0 m) (fun i =>
        removePossibility key row i ;; removePossibility key i col) ;;
      forM_ (square row col) (fun ij => removePossibility key (fst ij) (snd ij)) ;;
      k) s = (Raise e, s')).
Proof.
  unfold bind at 1 4.
  assert (T1 : tame (forM_ (seq 0 m) (fun i =>
             removePossibility key row i ;; removePossibility key i col))).
  { apply tame_forM; intros; apply tame_bind; [|intros _]; apply tame_removePossibility. }
  specialize (T1 s).
  destruct (forM_ (seq 0 m) _ s) as [[[]|e|] s1] eqn:H1; [ | right; eauto | contradiction].
  unfold bind at 1 2.
  assert (T2 : tame (forM_ (square row col)
             (fun ij => removePossibility key (fst ij) (snd ij)))).
  { apply tame_forM; intros; apply tame_removePossibility. }
  specialize (T2 s1).
  destruct (forM_ (square row col) _ s1) as [[[]|e|] s2] eqn:H2; [ | right; eauto | contradiction].
  left. exists s2. destruct T1 as (Hb & HM & Hp), T2 as (Hb' & HM' & Hp').
  split; [congruence|]. split; [congruence|].
  split; [eapply shrinks_trans; eauto |]. split; [|split; [|reflexivity]].
  - intros i Hi.
    eapply forM_keeps
      with (I := fun s => cleared key row i s /\ cleared key i col s); [ | | exact H2].
    + intros x sa sb _ [Ha Hb0] Hx; cbv beta in *; split;
        eapply removePossibility_keeps_cleared; eauto.
    + eapply forM_each
        with (Q := fun i s => cleared key row i s /\ cleared key i col s);
        [ | | exact H1 | apply in_seq; lia].
      * intros; cbv beta in *; eapply two_removes_cleared; eauto.
      * intros x y sa sb [Ha Hb0] Hy; cbv beta in *; split; eapply two_removes_keep; eauto.
  - intros ij Hi.
    eapply forM_each with (Q := fun ij => cleared key (fst ij) (snd ij));
      [ | | exact H2 | exact Hi].
    + intros; cbv beta in *; eapply removePossibility_cleared; eauto.
    + intros; cbv beta in *; eapply removePossibility_keeps_cleared; eauto.
Qed.

(** A pruned square stays pruned on a later board whose numbers were only
    added and whose candidate sets only shrank. *)
Lemma cleared_later key r c s s' :
  shrinks (p s) (p s') ->
  (forall Z, val s' Z = Some 0%Z -> val s Z = Some 0%Z) ->
  (forall Z v, val s Z = Some v -> exists v', val s' Z = Some v') ->
  cleared key r c s -> cleared key r c s'.
Proof.
  intros [Hback Hfwd] Hz Hdom (v & Hv & Hc).
  destruct (Hdom (r, c) v Hv) as [v' Hv']. exists v'. split; [exact Hv'|].
  intros ->. specialize (Hz (r, c) Hv'). unfold val in Hz; simpl in Hz.
  rewrite Hv in Hz. inversion Hz; subst.
  destruct (Hc eq_refl) as (set & Hset & Hnin).
  destruct (Hfwd _ _ _ Hset) as [set' Hset']. exists set'. split; [exact Hset'|].
  destruct (Hback _ _ _ Hset') as (set0 & Hset0 & Hincl & _).
  rewrite Hset in Hset0; inversion Hset0; subst. auto.
Qed.

(** After [addNumber] placed [key] on a blank square, no blank square of the
    row, the column or the 3x3 square has [key] among its candidates. *)
Lemma addNumberLive_prunes pz fuel key row col s s' :
  val s (row, col) = Some 0%Z ->
  addNumberLive pz fuel key row col s = (Ok tt, s') ->
  forall Y,
    (fst Y = row /\ snd Y < M s) \/ (snd Y = col /\ fst Y < M s) \/
    In Y (square row col) ->
    cleared key (fst Y) (snd Y) s'.
Proof.
  intros Hv H. destruct fuel as [|n]; [discriminate|].
  pose proof H as Hrun.
  unfold val in Hv; simpl in Hv.
  cbn [addNumberLive] in H. rewrite bind_get_b, Hv in H. cbn [Z.eqb negb] in H.
  rewrite bind_set_b in H.
  destruct (grid_set (b s) row col key) as [g1|] eqn:Hg; [|discriminate].
  rewrite bind_get_M in H. cbn [M] in H.
  match type of H with bind _ (fun _ => bind _ (fun _ => ?k)) ?s1 = _ =>
    destruct (prune_cases_cleared _ key row col (M s) k s1)
      as [(s2 & Hb & HM & Hp & Hrow & Hsq & E) | (e & s3 & E)]; rewrite E in H; clear E;
      [|discriminate]
  end.
  simpl in Hb, HM, Hp.
  assert (Hlater : forall r c, cleared key r c s2 -> cleared key r c s').
  { rewrite bind_of_option in H.
    destruct (grid_get (isGrey pz) row col) as [gr|] eqn:Hgr; [|discriminate].
    destruct (negb (gr =? 0)).
    - rewrite bind_of_option in H.
      destruct (nth_error (greys pz) (gr - 1)) as [line|]; [|discriminate].
      rewrite bind_of_option in H.
      destruct (grid_get (greyIndexes pz) row col) as [gi|]; [|discriminate].
      rewrite bind_of_option in H.
      destruct (py_index line (Z.of_nat (length line) - Z.of_nat gi - 1)) as [Y|];
        [|discriminate].
      destruct (addNumberLive_frame _ _ _ _ _ _ _ H) as (_ & Hp' & Hz & Hd).
      intros r c. apply cleared_later; assumption.
    - rewrite bind_of_option in H.
      destruct (grid_get (isPurple pz) row col) as [pu|]; [|discriminate].
      destruct (negb (pu =? 0)).
      + rewrite bind_of_option in H.
        destruct (nth_error (purples pz) (pu - 1)) as [line|]; [|discriminate].
        destruct (purple_loop _ _ _ _ _ _ _ H) as (Hb' & _ & Hp' & _).
        intros r c. apply cleared_later; unfold val; rewrite ?Hb'; eauto.
      + inversion H; subst. auto. }
  intros Y [[<- HY] | [[<- HY] | HY]]; apply Hlater.
  - apply Hrow; assumption.
  - apply Hrow; assumption.
  - apply Hsq; assumption.
Qed.

(** X3: after [addNumber] placed [key] on a blank square, every
    square of its row, of its column and of its 3x3 square can be read and,
    if it is blank, does not have [key] among its candidates; this holds on
    the board that the whole call leaves, after the lines were followed. *)
Theorem addNumber_prunes_peers pz fuel key row col s s' :
  val s (row, col) = Some 0%Z ->
  addNumber pz fuel key row col s = (Ok tt, s') ->
  forall Y,
    (fst Y = row /\ snd Y < M s) \/ (snd Y = col /\ fst Y < M s) \/
    In Y (square row col) ->
    exists v, val s' Y = Some v /\
      (v = 0%Z -> exists set,
         grid_get (p s') (fst Y) (snd Y) = Some set /\ ~ In key set).
Proof.
  intros Hv H Y HY. rewrite addNumber_live in H.
  exact (addNumberLive_prunes _ _ _ _ _ _ _ Hv H Y HY).
Qed.

(** ** The numbers that [addNumber] writes *)

(** [addNumber] writes [key] and nothing else, on blank squares only, and
    its own square holds [key] afterwards. *)
Lemma addNumberLive_numbers pz fuel : forall key r c s s',
  addNumberLive pz fuel key r c s = (Ok tt, s') ->
  val s' (r, c) = Some key /\
  forall Z, val s' Z = val s Z \/ (val s Z = Some 0%Z /\ val s' Z = Some key).
Proof.
  induction fuel as [|n IH]; intros key r c s s' H; [discriminate|].
  destruct (val s (r, c)) as [v|] eqn:Hv;
    [|exfalso; eapply addNumberLive_unreadable; eauto].
  destruct (Z.eq_dec v 0) as [->|Hnz].
  2:{ rewrite (addNumberLive_assigned _ _ _ _ _ _ _ Hv Hnz) in H.
      destruct (Z.eqb_spec v key) as [E|]; [|discriminate]. inversion H; subst.
      split; [assumption | auto]. }
  destruct (addNumberLive_blank _ _ _ _ _ _ _ Hv H)
    as (g1 & s2 & Hg & Hb & HM & Hp & Hcases).
  destruct (val_after_set s s2 (r, c) key g1 Hg Hb) as [Hsame Hother].
  assert (Hstep : forall Z, val s2 Z = val s Z \/ (val s Z = Some 0%Z /\ val s2 Z = Some key)).
  { intros Z. destruct (coord_eq_dec Z (r, c)) as [->|Hne]; [right; auto | left; auto]. }
  assert (Hend : (forall Z, val s' Z = val s2 Z \/
                            (val s2 Z = Some 0%Z /\ val s' Z = Some key)) ->
                 val s' (r, c) = Some key /\
                 forall Z, val s' Z = val s Z \/ (val s Z = Some 0%Z /\ val s' Z = Some key)).
  { intros Hrest. split.
    - destruct (Hrest (r, c)) as [E | [_ E]]; congruence.
    - intros Z. destruct (Hrest Z) as [E | [E0 E]], (Hstep Z) as [F | [F0 F]].
      + left; congruence.
      + right; split; congruence.
      + right; split; congruence.
      + right; split; congruence. }
  destruct Hcases as [(Y & Hmir & Hrun) | (Hgr & [[Hpu ->] | (line & Hline & Hrun)])].
  - apply Hend. apply (IH _ _ _ _ _ Hrun).
  - apply Hend. auto.
  - destruct (purple_loop _ _ _ _ _ _ _ Hrun) as (Hb' & _).
    apply Hend. intros Z. left. unfold val. rewrite Hb'. reflexivity.
Qed.

(** X4: a call of [addNumber] that ends normally leaves [key] on
    its square.  It changes no number that was on the board: the squares it
    writes, its own and those reached along grey lines, were blank and hold
    [key] afterwards.  It leaves [M] alone and only takes candidates away. *)
Theorem addNumber_writes_key_on_blanks pz fuel key row col s s' :
  addNumber pz fuel key row col s = (Ok tt, s') ->
  val s' (row, col) = Some key /\
  (forall Z v, val s Z = Some v -> v <> 0%Z -> val s' Z = Some v) /\
  (forall Z, val s' Z <> val s Z -> val s Z = Some 0%Z /\ val s' Z = Some key) /\
  M s' = M s /\ shrinks (p s) (p s').
Proof.
  intros H. rewrite addNumber_live in H.
  destruct (addNumberLive_numbers _ _ _ _ _ _ _ H) as [Hk Hall].
  destruct (addNumberLive_frame _ _ _ _ _ _ _ H) as (HM & Hp & _).
  split; [assumption|]. split; [|split; [|split; assumption]].
  - intros Z v Hv Hnz. destruct (Hall Z) as [E | [E _]]; congruence.
  - intros Z Hne. destruct (Hall Z) as [E | E]; [contradiction | assumption].
Qed.

(** ** Invariants of the whole run, for any lines

    The constructor settles the squares one by one: an invariant [I D] speaks
    of the squares [D] settled so far.  [recurse] then keeps [I] of all
    squares through every guess; a guess puts a candidate of a blank square
    on that square. *)

Section Search.

Variable pz : PuzzleModel.
Variable I : (coord -> Prop) -> Board -> Prop.

Hypothesis I_anti :
  forall (D D' : coord -> Prop) s, (forall Z, D' Z -> D Z) -> I D s -> I D' s.
Hypothesis I_blank :
  forall D s X, I D s -> val s X = Some 0%Z -> I (fun Z => D Z \/ Z = X) s.
Hypothesis I_clue :
  forall D s g0 s' fuel key X0, key <> 0%Z -> I D s -> cands_ok s ->
    val s X0 = Some key ->
    grid_set (b s) (fst X0) (snd X0) 0%Z = Some g0 ->
    addNumberLive pz fuel key (fst X0) (snd X0) (mkBoard g0 (M s) (p s)) = (Ok tt, s') ->
    I (fun Z => D Z \/ Z = X0) s'.

Lemma clue_cell fuel i j D s s' :
  I D s -> cands_ok s ->
  (key <- get_b i j ;;
   if negb (key =? 0)%Z then set_b i j 0%Z ;; addNumber pz fuel key i j
   else ret tt) s = (Ok tt, s') ->
  I (fun Z => D Z \/ Z = (i, j)) s' /\ M s' = M s /\ cands_ok s'.
Proof.
  intros HI Hc H. rewrite bind_get_b in H.
  destruct (grid_get (b s) i j) as [key|] eqn:Hv; [|discriminate].
  destruct (Z.eqb_spec key 0) as [->|Hk]; cbn [negb] in H.
  - inversion H; subst. split; [|split]; auto.
  - rewrite bind_set_b in H.
    destruct (grid_set (b s) i j 0%Z) as [g0|] eqn:Hg; [|discriminate].
    rewrite addNumber_live in H.
    split; [exact (I_clue D s g0 s' fuel key (i, j) Hk HI Hc Hv Hg H)|].
    apply addNumberLive_frame in H.
    destruct H as (HM & Hp & _). simpl in HM, Hp.
    split; [assumption | eapply cands_ok_shrinks; eauto].
Qed.

Lemma constructor_inv fuel D s s' :
  I D s -> cands_ok s ->
  updatePossibilities pz fuel s = (Ok tt, s') ->
  I (fun Z => D Z \/ In Z (allSquares (M s))) s' /\ M s' = M s /\ cands_ok s'.
Proof.
  intros HI Hc H. unfold updatePossibilities in H. rewrite bind_get_M in H.
  set (m := M s) in *.
  pose (I' := fun (D : coord -> Prop) (s : Board) => I D s /\ M s = m /\ cands_ok s).
  assert (Hanti' : forall (D D' : coord -> Prop) s0,
            (forall Z, D' Z -> D Z) -> I' D s0 -> I' D' s0).
  { intros D1 D2 s0 HD (H1 & H2 & H3). split; [eapply I_anti; eauto | auto]. }
  assert (Hres : I' (fun Z => D Z \/ exists i, In i (seq 0 m) /\
                     exists j, In j (seq 0 m) /\ Z = (i, j)) s').
  { eapply forM_grow with (I := I')
      (S := fun i Z => exists j, In j (seq 0 m) /\ Z = (i, j));
      [exact Hanti' | | | exact H].
    - intros i D1 s1 s1' _ HI1 Hrun.
      eapply forM_grow with (I := I') (S := fun j Z => Z = (i, j));
        [exact Hanti' | | exact HI1 | exact Hrun].
      intros j D2 s2 s2' _ (H1 & H2 & H3) Hcell.
      destruct (clue_cell _ _ _ _ _ _ H1 H3 Hcell) as (Ha & Hb & Hd).
      split; [assumption|]. split; [congruence | assumption].
    - split; [assumption|]. split; [reflexivity | assumption]. }
  destruct Hres as (H1 & H2 & H3).
  split; [|split; assumption].
  eapply I_anti; [|exact H1].
  intros Z [HZ|HZ]; [left; assumption|]. right.
  apply in_allSquares in HZ. destruct HZ as [Hi Hj].
  exists (fst Z). split; [apply in_seq; lia|].
  exists (snd Z). split; [apply in_seq; lia | destruct Z; reflexivity].
Qed.

Variable D : coord -> Prop.
Hypothesis I_guess :
  forall s s' fuel k X ks, k <> 0%Z -> I D s -> cands_ok s ->
    val s X = Some 0%Z -> grid_get (p s) (fst X) (snd X) = Some ks -> In k ks ->
    addNumberLive pz fuel k (fst X) (snd X) s = (Ok tt, s') ->
    I D s'.

Lemma search_inv : forall fuel level gl s g s',
  I D s -> cands_ok s ->
  recurse pz fuel level gl s = (Ok g, s') ->
  exists sf, I D sf /\ cands_ok sf /\ M sf = M s /\ g = b sf /\
    forall X, In X (allSquares (M sf)) -> exists v, val sf X = Some v /\ v <> 0%Z.
Proof.
  induction fuel as [|n IH]; intros level gl s g s' HI Hc H; [discriminate|].
  cbn [recurse] in H.
  apply bind_Ok in H. destruct H as (u & s1 & Hcheck & H).
  apply check_Ok in Hcheck. subst s1.
  apply bind_Ok in H. destruct H as ([[mn X] gl'] & s2 & Hsel & H).
  apply selectCell_spec in Hsel. destruct Hsel as (-> & Hsel).
  destruct (Nat.eqb_spec mn 100) as [->|Hmn].
  - inversion H; subst. exists s'.
    split; [assumption|]. split; [assumption|]. split; [reflexivity|].
    split; [reflexivity|].
    destruct Hsel as [(_ & _ & Hlt & _) | (_ & _ & Hr & Hmin & _)]; [lia|].
    intros Y HY. destruct (Hr Y HY) as (v & Hv & Hb).
    exists v. split; [assumption|]. intros ->.
    destruct (Hb eq_refl) as (k & Hk).
    pose proof (Hmin _ _ HY Hk) as Hge.
    destruct Hk as (_ & set & Hset & <-).
    destruct (Hc _ _ _ Hset). lia.
  - rewrite bind_get_p in H.
    destruct (grid_get (p s) (fst X) (snd X)) as [ks|] eqn:Hks; [|discriminate].
    apply guess_Ok in H. destruct H as (-> & k & s'' & Hin & Hbody).
    apply bind_Ok in Hbody. destruct Hbody as ([] & sa & Hadd & Hrec).
    assert (Hk : k <> 0%Z).
    { intros ->. destruct (Hc _ _ _ Hks) as [H0 _]. contradiction. }
    assert (HX : val s X = Some 0%Z).
    { destruct Hsel as [(_ & _ & _ & l1 & l2 & _ & [HX _] & _) |
                        (_ & _ & _ & _ & _ & [E | (_ & [HX _] & _)] & _)];
        [assumption | inversion E; contradiction | assumption]. }
    rewrite addNumber_live in Hadd.
    pose proof (I_guess _ _ _ _ _ _ Hk HI Hc HX Hks Hin Hadd) as HIa.
    pose proof (addNumberLive_frame _ _ _ _ _ _ _ Hadd) as (HM & Hp & _).
    pose proof (cands_ok_shrinks _ _ Hc Hp) as Hca.
    destruct (IH _ _ _ _ _ HIa Hca Hrec) as (sf & H1 & H2 & H3 & H4 & H5).
    exists sf. split; [assumption|]. split; [assumption|]. split; [congruence|].
    split; assumption.
Qed.

End Search.

(** The run of [solve] after the tables are built, for any tables. *)
Lemma solve_inv pz (I : (coord -> Prop) -> Board -> Prop) fuel board g :
  (forall (D D' : coord -> Prop) s, (forall Z, D' Z -> D Z) -> I D s -> I D' s) ->
  (forall D s X, I D s -> val s X = Some 0%Z -> I (fun Z => D Z \/ Z = X) s) ->
  (forall D s g0 s' fuel key X0, key <> 0%Z -> I D s -> cands_ok s ->
     val s X0 = Some key ->
     grid_set (b s) (fst X0) (snd X0) 0%Z = Some g0 ->
     addNumberLive pz fuel key (fst X0) (snd X0) (mkBoard g0 (M s) (p s)) = (Ok tt, s') ->
     I (fun Z => D Z \/ Z = X0) s') ->
  (forall s s' fuel k X ks, k <> 0%Z -> I (fun Z => In Z (allSquares 9)) s ->
     cands_ok s ->
     val s X = Some 0%Z -> grid_get (p s) (fst X) (snd X) = Some ks -> In k ks ->
     addNumberLive pz fuel k (fst X) (snd X) s = (Ok tt, s') ->
     I (fun Z => In Z (allSquares 9)) s') ->
  length board = 9 -> I (fun _ => False) (newBoard board) ->
  match updatePossibilities pz fuel (newBoard board) with
  | (Ok _, s) => fst (recurse pz fuel 0 true s)
  | (Raise e, _) => Raise e
  | (OutOfFuel, _) => OutOfFuel
  end = Ok g ->
  exists sf, I (fun Z => In Z (allSquares 9)) sf /\ g = b sf /\ M sf = 9 /\
    cands_ok sf /\
    forall X, In X (allSquares 9) -> exists v, val sf X = Some v /\ v <> 0%Z.
Proof.
  intros Hanti Hblank Hclue Hguess H9 HI0 H.
  destruct (updatePossibilities pz fuel (newBoard board)) as [[[]|e|] s0] eqn:EU;
    try discriminate.
  destruct (constructor_inv pz I Hanti Hblank Hclue fuel _ _ _
              HI0 (cands_ok_newBoard _ H9) EU) as (HI1 & HM & Hc).
  assert (HM9 : M s0 = 9) by (rewrite HM; exact H9).
  assert (HI2 : I (fun Z => In Z (allSquares 9)) s0).
  { eapply Hanti; [|exact HI1]. intros Z HZ. right.
    change (M (newBoard board)) with (length board). rewrite H9. assumption. }
  destruct (recurse pz fuel 0 true s0) as [o s'] eqn:ER. simpl in H. subst o.
  destruct (search_inv pz I _ Hguess _ _ _ _ _ _ HI2 Hc ER)
    as (sf & H1 & H2 & H3 & H4 & H5).
  exists sf. split; [assumption|]. split; [assumption|].
  split; [congruence|]. split; [assumption|].
  rewrite H3, HM9 in H5. assumption.
Qed.

(** ** The grid that [solve] returns keeps the clues and has no blank *)

Lemma solve_cases fuel board greyLines purpleLines g :
  solve fuel board greyLines purpleLines = Ok g ->
  exists pz, readInput greyLines purpleLines = Some pz /\
    match updatePossibilities pz fuel (newBoard board) with
    | (Ok _, s) => fst (recurse pz fuel 0 true s)
    | (Raise e, _) => Raise e
    | (OutOfFuel, _) => OutOfFuel
    end = Ok g.
Proof.
  unfold solve. destruct (readInput greyLines purpleLines) as [pz|]; [|discriminate].
  intros H. exists pz. split; [reflexivity | exact H].
Qed.

(** A call of [addNumber] that the constructor makes for a clue keeps the
    clues on the board. *)
Lemma clues_kept_clue (board : grid Z) pz s g0 s' fuel key X0 :
  (forall X v, grid_get board (fst X) (snd X) = Some v -> v <> 0%Z -> val s X = Some v) ->
  val s X0 = Some key ->
  grid_set (b s) (fst X0) (snd X0) 0%Z = Some g0 ->
  addNumberLive pz fuel key (fst X0) (snd X0) (mkBoard g0 (M s) (p s)) = (Ok tt, s') ->
  forall X v, grid_get board (fst X) (snd X) = Some v -> v <> 0%Z -> val s' X = Some v.
Proof.
  intros HI Hv Hg Hrun X v HX Hnz.
  destruct (addNumberLive_numbers _ _ _ _ _ _ _ Hrun) as [Hkey Hall].
  destruct (coord_eq_dec X X0) as [->|Hne].
  - rewrite (HI _ _ HX Hnz) in Hv. inversion Hv; subst.
    destruct X0; exact Hkey.
  - destruct (val_after_set s (mkBoard g0 (M s) (p s)) X0 0%Z g0 Hg eq_refl)
      as [_ Hoth].
    destruct (Hall X) as [E | [E _]]; rewrite Hoth in E by assumption.
    + rewrite E. auto.
    + rewrite (HI _ _ HX Hnz) in E. inversion E; contradiction.
Qed.

(** The board left by the constructor holds every clue. *)
Lemma clues_kept_root pz fuel board s :
  length board = 9 ->
  updatePossibilities pz fuel (newBoard board) = (Ok tt, s) ->
  forall X v, grid_get board (fst X) (snd X) = Some v -> v <> 0%Z -> val s X = Some v.
Proof.
  intros H9 H.
  pose (I := fun (_ : coord -> Prop) (s : Board) =>
    forall X v, grid_get board (fst X) (snd X) = Some v -> v <> 0%Z -> val s X = Some v).
  destruct (constructor_inv pz I (fun D D' s0 _ HI => HI) (fun D s0 X0 HI _ => HI)
              (fun D s0 g0 s' fuel' key X0 _ HI _ Hv Hg Hrun =>
                 clues_kept_clue board pz s0 g0 s' fuel' key X0 HI Hv Hg Hrun)
              fuel (fun _ => False) (newBoard board) s
              (fun X v HX _ => HX) (cands_ok_newBoard _ H9) H) as (HI & _).
  exact HI.
Qed.

Lemma returned_grid_full fuel board greyLines purpleLines g :
  length board = 9 ->
  solve fuel board greyLines purpleLines = Ok g ->
  (forall X, In X (allSquares 9) ->
     exists v, grid_get g (fst X) (snd X) = Some v /\ v <> 0%Z) /\
  (forall r c v, grid_get board r c = Some v -> v <> 0%Z -> grid_get g r c = Some v).
Proof.
  intros H9 H. apply solve_cases in H. destruct H as (pz & _ & H).
  pose (I := fun (_ : coord -> Prop) (s : Board) =>
    forall X v, grid_get board (fst X) (snd X) = Some v -> v <> 0%Z -> val s X = Some v).
  destruct (solve_inv pz I fuel board g) as (sf & HI & -> & _ & _ & Hfull); auto.
  - intros D s g0 s' fuel' key X0 _ HI _ Hv Hg Hrun.
    exact (clues_kept_clue board pz s g0 s' fuel' key X0 HI Hv Hg Hrun).
  - intros s s' fuel' k X ks Hk HI _ _ _ _ Hrun Y v HY Hnz.
    destruct (addNumberLive_numbers _ _ _ _ _ _ _ Hrun) as [_ Hall].
    destruct (Hall Y) as [E | [E _]].
    + rewrite E. auto.
    + rewrite (HI _ _ HY Hnz) in E. inversion E; contradiction.
  - intros X v HX _. exact HX.
  - split; [exact Hfull|].
    intros r c v Hv Hnz. exact (HI (r, c) v Hv Hnz).
Qed.

(** X5: a grid returned by [solve] for a board with 9 rows has a
    number other than 0 on each of the 81 squares, and has every clue of the
    input on its square. *)
Theorem solve_fills_and_keeps_clues fuel board greyLines purpleLines g :
  length board = 9 ->
  solve fuel board greyLines purpleLines = Ok g ->
  (forall X, In X (allSquares 9) ->
     exists v, grid_get g (fst X) (snd X) = Some v /\ v <> 0%Z) /\
  (forall r c v, grid_get board r c = Some v -> v <> 0%Z -> grid_get g r c = Some v).
Proof.
  exact (returned_grid_full fuel board greyLines purpleLines g).
Qed.

(** ** Puzzles without grey lines: numbers never clash *)

Lemma peer_sym X Y : peer X Y -> peer Y X.
Proof.
  intros [Hne H]. split; [congruence|]. intuition congruence.
Qed.

(** A square of the 9x9 board that shares a row, a column or a 3x3 square
    with [(row, col)] is among the squares that [addNumber] prunes. *)
Lemma peer_pruned row col Y m :
  m = 9 -> In Y (allSquares 9) -> peer (row, col) Y ->
  (fst Y = row /\ snd Y < m) \/ (snd Y = col /\ fst Y < m) \/ In Y (square row col).
Proof.
  intros -> HY [_ H]. apply in_allSquares in HY. cbn [fst snd] in H.
  destruct H as [H | [H | H]].
  - left. split; [congruence | tauto].
  - right; left. split; [congruence | tauto].
  - right; right. apply in_square_block. split; symmetry; tauto.
Qed.

(** Without grey lines [addNumber] writes one square. *)
Lemma addNumberLive_plain pz fuel key row col s s' :
  no_grey pz -> val s (row, col) = Some 0%Z ->
  addNumberLive pz fuel key row col s = (Ok tt, s') ->
  val s' (row, col) = Some key /\ forall Z, Z <> (row, col) -> val s' Z = val s Z.
Proof.
  intros Hng Hv H. destruct fuel as [|n]; [discriminate|].
  destruct (addNumberLive_blank _ _ _ _ _ _ _ Hv H)
    as (g1 & s2 & Hg & Hb & HM & Hp & Hcases).
  destruct (val_after_set s s2 (row, col) key g1 Hg Hb) as [Hsame Hother].
  destruct Hcases as [(Y & Hmir & Hrun) | (Hgr & [[Hpu ->] | (line & Hline & Hrun)])].
  - destruct Hmir as (g & line & gi & Hg0 & Hnz & _). apply Hng in Hg0. contradiction.
  - auto.
  - destruct (purple_loop _ _ _ _ _ _ _ Hrun) as (Hb' & _).
    unfold val in *. rewrite Hb'. auto.
Qed.

Lemma readInput_no_grey purpleLines pz :
  readInput [] purpleLines = Some pz -> no_grey pz /\ greys pz = [].
Proof.
  unfold readInput. cbn [markGreys].
  destruct (markPurples 0 purpleLines zeros) as [pb|]; [|discriminate].
  intros H; inversion H; subst. cbn [isGrey greys]. split; [|reflexivity].
  intros r c g Hg. eapply grid_get_zeros; eauto.
Qed.

(** The candidate set of a square on a later board is part of its set on
    the earlier board. *)
Lemma shrinks_notin s s' r c set' v :
  shrinks (p s) (p s') -> grid_get (p s') r c = Some set' ->
  (forall set, grid_get (p s) r c = Some set -> ~ In v set) -> ~ In v set'.
Proof.
  intros [Hback _] Hset' Hnin Hin.
  destruct (Hback _ _ _ Hset') as (set & Hset & Hincl & _).
  exact (Hnin set Hset (Hincl _ Hin)).
Qed.

Lemma no_clash_run pz fuel board g :
  no_grey pz -> length board = 9 -> no_clash board ->
  match updatePossibilities pz fuel (newBoard board) with
  | (Ok _, s) => fst (recurse pz fuel 0 true s)
  | (Raise e, _) => Raise e
  | (OutOfFuel, _) => OutOfFuel
  end = Ok g ->
  no_clash g.
Proof.
  intros Hng H9 Hclues H.
  pose (I := fun (D : coord -> Prop) (s : Board) =>
    M s = 9 /\ no_clash (b s) /\ pruned D s).
  destruct (solve_inv pz I fuel board g) as (sf & (_ & HI & _) & -> & _); auto.
  - intros D D' s HD (HM & Hnc & Hpr). split; [assumption|]. split; [assumption|].
    intros X Y v set HX. apply Hpr. auto.
  - intros D s X0 (HM & Hnc & Hpr) Hv. split; [assumption|]. split; [assumption|].
    intros X Y v set [HX | ->]; [apply Hpr; assumption|].
    intros _ _ Hv' Hnz. congruence.
  - (* a clue *)
    intros D s g0 s' fuel' key X0 Hk (HM & Hnc & Hpr) _ Hv Hg Hrun.
    destruct (val_after_set s (mkBoard g0 (M s) (p s)) X0 0%Z g0 Hg eq_refl)
      as [Hz Hoth].
    destruct X0 as [r0 c0]. cbn [fst snd] in *.
    destruct (addNumberLive_plain _ _ _ _ _ _ _ Hng Hz Hrun) as [Hkey Hrest].
    assert (Hsame : forall Z, val s' Z = val s Z).
    { intros Z. destruct (coord_eq_dec Z (r0, c0)) as [->|Hne]; [congruence|].
      rewrite Hrest, Hoth by assumption. reflexivity. }
    destruct (addNumberLive_frame _ _ _ _ _ _ _ Hrun) as (HM' & Hp' & _).
    cbn [M p] in HM', Hp'.
    split; [congruence|]. split.
    { intros X Y v HX HY Hpeer. specialize (Hnc X Y v HX HY Hpeer).
      unfold val in Hsame. rewrite (Hsame X), (Hsame Y). exact Hnc. }
    intros X Y v set HX HY Hpeer HvX Hnz HvY Hset.
    destruct (coord_eq_dec X (r0, c0)) as [->|Hne].
    + rewrite Hkey in HvX. inversion HvX; subst v.
      destruct (addNumberLive_prunes _ _ _ _ _ _ _ Hz Hrun Y
                  (peer_pruned _ _ _ _ HM HY Hpeer)) as (w & Hw & Hc).
      unfold val in HvY. rewrite Hw in HvY. inversion HvY; subst w.
      destruct (Hc eq_refl) as (set0 & Hset0 & Hnin). congruence.
    + destruct HX as [HX | HX]; [|contradiction].
      eapply shrinks_notin; [exact Hp' | exact Hset |].
      intros set0 Hset0. rewrite Hsame in HvX, HvY.
      exact (Hpr X Y v set0 HX HY Hpeer HvX Hnz HvY Hset0).
  - (* a guess *)
    intros s s' fuel' k X0 ks Hk (HM & Hnc & Hpr) _ Hv Hks Hin Hrun.
    destruct X0 as [r0 c0]. cbn [fst snd] in *.
    destruct (addNumberLive_plain _ _ _ _ _ _ _ Hng Hv Hrun) as [Hkey Hrest].
    destruct (addNumberLive_frame _ _ _ _ _ _ _ Hrun) as (HM' & Hp' & _).
    split; [congruence|]. split.
    { intros X Y v HX HY Hpeer HvX Hnz HvY.
      change (val s' X = Some v) in HvX. change (val s' Y = Some v) in HvY.
      destruct (coord_eq_dec X (r0, c0)) as [->|HneX].
      - rewrite Hkey in HvX. inversion HvX; subst v.
        assert (HneY : Y <> (r0, c0)) by (destruct Hpeer; congruence).
        rewrite Hrest in HvY by assumption.
        exact (Hpr Y (r0, c0) k ks HY HX (peer_sym _ _ Hpeer) HvY Hnz Hv Hks Hin).
      - rewrite Hrest in HvX by assumption.
        destruct (coord_eq_dec Y (r0, c0)) as [->|HneY].
        + rewrite Hkey in HvY. inversion HvY; subst v.
          exact (Hpr X (r0, c0) k ks HX HY Hpeer HvX Hnz Hv Hks Hin).
        + rewrite Hrest in HvY by assumption.
          exact (Hnc X Y v HX HY Hpeer HvX Hnz HvY). }
    intros X Y v set HX HY Hpeer HvX Hnz HvY Hset.
    assert (HneY : Y <> (r0, c0)) by (intros ->; congruence).
    rewrite Hrest in HvY by assumption.
    destruct (coord_eq_dec X (r0, c0)) as [->|Hne].
    + rewrite Hkey in HvX. inversion HvX; subst v.
      destruct (addNumberLive_prunes _ _ _ _ _ _ _ Hv Hrun Y
                  (peer_pruned _ _ _ _ HM HY Hpeer)) as (w & Hw & Hc).
      assert (Hw0 : val s' Y = Some 0%Z) by (rewrite Hrest by assumption; exact HvY).
      unfold val in Hw0. rewrite Hw in Hw0. inversion Hw0; subst w.
      destruct (Hc eq_refl) as (set0 & Hset0 & Hnin). congruence.
    + rewrite Hrest in HvX by assumption.
      eapply shrinks_notin; [exact Hp' | exact Hset |].
      intros set0 Hset0.
      exact (Hpr X Y v set0 HX HY Hpeer HvX Hnz HvY Hset0).
  - split; [exact H9|]. split; [exact Hclues|].
    intros X Y v set [].
Qed.

(** X6: without grey lines, when no two clues clash, no two
    numbers clash in a returned grid: no number other than 0 stands twice in
    a row, a column or a 3x3 square. *)
Theorem solve_without_grey_never_clashes fuel board purpleLines g :
  length board = 9 -> no_clash board ->
  solve fuel board [] purpleLines = Ok g ->
  no_clash g.
Proof.
  intros H9 Hclues H. apply solve_cases in H. destruct H as (pz & Hpz & H).
  apply readInput_no_grey in Hpz. destruct Hpz as [Hng _].
  exact (no_clash_run pz fuel board g Hng H9 Hclues H).
Qed.

(** ** Where the numbers of the returned grid come from *)

Lemma newBoard_cands board r c set k :
  length board = 9 -> grid_get (p (newBoard board)) r c = Some set -> In k set ->
  (1 <= k <= 9)%Z.
Proof.
  intros H9 Hset Hk. unfold newBoard in Hset. cbv zeta in Hset. cbn [p] in Hset.
  rewrite H9 in Hset. unfold grid_get in Hset.
  destruct (nth_error _ r) as [row|] eqn:Er; [|discriminate].
  apply nth_error_In, repeat_spec in Er. subst row.
  apply nth_error_In, repeat_spec in Hset. subst set.
  apply In_rangeZ in Hk. lia.
Qed.

Lemma returned_numbers fuel board greyLines purpleLines g :
  length board = 9 ->
  solve fuel board greyLines purpleLines = Ok g ->
  forall r c v, grid_get g r c = Some v ->
    (1 <= v <= 9)%Z \/ exists r' c', grid_get board r' c' = Some v.
Proof.
  intros H9 H. apply solve_cases in H. destruct H as (pz & _ & H).
  pose (I := fun (_ : coord -> Prop) (s : Board) =>
    (forall X v, val s X = Some v ->
       (1 <= v <= 9)%Z \/ exists r' c', grid_get board r' c' = Some v) /\
    (forall r c set k, grid_get (p s) r c = Some set -> In k set -> (1 <= k <= 9)%Z)).
  assert (Hcands : forall s s' : Board, shrinks (p s) (p s') ->
            (forall r c set k, grid_get (p s) r c = Some set -> In k set -> (1 <= k <= 9)%Z) ->
            forall r c set k, grid_get (p s') r c = Some set -> In k set -> (1 <= k <= 9)%Z).
  { intros s s' [Hback _] Hc r c set k Hset Hk.
    destruct (Hback _ _ _ Hset) as (set0 & Hset0 & Hincl & _). eauto. }
  destruct (solve_inv pz I fuel board g) as (sf & [HI _] & -> & _); auto.
  - intros D s g0 s' fuel' key X0 Hk [Hv Hc] _ HX0 Hg Hrun.
    destruct (addNumberLive_numbers _ _ _ _ _ _ _ Hrun) as [_ Hall].
    destruct (addNumberLive_frame _ _ _ _ _ _ _ Hrun) as (_ & Hp & _). cbn [p] in Hp.
    destruct (val_after_set s (mkBoard g0 (M s) (p s)) X0 0%Z g0 Hg eq_refl)
      as [_ Hoth].
    split; [|exact (Hcands s s' Hp Hc)].
    intros X v HX. destruct (Hall X) as [E | [_ E]].
    + destruct (coord_eq_dec X X0) as [->|Hne].
      * destruct (Hall X0) as [_ | [_ E']]; [|rewrite E' in HX; inversion HX; subst; eauto].
        destruct (addNumberLive_numbers _ _ _ _ _ _ _ Hrun) as [Hkey _].
        destruct X0; cbn [fst snd] in *. rewrite Hkey in HX. inversion HX; subst. eauto.
      * rewrite E, Hoth in HX by assumption. eauto.
    + rewrite E in HX. inversion HX; subst. eauto.
  - intros s s' fuel' k X ks Hk [Hv Hc] _ HX Hks Hin Hrun.
    destruct (addNumberLive_numbers _ _ _ _ _ _ _ Hrun) as [_ Hall].
    destruct (addNumberLive_frame _ _ _ _ _ _ _ Hrun) as (_ & Hp & _).
    split; [|exact (Hcands s s' Hp Hc)].
    intros Y v HY. destruct (Hall Y) as [E | [_ E]].
    + rewrite E in HY. eauto.
    + rewrite E in HY. inversion HY; subst. left. eauto.
  - split.
    + intros X v HX. right. exists (fst X), (snd X). exact HX.
    + intros r c set k. apply newBoard_cands; assumption.
  - intros r c v Hv. exact (HI (r, c) v Hv).
Qed.

(** X7: every number of a grid returned by [solve] is one of 1
    to 9, or is a number of the input board: guesses are taken from the
    candidate sets, which start as 1 to 9, and the lines only copy numbers. *)
Theorem solve_numbers_from_clues_or_candidates fuel board greyLines purpleLines g :
  length board = 9 ->
  solve fuel board greyLines purpleLines = Ok g ->
  forall r c v, grid_get g r c = Some v ->
    (1 <= v <= 9)%Z \/ exists r' c', grid_get board r' c' = Some v.
Proof.
  exact (returned_numbers fuel board greyLines purpleLines g).
Qed.

(** ** Puzzles without grey lines: the returned grid is a sudoku *)

Lemma NoDup_rect (l1 l2 : list nat) :
  NoDup l1 -> NoDup l2 -> NoDup (flat_map (fun i => map (fun j => (i, j)) l2) l1).
Proof.
  intros H1 H2. induction H1 as [|a t Ha Hnd IH]; cbn [flat_map]; [constructor|].
  apply NoDup_app; [|assumption|].
  - apply NoDup_map_on; [assumption|]. intros x y _ _ Hne E. inversion E; contradiction.
  - intros X HX HX'. apply in_map_iff in HX. destruct HX as (j & <- & _).
    apply in_flat_map in HX'. destruct HX' as (i & Hi & HX').
    apply in_map_iff in HX'. destruct HX' as (j' & E & _). inversion E; subst. contradiction.
Qed.

Lemma length_rect (l1 l2 : list nat) :
  length (flat_map (fun i => map (fun j => (i, j)) l2) l1) = length l1 * length l2.
Proof.
  induction l1 as [|a t IH]; cbn [flat_map length]; [reflexivity|].
  rewrite length_app, length_map, IH. lia.
Qed.

(** Nine squares of the board that pairwise share a row, a column or a 3x3
    square hold 1 to 9 when no number clashes and every number is one of 1
    to 9. *)
Lemma unit_ok_intro g l :
  NoDup l -> length l = 9 ->
  (forall X, In X l -> In X (allSquares 9)) ->
  (forall X Y, In X l -> In Y l -> X <> Y -> peer X Y) ->
  no_clash g ->
  (forall X, In X (allSquares 9) ->
     exists v, grid_get g (fst X) (snd X) = Some v /\ (1 <= v <= 9)%Z) ->
  unit_ok g l.
Proof.
  intros Hnd Hlen Hin Hpeer Hnc Hfull. unfold unit_ok.
  apply NoDup_Permutation_bis.
  - apply NoDup_map_on; [assumption|].
    intros X Y HX HY Hne E.
    destruct (Hfull X (Hin X HX)) as (v & Hv & Hr).
    apply (Hnc X Y v (Hin X HX) (Hin Y HY) (Hpeer X Y HX HY Hne) Hv); [lia|].
    congruence.
  - rewrite !length_map, length_rangeZ. apply Nat.eq_le_incl. symmetry. exact Hlen.
  - intros o Ho. apply in_map_iff in Ho. destruct Ho as (X & <- & HX).
    destruct (Hfull X (Hin X HX)) as (v & -> & Hr).
    apply in_map. apply In_rangeZ. lia.
Qed.

(** X8: without grey lines, when the clues are numbers from 0 to 9
    that do not clash, every row, every column and every 3x3 square of a
    returned grid holds the numbers 1 to 9, each once. *)
Theorem solve_without_grey_is_sudoku fuel board purpleLines g :
  length board = 9 -> no_clash board ->
  (forall r c v, grid_get board r c = Some v -> (0 <= v <= 9)%Z) ->
  solve fuel board [] purpleLines = Ok g ->
  forall r c, r < 9 -> c < 9 ->
    unit_ok g (map (fun j => (r, j)) (seq 0 9)) /\
    unit_ok g (map (fun i => (i, c)) (seq 0 9)) /\
    unit_ok g (square r c).
Proof.
  intros H9 Hclues Hrange H r c Hr Hc.
  assert (Hnc : no_clash g).
  { pose proof H as H'. apply solve_cases in H'. destruct H' as (pz & Hpz & H').
    apply readInput_no_grey in Hpz. destruct Hpz as [Hng _].
    exact (no_clash_run pz fuel board g Hng H9 Hclues H'). }
  assert (Hfull : forall X, In X (allSquares 9) ->
            exists v, grid_get g (fst X) (snd X) = Some v /\ (1 <= v <= 9)%Z).
  { intros X HX.
    destruct (returned_grid_full _ _ _ _ _ H9 H) as [Hfull _].
    destruct (Hfull X HX) as (v & Hv & Hnz). exists v. split; [exact Hv|].
    destruct (returned_numbers _ _ _ _ _ H9 H _ _ _ Hv) as [Hin | (r' & c' & Hb)];
      [exact Hin|].
    pose proof (Hrange _ _ _ Hb). lia. }
  split; [|split].
  - apply unit_ok_intro; [ | | | | exact Hnc | exact Hfull].
    + apply NoDup_map_on; [apply seq_NoDup|]. intros x y _ _ Hne E; inversion E; contradiction.
    + rewrite length_map, length_seq. reflexivity.
    + intros X HX. apply in_map_iff in HX. destruct HX as (j & <- & Hj).
      apply in_seq in Hj. apply in_allSquares. cbn [fst snd]. lia.
    + intros X Y HX HY Hne. apply in_map_iff in HX, HY.
      destruct HX as (j & <- & _), HY as (j' & <- & _).
      split; [assumption | left; reflexivity].
  - apply unit_ok_intro; [ | | | | exact Hnc | exact Hfull].
    + apply NoDup_map_on; [apply seq_NoDup|]. intros x y _ _ Hne E; inversion E; contradiction.
    + rewrite length_map, length_seq. reflexivity.
    + intros X HX. apply in_map_iff in HX. destruct HX as (j & <- & Hj).
      apply in_seq in Hj. apply in_allSquares. cbn [fst snd]. lia.
    + intros X Y HX HY Hne. apply in_map_iff in HX, HY.
      destruct HX as (j & <- & _), HY as (j' & <- & _).
      split; [assumption | right; left; reflexivity].
  - apply unit_ok_intro; [ | | | | exact Hnc | exact Hfull].
    + unfold square. apply NoDup_rect; apply seq_NoDup.
    + unfold square. rewrite length_rect, !length_seq. reflexivity.
    + intros X HX. apply in_square in HX. apply in_allSquares.
      rewrite !block_start in HX.
      pose proof (Nat.div_mod_eq r 3). pose proof (Nat.div_mod_eq c 3).
      pose proof (Nat.mod_upper_bound r 3). pose proof (Nat.mod_upper_bound c 3).
      assert (r / 3 <= 2) by (apply Nat.lt_succ_r, Nat.Div0.div_lt_upper_bound; lia).
      assert (c / 3 <= 2) by (apply Nat.lt_succ_r, Nat.Div0.div_lt_upper_bound; lia).
      lia.
    + intros X Y HX HY Hne. apply in_square_block in HX, HY.
      split; [assumption|]. right; right. split; destruct HX, HY; congruence.
Qed.

(** ** The solver stays on the board and ends *)

Lemma ends_forM X (l : list X) (f : X -> Py unit) (Inv : Board -> Prop) s :
  (forall x s1, In x l -> Inv s1 -> ends (f x) s1 (fun _ => Inv)) ->
  Inv s -> ends (forM_ l f) s (fun _ => Inv).
Proof.
  revert s; induction l as [|x t IH]; intros s Hf Hs; cbn [forM_].
  - exact Hs.
  - pose proof (Hf x s (or_introl eq_refl) Hs) as Hx.
    unfold ends, bind in *.
    destruct (f x s) as [[[]|[]|] s1]; try contradiction; [|exact I].
    apply IH; [|assumption]. intros y s2 Hy. apply Hf. right; assumption.
Qed.

Lemma removePossibility_total key r c s :
  dom_ok s -> In (r, c) (allSquares 9) ->
  exists s', removePossibility key r c s = (Ok tt, s').
Proof.
  intros Hd HX. destruct (Hd _ HX) as [[v Hv] [set Hset]].
  unfold val in Hv; cbn [fst snd] in Hv, Hset.
  unfold removePossibility. rewrite bind_get_b, Hv.
  destruct (v =? 0)%Z; [|eexists; reflexivity].
  rewrite bind_get_p, Hset.
  destruct (in_dec Z.eq_dec key set); [|eexists; reflexivity].
  destruct (grid_set_some _ _ _ _ (remove Z.eq_dec key set) _ Hset) as [g Hg].
  unfold set_p. rewrite Hg. eexists; reflexivity.
Qed.

(** A tame computation leaves every square readable. *)
Lemma dom_ok_shrinks s s' :
  dom_ok s -> b s' = b s -> shrinks (p s) (p s') -> dom_ok s'.
Proof.
  intros Hd Hb [_ Hfwd] X HX. destruct (Hd X HX) as [[v Hv] [set Hset]].
  split; [exists v; unfold val in *; rewrite Hb; exact Hv | eauto].
Qed.

Lemma forM_total_tame X (l : list X) (f : X -> Py unit) s :
  (forall x, tame (f x)) ->
  (forall x s1, In x l -> dom_ok s1 -> exists s2, f x s1 = (Ok tt, s2)) ->
  dom_ok s ->
  exists s', forM_ l f s = (Ok tt, s') /\
    dom_ok s' /\ b s' = b s /\ M s' = M s /\ shrinks (p s) (p s').
Proof.
  intros Ht Hf Hd.
  assert (Hrun : exists s', forM_ l f s = (Ok tt, s')).
  { revert s Hd; induction l as [|x t IH]; intros s Hd; cbn [forM_].
    - eexists; reflexivity.
    - destruct (Hf x s (or_introl eq_refl) Hd) as [s1 H1].
      pose proof (Ht x s) as T. rewrite H1 in T. destruct T as (Hb & _ & Hp).
      unfold bind. rewrite H1. apply IH.
      + intros y s2 Hy. apply Hf. right; assumption.
      + eapply dom_ok_shrinks; eauto. }
  destruct Hrun as [s' Hrun]. exists s'. split; [exact Hrun|].
  pose proof (tame_forM _ l f Ht s) as T. rewrite Hrun in T.
  destruct T as (Hb & HM & Hp).
  split; [eapply dom_ok_shrinks; eauto|]. auto.
Qed.

Lemma square_on_board row col Y :
  In (row, col) (allSquares 9) -> In Y (square row col) -> In Y (allSquares 9).
Proof.
  intros HX HY. apply in_allSquares in HX. cbn [fst snd] in HX.
  apply in_square in HY. apply in_allSquares.
  rewrite !block_start in HY.
  assert (row / 3 <= 2) by (apply Nat.lt_succ_r, Nat.Div0.div_lt_upper_bound; lia).
  assert (col / 3 <= 2) by (apply Nat.lt_succ_r, Nat.Div0.div_lt_upper_bound; lia).
  lia.
Qed.

(** The two pruning loops of [addNumber] end normally on a readable board. *)
Lemma prune_runs key row col s :
  dom_ok s -> In (row, col) (allSquares 9) ->
  exists s1 s2,
    forM_ (seq 0 9) (fun i =>
      removePossibility key row i ;; removePossibility key i col) s = (Ok tt, s1) /\
    forM_ (square row col) (fun ij => removePossibility key (fst ij) (snd ij)) s1
      = (Ok tt, s2) /\
    b s1 = b s /\
    dom_ok s2 /\ b s2 = b s /\ M s2 = M s /\ shrinks (p s) (p s2).
Proof.
  intros Hd HX. pose proof HX as HX'. apply in_allSquares in HX'. cbn [fst snd] in HX'.
  destruct (forM_total_tame _ (seq 0 9)
              (fun i => removePossibility key row i ;; removePossibility key i col) s)
    as (s1 & H1 & Hd1 & Hb1 & HM1 & Hp1); [ | | exact Hd |].
  { intros i. apply tame_bind; [|intros _]; apply tame_removePossibility. }
  { intros i sa Hi Hda. apply in_seq in Hi.
    destruct (removePossibility_total key row i sa Hda) as [sb Hsb];
      [apply in_allSquares; cbn [fst snd]; lia|].
    pose proof (tame_removePossibility key row i sa) as T. rewrite Hsb in T.
    destruct T as (Hb & _ & Hp).
    destruct (removePossibility_total key i col sb) as [sc Hsc];
      [eapply dom_ok_shrinks; eauto | apply in_allSquares; cbn [fst snd]; lia |].
    exists sc. unfold bind. rewrite Hsb. exact Hsc. }
  destruct (forM_total_tame _ (square row col)
              (fun ij => removePossibility key (fst ij) (snd ij)) s1)
    as (s2 & H2 & Hd2 & Hb2 & HM2 & Hp2); [ | | exact Hd1 |].
  { intros ij. apply tame_removePossibility. }
  { intros ij sa Hi Hda. apply removePossibility_total; [assumption|].
    destruct ij; eapply square_on_board; eauto. }
  exists s1, s2. split; [assumption|]. split; [assumption|]. split; [assumption|].
  split; [assumption|]. split; [congruence|]. split; [congruence|].
  eapply shrinks_trans; eauto.
Qed.

Lemma prune_total A key row col (k : Py A) s :
  dom_ok s -> In (row, col) (allSquares 9) ->
  exists s2, dom_ok s2 /\ b s2 = b s /\ M s2 = M s /\ shrinks (p s) (p s2) /\
    (forM_ (seq 0 9) (fun i =>
       removePossibility key row i ;; removePossibility key i col) ;;
     forM_ (square row col) (fun ij => removePossibility key (fst ij) (snd ij)) ;;
     k) s = k s2.
Proof.
  intros Hd HX.
  destruct (prune_runs key row col s Hd HX) as (s1 & s2 & H1 & H2 & _ & Hd2 & Hb & HM & Hp).
  exists s2. split; [assumption|]. split; [assumption|]. split; [assumption|].
  split; [assumption|].
  unfold bind at 1. rewrite H1. unfold bind at 1. rewrite H2. reflexivity.
Qed.

Lemma dom_ok_set_b s r c v g :
  dom_ok s -> grid_set (b s) r c v = Some g -> dom_ok (mkBoard g (M s) (p s)).
Proof.
  intros Hd Hg X HX. destruct (Hd X HX) as [[w Hw] Hset]. split; [|exact Hset].
  unfold val in *. cbn [b].
  destruct (grid_get g (fst X) (snd X)) as [w'|] eqn:E; [eauto|].
  exfalso. eapply grid_set_domain_fwd; [exact Hg | | exact E]. congruence.
Qed.

Lemma purpleCellLive_ends key row col len rc s :
  dom_ok s -> In rc (allSquares 9) ->
  ends (purpleCellLive key row col len rc) s (fun _ s' => dom_ok s' /\ M s' = M s).
Proof.
  intros Hd HX. destruct rc as [r c]. destruct (Hd _ HX) as [[v Hv] _].
  unfold val in Hv; cbn [fst snd] in Hv.
  unfold ends, purpleCellLive. rewrite bind_get_b, Hv.
  destruct (negb (v =? 0)%Z && (negb (r =? row) || negb (c =? col))).
  - destruct ((v =? key) || (v <=? key - len) || (v >=? key + len))%Z; simpl; auto.
  - rewrite bind_get_M.
    destruct (forM_total_tame _ (rangeZ 0 (key - len + 1))
                (fun i => removePossibility i r c) s)
      as (s1 & H1 & Hd1 & Hb1 & HM1 & Hp1); [ | | exact Hd |].
    { intros; apply tame_removePossibility. }
    { intros; apply removePossibility_total; assumption. }
    destruct (forM_total_tame _ (rangeZ (key + len) (Z.of_nat (M s)))
                (fun i => removePossibility i r c) s1)
      as (s2 & H2 & Hd2 & Hb2 & HM2 & Hp2); [ | | exact Hd1 |].
    { intros; apply tame_removePossibility. }
    { intros; apply removePossibility_total; assumption. }
    unfold bind. rewrite H1, H2. split; [assumption | congruence].
Qed.

(** [addNumber] on a square of the board never reads or writes outside the
    board. *)
Lemma addNumberLive_in_bounds pz fuel : forall key r c s,
  tables_ok pz -> dom_ok s -> M s = 9 -> In (r, c) (allSquares 9) ->
  fst (addNumberLive pz fuel key r c s) <> Raise IndexError.
Proof.
  induction fuel as [|n IH]; intros key r c s Ht Hd HM HX; [simpl; discriminate|].
  cbn [addNumberLive]. rewrite bind_get_b.
  destruct (Hd _ HX) as [[v Hv] _]. unfold val in Hv; cbn [fst snd] in Hv. rewrite Hv.
  destruct (Z.eqb_spec v 0) as [->|Hnz]; cbn [negb].
  2:{ destruct (negb (v =? key)%Z); simpl; discriminate. }
  destruct (grid_set_some _ _ _ _ key _ Hv) as [g Hg].
  rewrite bind_set_b, Hg, bind_get_M. cbn [M]. rewrite HM.
  pose proof (dom_ok_set_b _ _ _ _ _ Hd Hg) as Hd1. rewrite HM in Hd1.
  match goal with |- fst (bind _ (fun _ => bind _ (fun _ => ?k)) ?s1) <> _ =>
    destruct (prune_total _ key r c k s1 Hd1 HX) as (s2 & Hd2 & Hb2 & HM2 & _ & ->)
  end.
  cbn [M] in HM2.
  destruct Ht as (Hgreys & Hgrey & Hpurple).
  destruct (Hgrey _ HX) as (gr & Hgr & Hmir). cbn [fst snd] in Hgr.
  rewrite bind_of_option, Hgr.
  destruct (Nat.eqb_spec gr 0) as [->|Hg0]; cbn [negb].
  - destruct (Hpurple _ HX) as (pu & Hpu & Hline). cbn [fst snd] in Hpu.
    rewrite bind_of_option, Hpu.
    destruct (Nat.eqb_spec pu 0) as [->|Hp0]; cbn [negb]; [simpl; discriminate|].
    destruct (Hline Hp0) as (line & Hnth & Hin).
    rewrite bind_of_option, Hnth.
    pose proof (ends_forM _ line (purpleCellLive key r c (Z.of_nat (length line)))
                  (fun s => dom_ok s /\ M s = 9) s2) as He.
    unfold ends in He.
    destruct (forM_ line _ s2) as [[[]|[]|] s3]; simpl; try discriminate.
    + exfalso. apply He; [|auto].
      intros Y s1 HY [Hda HMa].
      pose proof (purpleCellLive_ends key r c (Z.of_nat (length line)) Y s1 Hda
                    (Hin Y HY)) as Hc.
      unfold ends in *. destruct (purpleCellLive _ _ _ _ _ s1) as [[[]|[]|] sb]; auto.
      destruct Hc; split; [assumption | congruence].
  - destruct (Hmir Hg0) as (Y & (g' & line & gi & Hg' & _ & Hline & Hgi & HY) & HYin).
    cbn [fst snd] in Hg', Hgi. rewrite Hgr in Hg'. inversion Hg'; subst g'.
    rewrite bind_of_option, Hline, bind_of_option, Hgi, bind_of_option, HY.
    apply IH; [repeat split; assumption | assumption | assumption |].
    destruct Y; exact HYin.
Qed.

(** Writing a square changes the count of blanks by that square alone. *)
Lemma blanks_grid_set g r c x v g' :
  grid_get g r c = Some x -> grid_set g r c v = Some g' ->
  blanks g' + blank x = blanks g + blank v.
Proof.
  unfold grid_get, grid_set, blanks; intros Hget Hset.
  destruct (nth_error g r) as [row|] eqn:Er; try discriminate.
  destruct (list_set row c v) as [row'|] eqn:Ec; try discriminate.
  pose proof (list_set_sum _ blank _ _ _ _ _ Hget Ec) as H1.
  pose proof (list_set_sum _ (fun row => list_sum (map blank row)) _ _ _ _ _ Er Hset) as H2.
  cbv beta in H2. lia.
Qed.

(** [addNumber] never adds a blank, and fills the blank it is called on. *)
Lemma addNumberLive_blanks pz fuel : forall key r c s s',
  key <> 0%Z ->
  addNumberLive pz fuel key r c s = (Ok tt, s') ->
  blanks (b s') <= blanks (b s) /\
  (val s (r, c) = Some 0%Z -> blanks (b s') < blanks (b s)).
Proof.
  induction fuel as [|n IH]; intros key r c s s' Hk H; [discriminate|].
  destruct (val s (r, c)) as [v|] eqn:Hv;
    [|exfalso; eapply addNumberLive_unreadable; eauto].
  destruct (Z.eq_dec v 0) as [->|Hnz].
  2:{ rewrite (addNumberLive_assigned _ _ _ _ _ _ _ Hv Hnz) in H.
      destruct (v =? key)%Z; [|discriminate]. inversion H; subst.
      split; [lia | intros E; inversion E; contradiction]. }
  destruct (addNumberLive_blank _ _ _ _ _ _ _ Hv H)
    as (g1 & s2 & Hg & Hb & HM & Hp & Hcases).
  pose proof (blanks_set _ _ _ _ _ Hv Hg Hk) as Hset. rewrite <- Hb in Hset.
  assert (Hle : blanks (b s') <= blanks (b s2)).
  { destruct Hcases as [(Y & Hmir & Hrun) | (Hgr & [[Hpu ->] | (line & Hline & Hrun)])].
    - apply (IH _ _ _ _ _ Hk Hrun).
    - lia.
    - destruct (purple_loop _ _ _ _ _ _ _ Hrun) as (Hb' & _). rewrite Hb'. lia. }
  split; [lia | intros _; lia].
Qed.

Lemma addNumberLive_ends pz fuel key r c s :
  tables_ok pz -> dom_ok s -> M s = 9 -> In (r, c) (allSquares 9) ->
  key <> 0%Z -> blanks (b s) < fuel ->
  ends (addNumberLive pz fuel key r c) s (fun _ s' =>
    dom_ok s' /\ M s' = 9 /\ shrinks (p s) (p s') /\
    blanks (b s') <= blanks (b s) /\
    (val s (r, c) = Some 0%Z -> blanks (b s') < blanks (b s))).
Proof.
  intros Ht Hd HM HX Hk Hlt.
  pose proof (addNumberLive_in_bounds pz fuel key r c s Ht Hd HM HX) as Hi.
  pose proof (addNumberLive_fuel pz fuel key r c s Hk Hlt) as Hf.
  unfold ends.
  destruct (addNumberLive pz fuel key r c s) as [[[]|[]|] s'] eqn:E; simpl in *;
    try congruence; [|exact I].
  destruct (addNumberLive_frame _ _ _ _ _ _ _ E) as (HM' & Hp & _).
  destruct (addNumberLive_blanks _ _ _ _ _ _ _ Hk E) as [Hle Hlt'].
  split; [eapply dom_ok_step; eauto|]. split; [congruence|]. auto.
Qed.

(** The constructor on a readable board with enough fuel. *)
Lemma updatePossibilities_ends pz fuel s :
  tables_ok pz -> dom_ok s -> M s = 9 -> cands_ok s -> blanks (b s) + 2 <= fuel ->
  ends (updatePossibilities pz fuel) s (fun _ s' =>
    dom_ok s' /\ M s' = 9 /\ cands_ok s' /\ blanks (b s') <= blanks (b s)).
Proof.
  intros Ht Hd HM Hc Hfuel.
  unfold updatePossibilities, ends. rewrite bind_get_M, HM.
  set (Inv := fun s' : Board =>
    dom_ok s' /\ M s' = 9 /\ cands_ok s' /\ blanks (b s') <= blanks (b s)).
  change (ends (forM_ (seq 0 9) (fun i => forM_ (seq 0 9) (fun j =>
            key <- get_b i j ;;
            if negb (key =? 0)%Z then set_b i j 0%Z ;; addNumber pz fuel key i j
            else ret tt))) s (fun _ => Inv)).
  apply ends_forM; [|unfold Inv; auto].
  intros i s1 Hi H1. apply ends_forM; [|exact H1].
  intros j s2 Hj (Hd2 & HM2 & Hc2 & Hb2).
  apply in_seq in Hi. apply in_seq in Hj.
  assert (HX : In (i, j) (allSquares 9)) by (apply in_allSquares; cbn [fst snd]; lia).
  destruct (Hd2 _ HX) as [[key Hv] _]. unfold val in Hv; cbn [fst snd] in Hv.
  unfold ends. rewrite bind_get_b, Hv.
  destruct (Z.eqb_spec key 0) as [->|Hk]; cbn [negb].
  { unfold Inv; simpl; auto. }
  destruct (grid_set_some _ _ _ _ 0%Z _ Hv) as [g0 Hg].
  rewrite bind_set_b, Hg, addNumber_live.
  pose proof (blanks_grid_set _ _ _ _ _ _ Hv Hg) as Hbl.
  unfold blank in Hbl. destruct (Z.eqb_spec key 0) as [|_]; [contradiction|].
  cbn [Z.eqb] in Hbl.
  set (s0 := mkBoard g0 (M s2) (p s2)).
  assert (Hz : val s0 (i, j) = Some 0%Z).
  { unfold val, s0; cbn [b fst snd]. eapply grid_get_set_same; eauto. }
  pose proof (addNumberLive_ends pz fuel key i j s0 Ht
                (dom_ok_set_b _ _ _ _ _ Hd2 Hg) HM2 HX Hk) as He.
  unfold ends in He.
  assert (Hb0 : blanks (b s0) = blanks (b s2) + 1) by (unfold s0; cbn [b]; lia).
  destruct (addNumberLive pz fuel key i j s0) as [[[]|[]|] s3]; try (apply He; lia).
  destruct He as (Hd3 & HM3 & Hp3 & _ & Hlt3); [lia|].
  specialize (Hlt3 Hz). change (p s0) with (p s2) in Hp3.
  unfold Inv. split; [assumption|]. split; [assumption|].
  split; [eapply cands_ok_shrinks; eauto | lia].
Qed.

Lemma guess_settled A (body : Z -> Py A) ks s :
  (forall k, In k ks -> settled (fst (body k s))) ->
  settled (fst (guess body ks s)).
Proof.
  induction ks as [|k t IH]; intros H; cbn [guess].
  - right; reflexivity.
  - pose proof (H k (or_introl eq_refl)) as Hk.
    destruct (body k s) as [[a|[]|] s1]; simpl in *.
    + left; eauto.
    + apply IH. intros; apply H; right; assumption.
    + destruct Hk as [[a Ha] | Ha]; discriminate.
    + destruct Hk as [[a Ha] | Ha]; discriminate.
Qed.

(** The search from a readable board with enough fuel. *)
Lemma recurse_settled pz : forall fuel level gl s,
  tables_ok pz -> dom_ok s -> M s = 9 -> cands_ok s -> blanks (b s) + 2 <= fuel ->
  settled (fst (recurse pz fuel level gl s)).
Proof.
  induction fuel as [|n IH]; intros level gl s Ht Hd HM Hc Hfuel; [lia|].
  destruct n as [|n]; [lia|].
  cbn [recurse].
  rewrite (bind_Ok_intro _ _ _ _ _ _ _ (check_Ok_full pz n s HM Hd)).
  destruct Ht as (Hgreys & Hgrey & Hpurple).
  destruct (selectCell_total pz gl s HM Hd Hgreys) as [[[mn X] gl'] Hsel].
  { intros X HX. destruct (Hpurple X HX) as (pu & Hpu & _). eauto. }
  rewrite (bind_Ok_intro _ _ _ _ _ _ _ Hsel). cbv iota beta.
  destruct (Nat.eqb_spec mn 100) as [->|Hmn]; [left; simpl; eauto|].
  apply selectCell_spec in Hsel. destruct Hsel as (_ & Hsel).
  assert (HX : In X (allSquares 9) /\ blankAt s X mn).
  { destruct Hsel as [(_ & _ & _ & l1 & l2 & Hl & HX & _) |
                      (_ & _ & _ & _ & _ & [E | (HX1 & HX2 & _)] & _)].
    - split; [|assumption]. apply Hgreys. rewrite Hl. apply in_elt.
    - inversion E; contradiction.
    - rewrite HM in HX1. auto. }
  destruct HX as [HXin (HXv & ks & Hks & _)].
  rewrite bind_get_p, Hks.
  apply guess_settled. intros k Hk.
  assert (Hk0 : k <> 0%Z).
  { intros ->. destruct (Hc _ _ _ Hks) as [H0 _]. contradiction. }
  unfold bind at 1. rewrite addNumber_live.
  pose proof (addNumberLive_ends pz (S n) k (fst X) (snd X) s
                (conj Hgreys (conj Hgrey Hpurple)) Hd HM) as He.
  unfold ends in He.
  destruct (addNumberLive pz (S n) k (fst X) (snd X) s) as [[[]|[]|] sa];
    try (exfalso; apply He; [destruct X; exact HXin | exact Hk0 | lia]).
  - destruct He as (Hda & HMa & Hpa & _ & Hlt);
      [destruct X; exact HXin | exact Hk0 | lia |].
    apply IH; [repeat split; assumption | assumption | assumption | |].
    + eapply cands_ok_shrinks; eauto.
    + assert (blanks (b sa) < blanks (b s)) by (apply Hlt; destruct X; exact HXv). lia.
  - right; reflexivity.
Qed.

(** ** The tables are built when, and only when, the lines are on the board *)

Lemma zeros_is9x9 : is9x9 zeros.
Proof.
  intros r c. split; [apply zeros_domain | apply zeros_readable].
Qed.

Lemma grid_set_is9x9 A (g : grid A) r c v g' :
  is9x9 g -> grid_set g r c v = Some g' -> is9x9 g'.
Proof.
  intros Hg Hset r' c'. split; intros H.
  - apply Hg. eapply grid_set_domain; eauto.
  - apply Hg in H. eapply grid_set_domain_fwd; eauto.
Qed.

Lemma grid_set_on_board A (g : grid A) r c v :
  is9x9 g -> In (r, c) (allSquares 9) -> exists g', grid_set g r c v = Some g'.
Proof.
  intros Hg HX. apply Hg in HX.
  destruct (grid_get g r c) as [x|] eqn:E; [|contradiction].
  eapply grid_set_some; eauto.
Qed.

Lemma grid_set_off_board A (g : grid A) r c v :
  is9x9 g -> ~ In (r, c) (allSquares 9) -> grid_set g r c v = None.
Proof.
  intros Hg HX. destruct (grid_set g r c v) as [g'|] eqn:E; [|reflexivity].
  exfalso. apply HX, Hg. destruct (grid_set_readable _ _ _ _ _ _ E) as [x Hx]. congruence.
Qed.

Lemma on_board_dec (X : coord) : {In X (allSquares 9)} + {~ In X (allSquares 9)}.
Proof.
  apply in_dec, coord_eq_dec.
Qed.

Lemma markGrey_on_board i : forall line j tabs,
  is9x9 (fst tabs) -> is9x9 (snd tabs) ->
  match markGrey i j line tabs with
  | Some tabs' =>
      is9x9 (fst tabs') /\ is9x9 (snd tabs') /\
      forall X, In X line -> In X (allSquares 9)
  | None => exists X, In X line /\ ~ In X (allSquares 9)
  end.
Proof.
  induction line as [|[row col] t IH]; intros j tabs H1 H2; cbn [markGrey].
  - split; [assumption|]. split; [assumption|]. intros X [].
  - destruct (on_board_dec (row, col)) as [Hin|Hout].
    + destruct (grid_set_on_board _ _ _ _ (i + 1) H1 Hin) as [gb Hgb].
      destruct (grid_set_on_board _ _ _ _ j H2 Hin) as [gi Hgi].
      rewrite Hgb, Hgi.
      specialize (IH (S j) (gb, gi) (grid_set_is9x9 _ _ _ _ _ _ H1 Hgb)
                    (grid_set_is9x9 _ _ _ _ _ _ H2 Hgi)).
      destruct (markGrey i (S j) t (gb, gi)) as [tabs'|].
      * destruct IH as (Ha & Hb & Hc). split; [assumption|]. split; [assumption|].
        intros X [<-|HX]; auto.
      * destruct IH as (X & HX & Hout). exists X. split; [right; assumption | assumption].
    + rewrite (grid_set_off_board _ _ _ _ (i + 1) H1 Hout).
      exists (row, col). split; [left; reflexivity | assumption].
Qed.

Lemma markGreys_on_board : forall lines i tabs,
  is9x9 (fst tabs) -> is9x9 (snd tabs) ->
  match markGreys i lines tabs with
  | Some tabs' =>
      is9x9 (fst tabs') /\ is9x9 (snd tabs') /\
      forall X, In X (concat lines) -> In X (allSquares 9)
  | None => exists X, In X (concat lines) /\ ~ In X (allSquares 9)
  end.
Proof.
  induction lines as [|line t IH]; intros i tabs H1 H2; cbn [markGreys concat].
  - split; [assumption|]. split; [assumption|]. intros X [].
  - pose proof (markGrey_on_board i line 0 tabs H1 H2) as Hl.
    destruct (markGrey i 0 line tabs) as [tabs1|].
    + destruct Hl as (Ha & Hb & Hc). specialize (IH (S i) tabs1 Ha Hb).
      destruct (markGreys (S i) t tabs1) as [tabs'|].
      * destruct IH as (Ha' & Hb' & Hc'). split; [assumption|]. split; [assumption|].
        intros X HX. apply in_app_or in HX. destruct HX; auto.
      * destruct IH as (X & HX & Hout). exists X. split; [|assumption].
        apply in_or_app; right; assumption.
    + destruct Hl as (X & HX & Hout). exists X. split; [|assumption].
      apply in_or_app; left; assumption.
Qed.

Lemma markPurple_on_board i : forall line tab,
  is9x9 tab ->
  match markPurple i line tab with
  | Some tab' => is9x9 tab' /\ forall X, In X line -> In X (allSquares 9)
  | None => exists X, In X line /\ ~ In X (allSquares 9)
  end.
Proof.
  induction line as [|[row col] t IH]; intros tab H1; cbn [markPurple].
  - split; [assumption|]. intros X [].
  - destruct (on_board_dec (row, col)) as [Hin|Hout].
    + destruct (grid_set_on_board _ _ _ _ (i + 1) H1 Hin) as [gb Hgb].
      rewrite Hgb.
      specialize (IH gb (grid_set_is9x9 _ _ _ _ _ _ H1 Hgb)).
      destruct (markPurple i t gb) as [tab'|].
      * destruct IH as (Ha & Hc). split; [assumption|].
        intros X [<-|HX]; auto.
      * destruct IH as (X & HX & Hout). exists X. split; [right; assumption | assumption].
    + rewrite (grid_set_off_board _ _ _ _ (i + 1) H1 Hout).
      exists (row, col). split; [left; reflexivity | assumption].
Qed.

Lemma markPurples_on_board : forall lines i tab,
  is9x9 tab ->
  match markPurples i lines tab with
  | Some tab' => is9x9 tab' /\ forall X, In X (concat lines) -> In X (allSquares 9)
  | None => exists X, In X (concat lines) /\ ~ In X (allSquares 9)
  end.
Proof.
  induction lines as [|line t IH]; intros i tab H1; cbn [markPurples concat].
  - split; [assumption|]. intros X [].
  - pose proof (markPurple_on_board i line tab H1) as Hl.
    destruct (markPurple i line tab) as [tab1|].
    + destruct Hl as (Ha & Hc). specialize (IH (S i) tab1 Ha).
      destruct (markPurples (S i) t tab1) as [tab'|].
      * destruct IH as (Ha' & Hc'). split; [assumption|].
        intros X HX. apply in_app_or in HX. destruct HX; auto.
      * destruct IH as (X & HX & Hout). exists X. split; [|assumption].
        apply in_or_app; right; assumption.
    + destruct Hl as (X & HX & Hout). exists X. split; [|assumption].
      apply in_or_app; left; assumption.
Qed.

Lemma readInput_on_board greyLines purpleLines :
  match readInput greyLines purpleLines with
  | Some pz =>
      is9x9 (isGrey pz) /\ is9x9 (greyIndexes pz) /\ is9x9 (isPurple pz) /\
      forall X, In X (concat greyLines ++ concat purpleLines) -> In X (allSquares 9)
  | None =>
      exists X, In X (concat greyLines ++ concat purpleLines) /\ ~ In X (allSquares 9)
  end.
Proof.
  unfold readInput.
  pose proof (markGreys_on_board greyLines 0 (zeros, zeros) zeros_is9x9 zeros_is9x9) as Hg.
  destruct (markGreys 0 greyLines (zeros, zeros)) as [[gb gi]|].
  - destruct Hg as (Ha & Hb & Hc). cbn [fst snd] in Ha, Hb.
    pose proof (markPurples_on_board purpleLines 0 zeros zeros_is9x9) as Hp.
    destruct (markPurples 0 purpleLines zeros) as [pb|].
    + destruct Hp as (Ha' & Hc'). cbn [isGrey greyIndexes isPurple].
      split; [assumption|]. split; [assumption|]. split; [assumption|].
      intros X HX. apply in_app_or in HX. destruct HX; auto.
    + destruct Hp as (X & HX & Hout). exists X. split; [|assumption].
      apply in_or_app; right; assumption.
  - destruct Hg as (X & HX & Hout). exists X. split; [|assumption].
    apply in_or_app; left; assumption.
Qed.


(** ** The tables point into the lines, whatever the lines *)

Lemma markGrey_writer lines i full :
  nth_error lines i = Some full ->
  forall rest j tabs tabs',
    (forall k X, nth_error rest k = Some X -> nth_error full (j + k) = Some X) ->
    grey_written lines tabs ->
    markGrey i j rest tabs = Some tabs' ->
    grey_written lines tabs'.
Proof.
  intros Hfull. induction rest as [|[row col] t IH]; intros j tabs tabs' Hrest Hw H;
    cbn [markGrey] in H.
  - inversion H; subst. assumption.
  - destruct (grid_set (fst tabs) row col (i + 1)) as [gb|] eqn:Hgb; [|discriminate].
    destruct (grid_set (snd tabs) row col j) as [gi|] eqn:Hgi; [|discriminate].
    apply (IH (S j) (gb, gi) tabs'); [ | | exact H].
    + intros k X HX. replace (S j + k) with (j + S k) by lia. apply Hrest. exact HX.
    + intros r c g Hg Hnz. cbn [fst snd] in *.
      destruct (coord_eq_dec (r, c) (row, col)) as [E|Hne].
      * inversion E; subst r c.
        rewrite (grid_get_set_same _ _ _ _ _ _ Hgb) in Hg. inversion Hg; subst g.
        exists full, j. replace (i + 1 - 1) with i by lia.
        split; [assumption|]. split; [eapply grid_get_set_same; eauto|].
        specialize (Hrest 0 (row, col) eq_refl). rewrite Nat.add_0_r in Hrest. exact Hrest.
      * rewrite (grid_get_set_other _ _ _ _ _ _ _ _ Hgb Hne) in Hg.
        rewrite (grid_get_set_other _ _ _ _ _ _ _ _ Hgi Hne).
        exact (Hw r c g Hg Hnz).
Qed.

Lemma markGreys_writer all : forall rest i tabs tabs',
  (forall n line, nth_error rest n = Some line -> nth_error all (i + n) = Some line) ->
  grey_written all tabs ->
  markGreys i rest tabs = Some tabs' ->
  grey_written all tabs'.
Proof.
  induction rest as [|line t IH]; intros i tabs tabs' Hrest Hw H; cbn [markGreys] in H.
  - inversion H; subst. assumption.
  - destruct (markGrey i 0 line tabs) as [tabs1|] eqn:E1; [|discriminate].
    apply (IH (S i) tabs1 tabs'); [ | | exact H].
    + intros n l Hn. replace (S i + n) with (i + S n) by lia. apply Hrest. exact Hn.
    + eapply (markGrey_writer all i line); [ | | exact Hw | exact E1].
      * specialize (Hrest 0 line eq_refl). rewrite Nat.add_0_r in Hrest. exact Hrest.
      * intros k X HX. exact HX.
Qed.

Lemma markPurple_writer lines i full :
  nth_error lines i = Some full ->
  forall rest tab tab',
    (forall X, In X rest -> In X full) ->
    purple_written lines tab ->
    markPurple i rest tab = Some tab' ->
    purple_written lines tab'.
Proof.
  intros Hfull. induction rest as [|[row col] t IH]; intros tab tab' Hrest Hw H;
    cbn [markPurple] in H.
  - inversion H; subst. assumption.
  - destruct (grid_set tab row col (i + 1)) as [gb|] eqn:Hgb; [|discriminate].
    apply (IH gb tab'); [intros X HX; apply Hrest; right; exact HX | | exact H].
    intros r c pu Hpu Hnz.
    destruct (coord_eq_dec (r, c) (row, col)) as [E|Hne].
    + inversion E; subst r c.
      rewrite (grid_get_set_same _ _ _ _ _ _ Hgb) in Hpu. inversion Hpu; subst pu.
      exists full. replace (i + 1 - 1) with i by lia.
      split; [assumption | apply Hrest; left; reflexivity].
    + rewrite (grid_get_set_other _ _ _ _ _ _ _ _ Hgb Hne) in Hpu.
      exact (Hw r c pu Hpu Hnz).
Qed.

Lemma markPurples_writer all : forall rest i tab tab',
  (forall n line, nth_error rest n = Some line -> nth_error all (i + n) = Some line) ->
  purple_written all tab ->
  markPurples i rest tab = Some tab' ->
  purple_written all tab'.
Proof.
  induction rest as [|line t IH]; intros i tab tab' Hrest Hw H; cbn [markPurples] in H.
  - inversion H; subst. assumption.
  - destruct (markPurple i line tab) as [tab1|] eqn:E1; [|discriminate].
    apply (IH (S i) tab1 tab'); [ | | exact H].
    + intros n l Hn. replace (S i + n) with (i + S n) by lia. apply Hrest. exact Hn.
    + eapply (markPurple_writer all i line); [ | | exact Hw | exact E1].
      * specialize (Hrest 0 line eq_refl). rewrite Nat.add_0_r in Hrest. exact Hrest.
      * intros X HX. exact HX.
Qed.

Lemma in_concat_nth A (lines : list (list A)) n line x :
  nth_error lines n = Some line -> In x line -> In x (concat lines).
Proof.
  intros Hn Hx. apply in_concat. exists line. split; [|assumption].
  eapply nth_error_In; eauto.
Qed.

(** The tables of a puzzle that was read point into its lines, also when a
    square lies on several lines: the last line written wins in all tables
    alike. *)
Lemma readInput_written greyLines purpleLines pz :
  readInput greyLines purpleLines = Some pz ->
  greys pz = greyLines /\ purples pz = map (nodup coord_eq_dec) purpleLines /\
  grey_written greyLines (isGrey pz, greyIndexes pz) /\
  purple_written purpleLines (isPurple pz).
Proof.
  intros H. unfold readInput in H.
  destruct (markGreys 0 greyLines (zeros, zeros)) as [[gb gi]|] eqn:EG; [|discriminate].
  destruct (markPurples 0 purpleLines zeros) as [pb|] eqn:EP; [|discriminate].
  inversion H; subst pz; clear H. cbn [isGrey greyIndexes isPurple greys purples].
  split; [reflexivity|]. split; [reflexivity|]. split.
  - eapply (markGreys_writer greyLines greyLines 0 (zeros, zeros)); [ | | exact EG].
    + intros n line Hn. exact Hn.
    + intros r c g Hg Hnz. apply grid_get_zeros in Hg. contradiction.
  - eapply (markPurples_writer purpleLines purpleLines 0 zeros); [ | | exact EP].
    + intros n line Hn. exact Hn.
    + intros r c g Hg Hnz. apply grid_get_zeros in Hg. contradiction.
Qed.

(** So every lookup of the solver stays on the board. *)
Lemma readInput_tables_ok greyLines purpleLines pz :
  readInput greyLines purpleLines = Some pz -> tables_ok pz.
Proof.
  intros H.
  pose proof (readInput_on_board greyLines purpleLines) as Hb. rewrite H in Hb.
  destruct Hb as (Hg9 & Hi9 & Hp9 & Hin).
  destruct (readInput_written _ _ _ H) as (Egl & Epl & Hgw & Hpw).
  split; [|split].
  - rewrite Egl. intros X HX. apply Hin. apply in_or_app; left; assumption.
  - intros [r c] HX. cbn [fst snd].
    destruct (grid_get (isGrey pz) r c) as [g|] eqn:Eg;
      [|exfalso; apply (Hg9 r c); assumption].
    exists g. split; [reflexivity|]. intros Hnz.
    destruct (Hgw r c g Eg Hnz) as (line & k & Hline & Hk & HX'). cbn [fst snd] in Hk.
    assert (Hlt : k < length line) by (apply nth_error_Some; congruence).
    destruct (nth_error line (length line - 1 - k)) as [Y|] eqn:EY.
    2:{ apply nth_error_None in EY. lia. }
    exists Y. split.
    + exists g, line, k. cbn [fst snd]. rewrite Egl.
      split; [assumption|]. split; [assumption|]. split; [assumption|].
      split; [assumption|]. rewrite py_index_mirror by assumption. exact EY.
    + apply Hin. apply in_or_app; left.
      eapply in_concat_nth; [exact Hline | eapply nth_error_In; eauto].
  - intros [r c] HX. cbn [fst snd].
    destruct (grid_get (isPurple pz) r c) as [pu|] eqn:Ep;
      [|exfalso; apply (Hp9 r c); assumption].
    exists pu. split; [reflexivity|]. intros Hnz.
    destruct (Hpw r c pu Ep Hnz) as (line & Hline & _).
    exists (nodup coord_eq_dec line). split.
    + rewrite Epl, nth_error_map, Hline. reflexivity.
    + intros Y HY. apply nodup_In in HY. apply Hin. apply in_or_app; right.
      eapply in_concat_nth; eauto.
Qed.

(** X10: the tables that the input reading builds point into the
    lines, whatever the lines are.  A square marked [g] in [greyBoard] stands
    at the index stored in [greyIndexes] in grey line [g - 1]; a square
    marked [pu] in [purpleBoard] is on purple line [pu - 1]; a grey square of
    the board has its mirror square on the board, and the line of a purple
    square of the board lies on the board.  When a square is on several
    lines, the line read last owns it in every table. *)
Theorem readInput_tables_point_into_lines greyLines purpleLines pz :
  readInput greyLines purpleLines = Some pz ->
  (forall r c g, grid_get (isGrey pz) r c = Some g -> g <> 0 ->
     exists line k, nth_error greyLines (g - 1) = Some line /\
       grid_get (greyIndexes pz) r c = Some k /\ nth_error line k = Some (r, c)) /\
  (forall r c pu, grid_get (isPurple pz) r c = Some pu -> pu <> 0 ->
     exists line, nth_error purpleLines (pu - 1) = Some line /\ In (r, c) line) /\
  (forall X, In X (allSquares 9) ->
     exists g, grid_get (isGrey pz) (fst X) (snd X) = Some g /\
       (g <> 0 -> exists Y, mirrorAt pz X Y /\ In Y (allSquares 9))) /\
  (forall X, In X (allSquares 9) ->
     exists pu, grid_get (isPurple pz) (fst X) (snd X) = Some pu /\
       (pu <> 0 -> exists line, nth_error (purples pz) (pu - 1) = Some line /\
          forall Y, In Y line -> In Y (allSquares 9))).
Proof.
  intros H.
  destruct (readInput_written _ _ _ H) as (_ & _ & Hgw & Hpw).
  destruct (readInput_tables_ok _ _ _ H) as (_ & Hg & Hp).
  split; [exact Hgw|]. split; [exact Hpw|]. split; assumption.
Qed.

(** ** [solve] ends with a grid or with [ImpossibleSetup] *)

Lemma dom_ok_newBoard board :
  length board = 9 ->
  (forall X, In X (allSquares 9) -> grid_get board (fst X) (snd X) <> None) ->
  dom_ok (newBoard board).
Proof.
  intros H9 Hb X HX. split.
  - unfold val. change (b (newBoard board)) with board.
    specialize (Hb X HX). destruct (grid_get board (fst X) (snd X)); [eauto | contradiction].
  - apply in_allSquares in HX. destruct HX. rewrite newBoard_p by assumption. eauto.
Qed.

Lemma solve_settled fuel board greyLines purpleLines :
  length board = 9 ->
  (forall X, In X (allSquares 9) -> grid_get board (fst X) (snd X) <> None) ->
  (forall X, In X (concat greyLines ++ concat purpleLines) -> In X (allSquares 9)) ->
  blanks board + 2 <= fuel ->
  settled (solve fuel board greyLines purpleLines).
Proof.
  intros H9 Hb Hlines Hfuel. unfold solve.
  pose proof (readInput_on_board greyLines purpleLines) as Hr.
  destruct (readInput greyLines purpleLines) as [pz|] eqn:Epz.
  2:{ destruct Hr as (X & HX & Hout). exfalso. auto. }
  pose proof (readInput_tables_ok _ _ _ Epz) as Ht.
  pose proof (updatePossibilities_ends pz fuel (newBoard board) Ht
                (dom_ok_newBoard board H9 Hb) H9 (cands_ok_newBoard board H9) Hfuel) as Hu.
  unfold ends in Hu.
  destruct (updatePossibilities pz fuel (newBoard board)) as [[[]|[]|] s];
    try contradiction; [|right; reflexivity].
  destruct Hu as (Hd & HM & Hc & Hbl). change (b (newBoard board)) with board in Hbl.
  apply recurse_settled; auto. lia.
Qed.

(** X11: on a board with 9 rows, each with 9 squares or more, and
    lines that lie on the board, [solve] ends with a grid or with
    [ImpossibleSetup]: it raises no [IndexError], and a fuel of two more than
    the number of blank squares is enough.  The result is the same for every
    larger fuel. *)
Theorem solve_ends_on_board board greyLines purpleLines :
  length board = 9 ->
  (forall X, In X (allSquares 9) -> grid_get board (fst X) (snd X) <> None) ->
  (forall X, In X (concat greyLines ++ concat purpleLines) -> In X (allSquares 9)) ->
  (exists g, forall fuel, blanks board + 2 <= fuel ->
     solve fuel board greyLines purpleLines = Ok g) \/
  (forall fuel, blanks board + 2 <= fuel ->
     solve fuel board greyLines purpleLines = Raise ImpossibleSetup).
Proof.
  intros H9 Hb Hlines.
  destruct (solve_settled (blanks board + 2) board greyLines purpleLines H9 Hb Hlines
              (Nat.le_refl _)) as [[g Hg] | Hr].
  - left. exists g. intros fuel Hfuel.
    apply (solve_more _ _ _ _ _ Hg); [discriminate | exact Hfuel].
  - right. intros fuel Hfuel.
    apply (solve_more _ _ _ _ _ Hr); [discriminate | exact Hfuel].
Qed.

(** ** The candidates agree with the numbers at every node *)

(** Every square that [addNumber] fills gets [key], and [key] is then no
    candidate of a blank square of its row, column or 3x3 square. *)
Lemma addNumberLive_filled pz fuel : forall key r c s s',
  M s = 9 ->
  addNumberLive pz fuel key r c s = (Ok tt, s') ->
  forall X Y v, val s X = Some 0%Z -> val s' X = Some v -> v <> 0%Z ->
    In Y (allSquares 9) -> peer X Y ->
    v = key /\ cleared key (fst Y) (snd Y) s'.
Proof.
  induction fuel as [|n IH]; intros key r c s s' HM H X Y v HX HX' Hnz HY Hpeer;
    [discriminate|].
  destruct (val s (r, c)) as [w|] eqn:Hv;
    [|exfalso; eapply addNumberLive_unreadable; eauto].
  destruct (Z.eq_dec w 0) as [->|Hw].
  2:{ rewrite (addNumberLive_assigned _ _ _ _ _ _ _ Hv Hw) in H.
      destruct (w =? key)%Z; [|discriminate]. inversion H; subst. congruence. }
  destruct (coord_eq_dec X (r, c)) as [->|Hne].
  - destruct (addNumberLive_numbers _ _ _ _ _ _ _ H) as [Hkey _].
    split; [congruence|].
    apply (addNumberLive_prunes _ _ _ _ _ _ _ Hv H Y).
    apply peer_pruned; assumption.
  - destruct (addNumberLive_blank _ _ _ _ _ _ _ Hv H)
      as (g1 & s2 & Hg & Hb & HM2 & Hp & Hcases).
    destruct (val_after_set s s2 (r, c) key g1 Hg Hb) as [_ Hother].
    assert (HX2 : val s2 X = Some 0%Z) by (rewrite Hother by assumption; exact HX).
    destruct Hcases as [(Z & Hmir & Hrun) | (Hgr & [[Hpu ->] | (line & Hline & Hrun)])].
    + apply (IH _ _ _ _ _ (eq_trans HM2 HM) Hrun X Y v HX2 HX' Hnz HY Hpeer).
    + congruence.
    + destruct (purple_loop _ _ _ _ _ _ _ Hrun) as (Hb' & _).
      unfold val in *. rewrite Hb' in HX'. congruence.
Qed.

(** One call of [addNumber] on a blank square keeps the candidates in step
    with the numbers.  The constructor calls it on the board [s0] where the
    clue of the square was blanked; [recurse] on the board itself. *)
Lemma pruned_step pz fuel key r c (D : coord -> Prop) s s0 s' :
  M s0 = 9 -> key <> 0%Z -> pruned D s -> p s0 = p s ->
  (forall Z, Z <> (r, c) -> val s0 Z = val s Z) ->
  val s0 (r, c) = Some 0%Z ->
  addNumberLive pz fuel key r c s0 = (Ok tt, s') ->
  pruned (fun X => D X \/ X = (r, c)) s'.
Proof.
  intros HM Hk Hpr Hp0 Hoth Hz H X Y v set HD HY Hpeer HvX Hnz HvY Hset.
  destruct (addNumberLive_numbers _ _ _ _ _ _ _ H) as [Hkey Hall].
  destruct (addNumberLive_frame _ _ _ _ _ _ _ H) as (_ & Hp & Hback & _).
  destruct (Hall X) as [E | [E0 E]].
  - rewrite E in HvX.
    assert (HneX : X <> (r, c)) by (intros ->; congruence).
    assert (HneY : Y <> (r, c)) by (intros ->; congruence).
    destruct HD as [HD | HD]; [|contradiction].
    rewrite Hoth in HvX by assumption.
    pose proof (Hback _ HvY) as HvY0. rewrite Hoth in HvY0 by assumption.
    eapply shrinks_notin; [exact Hp | exact Hset |].
    intros set0 Hset0. rewrite Hp0 in Hset0.
    exact (Hpr X Y v set0 HD HY Hpeer HvX Hnz HvY0 Hset0).
  - destruct (addNumberLive_filled _ _ _ _ _ _ _ HM H X Y v E0 HvX Hnz HY Hpeer)
      as [-> (w & Hw & Hc)].
    unfold val in HvY. rewrite Hw in HvY. inversion HvY; subst w.
    destruct (Hc eq_refl) as (set0 & Hset0 & Hnin). congruence.
Qed.

Lemma pruned_root pz fuel board s :
  length board = 9 ->
  updatePossibilities pz fuel (newBoard board) = (Ok tt, s) ->
  pruned (fun X => In X (allSquares 9)) s.
Proof.
  intros H9 H.
  pose (I := fun (D : coord -> Prop) (s : Board) => M s = 9 /\ pruned D s).
  assert (Hanti : forall (D D' : coord -> Prop) s, (forall Z, D' Z -> D Z) -> I D s -> I D' s).
  { intros D D' s0 HD [HM Hpr]. split; [assumption|].
    intros X Y v set HX. apply Hpr. auto. }
  assert (Hblank : forall D s X, I D s -> val s X = Some 0%Z -> I (fun Z => D Z \/ Z = X) s).
  { intros D s0 X0 [HM Hpr] Hv. split; [assumption|].
    intros X Y v set [HX | ->]; [apply Hpr; assumption|].
    intros _ _ Hv' Hnz. congruence. }
  assert (Hclue : forall D s g0 s' fuel key X0, key <> 0%Z -> I D s -> cands_ok s ->
            val s X0 = Some key ->
            grid_set (b s) (fst X0) (snd X0) 0%Z = Some g0 ->
            addNumberLive pz fuel key (fst X0) (snd X0) (mkBoard g0 (M s) (p s)) = (Ok tt, s') ->
            I (fun Z => D Z \/ Z = X0) s').
  { intros D s0 g0 s' fuel' key X0 Hk [HM Hpr] _ Hv Hg Hrun.
    destruct (val_after_set s0 (mkBoard g0 (M s0) (p s0)) X0 0%Z g0 Hg eq_refl)
      as [Hz Hoth].
    destruct (addNumberLive_frame _ _ _ _ _ _ _ Hrun) as (HM' & _). cbn [M] in HM'.
    split; [congruence|].
    destruct X0 as [r0 c0].
    exact (pruned_step pz fuel' key r0 c0 D s0 (mkBoard g0 (M s0) (p s0)) s'
             HM Hk Hpr eq_refl Hoth Hz Hrun). }
  assert (HI0 : I (fun _ => False) (newBoard board)).
  { split; [exact H9|]. intros X Y v set []. }
  destruct (constructor_inv pz I Hanti Hblank Hclue fuel _ _ _ HI0
              (cands_ok_newBoard _ H9) H) as ([_ Hpr] & _).
  intros X Y v set HX. apply Hpr. right.
  change (M (newBoard board)) with (length board). rewrite H9. exact HX.
Qed.

(** X12: at every search node, for any lines, the candidates agree
    with the numbers: a number that stands on a square of the board is no
    candidate of a blank square of the same row, column or 3x3 square. *)
Theorem candidates_agree_at_nodes pz board s gl :
  length board = 9 -> searchNode pz board s gl ->
  forall X Y v set, In X (allSquares 9) -> In Y (allSquares 9) -> peer X Y ->
    val s X = Some v -> v <> 0%Z -> val s Y = Some 0%Z ->
    grid_get (p s) (fst Y) (snd Y) = Some set -> ~ In v set.
Proof.
  intros H9 Hnode.
  change (pruned (fun X => In X (allSquares 9)) s).
  induction Hnode as [fuel s Hinit | fuel s gl mn X gl' ks k s1 Hn IH Hsel Hmn Hks Hk Hadd].
  - eapply pruned_root; eauto.
  - destruct (searchNode_inv _ _ _ _ H9 Hn) as (Hc & HM & _).
    assert (Hk0 : k <> 0%Z).
    { intros ->. destruct (Hc _ _ _ Hks) as [H0 _]. contradiction. }
    apply selectCell_spec in Hsel. destruct Hsel as (_ & Hsel).
    assert (HX : val s X = Some 0%Z).
    { destruct Hsel as [(_ & _ & _ & l1 & l2 & _ & [HX _] & _) |
                        (_ & _ & _ & _ & _ & [E | (_ & [HX _] & _)] & _)];
        [assumption | inversion E; contradiction | assumption]. }
    rewrite addNumber_live in Hadd. destruct X as [r c]. cbn [fst snd] in *.
    intros X' Y v set HX'. 
    apply (pruned_step pz fuel k r c _ s s s1 HM Hk0 IH eq_refl (fun _ _ => eq_refl) HX Hadd).
    left; assumption.
Qed.

(** ** What the walk over a purple line prunes *)

Lemma cleared_tame A (m : Py A) key r c s a s' :
  tame m -> m s = (Ok a, s') -> cleared key r c s -> cleared key r c s'.
Proof.
  intros Ht H. pose proof (Ht s) as T. rewrite H in T. destruct T as (Hb & _ & Hp).
  apply cleared_later; [assumption | |]; unfold val; rewrite Hb; eauto.
Qed.

Lemma remove_loop_cleared l r c s s' :
  forM_ l (fun i => removePossibility i r c) s = (Ok tt, s') ->
  forall i, In i l -> cleared i r c s'.
Proof.
  intros H. eapply forM_each with (Q := fun i s => cleared i r c s); [ | | exact H].
  - intros; cbv beta in *; eapply removePossibility_cleared; eauto.
  - intros; cbv beta in *; eapply removePossibility_keeps_cleared; eauto.
Qed.

Lemma purpleCellLive_cleared key row col len Y s s' :
  purpleCellLive key row col len Y s = (Ok tt, s') ->
  forall i, In i (rangeZ 0 (key - len + 1)) \/ In i (rangeZ (key + len) (Z.of_nat (M s))) ->
    cleared i (fst Y) (snd Y) s'.
Proof.
  destruct Y as [r c]. unfold purpleCellLive. intros H i Hi. cbn [fst snd].
  rewrite bind_get_b in H.
  destruct (grid_get (b s) r c) as [v|] eqn:Hv; [|discriminate].
  destruct (negb (v =? 0)%Z && (negb (r =? row) || negb (c =? col))) eqn:Hcond.
  - destruct ((v =? key) || (v <=? key - len) || (v >=? key + len))%Z; [discriminate|].
    inversion H; subst s'. exists v. split; [assumption|].
    intros ->. discriminate.
  - rewrite bind_get_M in H.
    apply bind_Ok in H. destruct H as ([] & s1 & H1 & H2).
    destruct Hi as [Hi | Hi].
    + eapply cleared_tame; [ | exact H2 | eapply remove_loop_cleared; eauto].
      apply tame_forM. intros; apply tame_removePossibility.
    + eapply remove_loop_cleared; eauto.
Qed.

Lemma purple_loop_cleared key row col len line s s' :
  forM_ line (purpleCellLive key row col len) s = (Ok tt, s') ->
  forall Y i, In Y line ->
    In i (rangeZ 0 (key - len + 1)) \/ In i (rangeZ (key + len) (Z.of_nat (M s))) ->
    cleared i (fst Y) (snd Y) s'.
Proof.
  intros H Y i HY Hi.
  assert (HM : M s' = M s).
  { pose proof (tame_forM _ line (purpleCellLive key row col len)
                  (fun rc => tame_purpleCellLive key row col len rc) s) as T.
    rewrite H in T. tauto. }
  assert (HQ : M s' = M s -> cleared i (fst Y) (snd Y) s'); [|auto].
  eapply forM_each
    with (Q := fun Y s1 => M s1 = M s -> cleared i (fst Y) (snd Y) s1);
    [ | | exact H | exact HY].
  - intros X s1 s2 Hrun HM2. cbv beta.
    pose proof (tame_purpleCellLive key row col len X s1) as T. rewrite Hrun in T.
    destruct T as (_ & HM1 & _).
    eapply purpleCellLive_cleared; [exact Hrun|].
    replace (M s1) with (M s) by congruence. exact Hi.
  - intros X X' s1 s2 HQ1 Hrun HM2. cbv beta in *.
    pose proof (tame_purpleCellLive key row col len X' s1) as T. rewrite Hrun in T.
    destruct T as (_ & HM1 & _).
    eapply cleared_tame; [apply tame_purpleCellLive | exact Hrun |].
    apply HQ1. congruence.
Qed.

(** X13: after [addNumber] placed [key] on a blank square that the
    tables put on the purple line [line], of length L, no blank square of
    the line has a candidate from 0 to key - L or from key + L to M - 1.
    The second range ends at M - 1, which is 8 on a 9x9 board, since line 109
    reads [range(key+len(line), self.M)]. *)
Theorem addNumber_prunes_purple_window pz fuel key row col line s s' :
  purpleAt pz (row, col) line ->
  val s (row, col) = Some 0%Z ->
  addNumber pz fuel key row col s = (Ok tt, s') ->
  forall Y i, In Y line ->
    (0 <= i <= key - Z.of_nat (length line) \/
     key + Z.of_nat (length line) <= i < Z.of_nat (M s))%Z ->
    exists v, val s' Y = Some v /\
      (v = 0%Z -> exists set,
         grid_get (p s') (fst Y) (snd Y) = Some set /\ ~ In i set).
Proof.
  intros Hpu Hv H Y i HY Hi. rewrite addNumber_live in H.
  destruct fuel as [|n]; [discriminate|].
  destruct (addNumberLive_blank _ _ _ _ _ _ _ Hv H)
    as (g1 & s2 & Hg & Hb & HM & Hp & Hcases).
  destruct Hcases as [(Z & Hmir & _) | (Hgr & [[Hp0 _] | (line' & Hline & Hrun)])].
  - exfalso. eapply purpleAt_not_grey; eauto.
  - destruct Hpu as (_ & pu & Hpu & Hnz & _). cbn [fst snd] in Hpu. congruence.
  - assert (E : line = line') by (eapply purpleAt_fun; eauto). subst line'.
    apply (purple_loop_cleared _ _ _ _ _ _ _ Hrun Y i HY).
    rewrite HM, !In_rangeZ. lia.
Qed.

(** ** Clues that break a line are rejected *)

(** The two squares of a grey line that mirror each other hold one number
    in every grid returned. *)
Lemma returned_mirror fuel board greyLines purpleLines g n line i X Y :
  length board = 9 -> NoDup (concat greyLines) ->
  solve fuel board greyLines purpleLines = Ok g ->
  nth_error greyLines n = Some line ->
  nth_error line i = Some X -> nth_error line (length line - 1 - i) = Some Y ->
  exists v, v <> 0%Z /\
    grid_get g (fst X) (snd X) = Some v /\ grid_get g (fst Y) (snd Y) = Some v.
Proof.
  intros H9 Hnd Hsolve En Ei EY.
  unfold solve in Hsolve.
  destruct (readInput greyLines purpleLines) as [pz|] eqn:ER; [|discriminate].
  destruct (readInput_grey _ _ _ ER Hnd) as [Hwf Hfwd].
  destruct (Hfwd _ _ _ _ _ En Ei EY) as [Hmir HX].
  destruct (run_inv pz (mirror_ok pz) fuel board g Hwf
              (mirror_ok_anti pz) (mirror_ok_val pz) (mirror_ok_blank pz)
              (fun D s s0 s' fuel key X0 Hk HI Hb Hrun =>
                 place_mirror pz D s s0 s' fuel key X0 Hwf Hk HI Hb Hrun)
              H9) as (sf & Hok & -> & Hfull); [intros ? ? ? [] | exact Hsolve |].
  destruct (Hfull _ HX) as (v & Hv & Hnz).
  exists v. split; [exact Hnz|]. split; [exact Hv|].
  exact (Hok X Y v HX Hmir Hv Hnz).
Qed.

(** Two squares of a purple line hold numbers that are apart in every grid
    returned. *)
Lemma returned_apart fuel board greyLines purpleLines g n line X Y v w :
  length board = 9 -> NoDup (concat greyLines ++ concat purpleLines) ->
  solve fuel board greyLines purpleLines = Ok g ->
  nth_error purpleLines n = Some line ->
  In X line -> In Y line -> X <> Y ->
  grid_get g (fst X) (snd X) = Some v -> grid_get g (fst Y) (snd Y) = Some w ->
  apart (Z.of_nat (length line)) v w.
Proof.
  intros H9 Hnd Hsolve En HX HY Hne Hv Hw.
  pose proof (NoDup_app_remove_r _ _ Hnd) as HndG.
  unfold solve in Hsolve.
  destruct (readInput greyLines purpleLines) as [pz|] eqn:ER; [|discriminate].
  destruct (readInput_grey _ _ _ ER HndG) as [Hwf _].
  destruct (readInput_purple _ _ _ ER Hnd) as [Hwp Hfwd].
  destruct (run_inv pz (purple_ok pz) fuel board g Hwf
              (purple_ok_anti pz) (purple_ok_val pz) (purple_ok_blank pz)
              (fun D s s0 s' fuel key X0 Hk HI Hb Hrun =>
                 place_purple pz D s s0 s' fuel key X0 Hwf Hwp Hk HI Hb Hrun)
              H9) as (sf & Hok & -> & Hfull);
    [intros ? ? ? ? ? [] | exact Hsolve |].
  destruct (Hfwd _ _ _ En HX) as [Hline HXin].
  destruct (Hfwd _ _ _ En HY) as [_ HYin].
  destruct (Hfull _ HXin) as (v' & Hv' & Hnz).
  destruct (Hfull _ HYin) as (w' & Hw' & Hnz').
  unfold val in *. rewrite Hv in Hv'. rewrite Hw in Hw'.
  inversion Hv'; inversion Hw'; subst v' w'.
  apply (Hok X line Y v w); auto.
Qed.

(** X14: two clues that differ on two squares of a grey line that
    mirror each other make [solve] raise [ImpossibleSetup] (no square being on
    two grey lines). *)
Theorem solve_rejects_unequal_mirror_clues
    fuel board greyLines purpleLines n line i X Y v w :
  length board = 9 ->
  (forall Z, In Z (allSquares 9) -> grid_get board (fst Z) (snd Z) <> None) ->
  (forall Z, In Z (concat greyLines ++ concat purpleLines) -> In Z (allSquares 9)) ->
  NoDup (concat greyLines) ->
  nth_error greyLines n = Some line ->
  nth_error line i = Some X -> nth_error line (length line - 1 - i) = Some Y ->
  grid_get board (fst X) (snd X) = Some v -> grid_get board (fst Y) (snd Y) = Some w ->
  v <> 0%Z -> w <> 0%Z -> v <> w ->
  blanks board + 2 <= fuel ->
  solve fuel board greyLines purpleLines = Raise ImpossibleSetup.
Proof.
  intros H9 Hb Hlines Hnd En Ei EY Hv Hw Hv0 Hw0 Hne Hfuel.
  destruct (solve_settled fuel board greyLines purpleLines H9 Hb Hlines Hfuel)
    as [[g Hg] | Hr]; [|exact Hr].
  exfalso.
  destruct (returned_mirror _ _ _ _ _ _ _ _ _ _ H9 Hnd Hg En Ei EY) as (u & _ & HuX & HuY).
  destruct (returned_grid_full _ _ _ _ _ H9 Hg) as [_ Hkeep].
  rewrite (Hkeep _ _ _ Hv Hv0) in HuX. rewrite (Hkeep _ _ _ Hw Hw0) in HuY.
  congruence.
Qed.

(** X15: two clues on one purple line of length L that are equal,
    or differ by L or more, make [solve] raise [ImpossibleSetup] (no square
    being on two lines). *)
Theorem solve_rejects_purple_clues_not_apart
    fuel board greyLines purpleLines n line X Y v w :
  length board = 9 ->
  (forall Z, In Z (allSquares 9) -> grid_get board (fst Z) (snd Z) <> None) ->
  (forall Z, In Z (concat greyLines ++ concat purpleLines) -> In Z (allSquares 9)) ->
  NoDup (concat greyLines ++ concat purpleLines) ->
  nth_error purpleLines n = Some line ->
  In X line -> In Y line -> X <> Y ->
  grid_get board (fst X) (snd X) = Some v -> grid_get board (fst Y) (snd Y) = Some w ->
  v <> 0%Z -> w <> 0%Z ->
  (v = w \/ w <= v - Z.of_nat (length line) \/ v + Z.of_nat (length line) <= w)%Z ->
  blanks board + 2 <= fuel ->
  solve fuel board greyLines purpleLines = Raise ImpossibleSetup.
Proof.
  intros H9 Hb Hlines Hnd En HX HY Hne Hv Hw Hv0 Hw0 Hclash Hfuel.
  destruct (solve_settled fuel board greyLines purpleLines H9 Hb Hlines Hfuel)
    as [[g Hg] | Hr]; [|exact Hr].
  exfalso.
  destruct (returned_grid_full _ _ _ _ _ H9 Hg) as [_ Hkeep].
  pose proof (returned_apart _ _ _ _ _ _ _ _ _ _ _ H9 Hnd Hg En HX HY Hne
                (Hkeep _ _ _ Hv Hv0) (Hkeep _ _ _ Hw Hw0)) as [Hd Hwin].
  lia.
Qed.

(** ** A grey line through two squares of one row, column or 3x3 square *)

(** X16: when two squares of a grey line that mirror each other
    share a row, a column or a 3x3 square (no square being on two grey
    lines), every grid that [solve] returns has one number on both: the
    mirror rule is carried out without a look at the row, the column or the
    3x3 square, so such a grid always breaks the rules of the sudoku. *)
Theorem solve_clashes_on_mirrored_peers
    fuel board greyLines purpleLines g n line i X Y :
  length board = 9 -> NoDup (concat greyLines) ->
  solve fuel board greyLines purpleLines = Ok g ->
  nth_error greyLines n = Some line ->
  nth_error line i = Some X -> nth_error line (length line - 1 - i) = Some Y ->
  peer X Y ->
  ~ no_clash g.
Proof.
  intros H9 Hnd Hg En Ei EY Hpeer Hnc.
  destruct (returned_mirror _ _ _ _ _ _ _ _ _ _ H9 Hnd Hg En Ei EY) as (v & Hnz & HvX & HvY).
  pose proof (readInput_on_board greyLines purpleLines) as Hb.
  unfold solve in Hg.
  destruct (readInput greyLines purpleLines) as [pz|]; [|discriminate].
  destruct Hb as (_ & _ & _ & Hin).
  assert (Hon : forall Z, In Z line -> In Z (allSquares 9)).
  { intros Z HZ. apply Hin. apply in_or_app; left. eapply in_concat_nth; eauto. }
  apply (Hnc X Y v); auto.
  - apply Hon. eapply nth_error_In; eauto.
  - apply Hon. eapply nth_error_In; eauto.
Qed.

(** ** A square without candidates ends the search at its node *)

(** X17: a blank square without candidates ends the search at its
    node.  At a search node of a puzzle that was read, [recurse] raises
    [ImpossibleSetup] without a single guess when a blank grey square has no
    candidate, or when no grey square is blank and some blank square of the
    board has no candidate: the choice picks a square with the fewest
    candidates, and the loop over its candidates is empty. *)
Theorem recurse_raises_at_dead_end greyLines purpleLines pz board s gl fuel level :
  readInput greyLines purpleLines = Some pz ->
  length board = 9 -> searchNode pz board s gl ->
  (exists Y, In Y (concat (greys pz)) /\ blankAt s Y 0) \/
  ((forall Y n, In Y (concat (greys pz)) -> ~ blankAt s Y n) /\
   exists Y, In Y (allSquares 9) /\ blankAt s Y 0) ->
  recurse pz (S (S fuel)) level gl s = (Raise ImpossibleSetup, s).
Proof.
  intros Hpz H9 Hnode Hdead.
  destruct (readInput_tables_ok _ _ _ Hpz) as (Hgreys & Hgrey & Hpurple).
  destruct (searchNode_inv _ _ _ _ H9 Hnode) as (Hc & HM & Hd & Hnog).
  cbn [recurse].
  rewrite (bind_Ok_intro _ _ _ _ _ _ _ (check_Ok_full pz fuel s HM Hd)).
  destruct (selectCell_total pz gl s HM Hd Hgreys) as [[[mn X] gl'] Hsel].
  { intros X HX. destruct (Hpurple X HX) as (pu & Hpu & _). eauto. }
  rewrite (bind_Ok_intro _ _ _ _ _ _ _ Hsel). cbv iota beta.
  apply selectCell_spec in Hsel. destruct Hsel as (_ & Hsel).
  assert (HX : blankAt s X 0 /\ mn = 0).
  { destruct Hsel as [(-> & _ & _ & l1 & l2 & Hl & HX & Hl1 & Hl2) |
                      (_ & Hg & _ & Hmin & _ & Hch & _)].
    - destruct Hdead as [(Y & HY & HY0) | [Hno _]].
      + rewrite Hl in HY. apply in_app_or in HY.
        assert (mn = 0); [|subst; auto].
        destruct HY as [HY | [<- | HY]].
        * pose proof (Hl1 _ _ HY HY0). lia.
        * eapply blankAt_fun; eauto.
        * pose proof (Hl2 _ _ HY HY0). lia.
      + exfalso. apply (Hno X mn); [rewrite Hl; apply in_elt | exact HX].
    - assert (HY : exists Y, In Y (allSquares 9) /\ blankAt s Y 0).
      { destruct Hdead as [(Y & HY & HY0) | [_ HY]]; [|exact HY].
        exfalso. destruct gl.
        - pose proof (Hg eq_refl _ _ HY HY0). lia.
        - exact (Hnog eq_refl _ _ HY HY0). }
      destruct HY as (Y & HY & HY0). rewrite HM in Hmin, Hch.
      pose proof (Hmin _ _ HY HY0) as Hle.
      assert (mn = 0) by lia. subst mn.
      destruct Hch as [E | (_ & HX & _)]; [inversion E | auto]. }
  destruct HX as [(_ & ks & Hks & Hlen) ->]. cbn [Nat.eqb].
  rewrite bind_get_p, Hks. destruct ks; [reflexivity | discriminate].
Qed.

(** ** [recurse] works on copies *)

Lemma quiet_foldM X Acc (f : Acc -> X -> Py Acc) l s :
  (forall a x, quiet (f a x) s) -> forall a, quiet (foldM f l a) s.
Proof.
  intros Hf. induction l as [|x t IH]; intros a; cbn [foldM]; [reflexivity|].
  apply quiet_bind; auto.
Qed.

Lemma quiet_of_option A (o : option A) s : quiet (of_option o) s.
Proof. destruct o; reflexivity. Qed.

Lemma quiet_scanGrey acc rc s : quiet (scanGrey acc rc) s.
Proof.
  unfold scanGrey. apply quiet_bind; [apply quiet_of_option|]. intros v.
  destruct (v =? 0)%Z; [|reflexivity].
  apply quiet_bind; [apply quiet_of_option|]. intros set.
  destruct (length set <? fst acc); reflexivity.
Qed.

Lemma quiet_scanAny pz acc rc s : quiet (scanAny pz acc rc) s.
Proof.
  unfold scanAny. apply quiet_bind; [apply quiet_of_option|]. intros v.
  destruct (v =? 0)%Z; [|reflexivity].
  apply quiet_bind; [apply quiet_of_option|]. intros set.
  destruct (length set <? fst acc); [reflexivity|].
  destruct (length set =? fst acc); [|reflexivity].
  apply quiet_bind; [apply quiet_of_option|]. intros pu.
  destruct (negb (pu =? 0)); reflexivity.
Qed.

Lemma quiet_selectCell pz gl s : quiet (selectCell pz gl) s.
Proof.
  unfold selectCell. apply quiet_bind.
  - destruct gl; [|reflexivity]. apply quiet_foldM. intros; apply quiet_scanGrey.
  - intros acc1. apply quiet_bind; [|reflexivity].
    destruct (negb (gl && negb (fst acc1 =? 100))); [|reflexivity].
    apply quiet_bind; [reflexivity|]. intros m.
    apply quiet_foldM. intros; apply quiet_scanAny.
Qed.

Lemma quiet_guess A (body : Z -> Py A) ks s : quiet (guess body ks) s.
Proof.
  unfold quiet. induction ks as [|k t IH]; cbn [guess]; [reflexivity|].
  destruct (body k s) as [[a|[]|] s1]; auto.
Qed.

(** X18: [recurse] leaves the board it is called on as it was,
    whatever its outcome: [check] changes nothing, the choice of the square
    only reads, and every guess runs on a deep copy. *)
Theorem recurse_leaves_its_board pz fuel level gl s :
  snd (recurse pz fuel level gl s) = s.
Proof.
  change (quiet (recurse pz fuel level gl) s).
  destruct fuel as [|n]; [reflexivity|]. cbn [recurse].
  apply quiet_bind; [apply quiet_check|]. intros _.
  apply quiet_bind; [apply quiet_selectCell|]. intros [[mn X] gl'].
  destruct (mn =? 100); [reflexivity|].
  apply quiet_bind; [apply quiet_of_option|]. intros ks.
  apply quiet_guess.
Qed.

(** ** Without lines, the clues are never checked against each other *)

Lemma forM_total X (l : list X) (f : X -> Py unit) (Inv : Board -> Prop) s :
  (forall x s1, In x l -> Inv s1 -> exists s2, f x s1 = (Ok tt, s2) /\ Inv s2) ->
  Inv s -> exists s', forM_ l f s = (Ok tt, s') /\ Inv s'.
Proof.
  revert s; induction l as [|x t IH]; intros s Hf Hs; cbn [forM_].
  - exists s. split; [reflexivity | assumption].
  - destruct (Hf x s (or_introl eq_refl) Hs) as (s1 & H1 & Hs1).
    unfold bind. rewrite H1. apply IH; [|assumption].
    intros y s2 Hy. apply Hf. right; assumption.
Qed.

(** [addNumber] on a blank square that lies on no line ends normally. *)
Lemma addNumberLive_off_lines pz n key r c s :
  dom_ok s -> M s = 9 -> In (r, c) (allSquares 9) ->
  val s (r, c) = Some 0%Z ->
  grid_get (isGrey pz) r c = Some 0 -> grid_get (isPurple pz) r c = Some 0 ->
  exists s', addNumberLive pz (S n) key r c s = (Ok tt, s').
Proof.
  intros Hd HM HX Hv Hgr Hpu. unfold val in Hv; cbn [fst snd] in Hv.
  cbn [addNumberLive]. rewrite bind_get_b, Hv. cbn [Z.eqb negb].
  destruct (grid_set_some _ _ _ _ key _ Hv) as [g Hg].
  rewrite bind_set_b, Hg, bind_get_M. cbn [M]. rewrite HM.
  pose proof (dom_ok_set_b _ _ _ _ _ Hd Hg) as Hd1. rewrite HM in Hd1.
  match goal with |- exists _, bind _ (fun _ => bind _ (fun _ => ?k)) ?s1 = _ =>
    destruct (prune_total _ key r c k s1 Hd1 HX) as (s2 & _ & _ & _ & _ & ->)
  end.
  rewrite bind_of_option, Hgr. cbn [Nat.eqb negb].
  rewrite bind_of_option, Hpu. cbn [Nat.eqb negb].
  eexists; reflexivity.
Qed.

Lemma noLines_no_grey : no_grey noLines.
Proof.
  intros r c g Hg. cbn [isGrey noLines] in Hg. eapply grid_get_zeros; eauto.
Qed.

Lemma noLines_off_lines X :
  In X (allSquares 9) ->
  grid_get (isGrey noLines) (fst X) (snd X) = Some 0 /\
  grid_get (isPurple noLines) (fst X) (snd X) = Some 0.
Proof.
  intros HX. destruct X as [r c]. cbn [isGrey isPurple noLines fst snd].
  pose proof (zeros_readable _ _ HX) as Hz.
  destruct (grid_get zeros r c) as [z|] eqn:Ez; [|contradiction].
  apply grid_get_zeros in Ez. subst z. auto.
Qed.

(** Without lines the constructor accepts every board and leaves its numbers
    where they are. *)
Lemma constructor_without_lines fuel board :
  length board = 9 ->
  (forall X, In X (allSquares 9) -> grid_get board (fst X) (snd X) <> None) ->
  exists s, updatePossibilities noLines (S fuel) (newBoard board) = (Ok tt, s) /\
    dom_ok s /\ M s = 9 /\ forall Z, val s Z = grid_get board (fst Z) (snd Z).
Proof.
  intros H9 Hb.
  unfold updatePossibilities. rewrite bind_get_M.
  change (M (newBoard board)) with (length board). rewrite H9.
  apply (forM_total _ (seq 0 9) _
           (fun s => dom_ok s /\ M s = 9 /\
                     forall Z, val s Z = grid_get board (fst Z) (snd Z)));
    [|split; [apply dom_ok_newBoard; assumption|]; split; [exact H9 | reflexivity]].
  intros i s1 Hi H1. apply forM_total; [|exact H1].
  intros j s2 Hj (Hd2 & HM2 & Hsame).
  apply in_seq in Hi. apply in_seq in Hj.
  assert (HX : In (i, j) (allSquares 9)) by (apply in_allSquares; cbn [fst snd]; lia).
  destruct (Hd2 _ HX) as [[key Hv] _]. pose proof Hv as Hv'.
  unfold val in Hv; cbn [fst snd] in Hv.
  rewrite bind_get_b, Hv.
  destruct (Z.eqb_spec key 0) as [->|Hk]; cbn [negb].
  { exists s2. split; [reflexivity | auto]. }
  destruct (grid_set_some _ _ _ _ 0%Z _ Hv) as [g0 Hg].
  rewrite bind_set_b, Hg, addNumber_live.
  pose proof (dom_ok_set_b _ _ _ _ _ Hd2 Hg) as Hd0.
  destruct (val_after_set s2 (mkBoard g0 (M s2) (p s2)) (i, j) 0%Z g0 Hg eq_refl)
    as [Hz Hoth].
  destruct (noLines_off_lines (i, j) HX) as [Hgr Hpu]. cbn [fst snd] in Hgr, Hpu.
  destruct (addNumberLive_off_lines noLines fuel key i j
              (mkBoard g0 (M s2) (p s2)) Hd0 HM2 HX Hz Hgr Hpu) as [s3 H3].
  exists s3. split; [exact H3|].
  split; [eapply dom_ok_step; eauto|]. split.
  - apply addNumberLive_frame in H3. destruct H3 as (HM3 & _). cbn [M] in HM3. congruence.
  - destruct (addNumberLive_plain _ _ _ _ _ _ _ noLines_no_grey Hz H3) as [Hkey Hrest].
    intros Z. destruct (coord_eq_dec Z (i, j)) as [->|Hne].
    + rewrite Hkey, <- Hsame. symmetry. exact Hv'.
    + rewrite Hrest, Hoth by assumption. apply Hsame.
Qed.

(** X19: without lines the constructor accepts every readable
    board, whatever its clues: [updatePossibilities] ends normally, one unit
    of fuel being enough, and the board it leaves has the numbers of the
    input, square by square. *)
Theorem constructor_accepts_any_clues_without_lines fuel board :
  length board = 9 ->
  (forall X, In X (allSquares 9) -> grid_get board (fst X) (snd X) <> None) ->
  exists s, updatePossibilities noLines (S fuel) (newBoard board) = (Ok tt, s) /\
    M s = 9 /\ forall Z, val s Z = grid_get board (fst Z) (snd Z).
Proof.
  intros H9 Hb.
  destruct (constructor_without_lines fuel board H9 Hb) as (s & Hs & _ & HM & Hsame).
  exists s. auto.
Qed.

(** X20: without lines, [solve] returns every board whose 81
    squares hold a number as it is, whether or not its numbers obey the rules
    of the sudoku: the clues are never compared with each other. *)
Theorem solve_accepts_every_full_board fuel board :
  length board = 9 ->
  (forall X, In X (allSquares 9) ->
     exists v, grid_get board (fst X) (snd X) = Some v /\ v <> 0%Z) ->
  2 <= fuel ->
  exists g, solve fuel board [] [] = Ok g /\
    forall X, In X (allSquares 9) ->
      grid_get g (fst X) (snd X) = grid_get board (fst X) (snd X).
Proof.
  intros H9 Hfull Hfuel.
  destruct fuel as [|[|n]]; try lia.
  unfold solve. change (readInput [] []) with (Some noLines). cbv iota beta.
  destruct (constructor_without_lines (S n) board H9) as (s & Hinit & Hd & HM & Hsame).
  { intros X HX. destruct (Hfull X HX) as (v & -> & _). discriminate. }
  rewrite Hinit.
  exists (b s). split; [|intros X HX; apply (Hsame X)].
  cbn [recurse].
  rewrite (bind_Ok_intro _ _ _ _ _ _ _ (check_Ok_full noLines n s HM Hd)).
  destruct (selectCell_total noLines true s HM Hd) as [[[mn X] gl'] Hsel].
  { intros X []. }
  { intros X HX. destruct (noLines_off_lines X HX) as [_ Hpu]. eauto. }
  rewrite (bind_Ok_intro _ _ _ _ _ _ _ Hsel). cbv iota beta.
  apply selectCell_spec in Hsel. destruct Hsel as (_ & Hsel).
  destruct (Nat.eqb_spec mn 100) as [->|Hmn]; [reflexivity|].
  exfalso.
  destruct Hsel as [(_ & _ & _ & l1 & l2 & Hl & _) |
                    (_ & _ & _ & _ & _ & [E | (HX & [HX0 _] & _)] & _)].
  - cbn [greys noLines concat] in Hl. destruct l1; discriminate.
  - inversion E; contradiction.
  - rewrite HM in HX. destruct (Hfull X HX) as (v & Hv & Hnz).
    rewrite Hsame, Hv in HX0. inversion HX0; contradiction.
Qed.

(** ** The search finds a grid when the puzzle has a solution *)

Lemma removePossibility_open sol key r c s s' Z :
  removePossibility key r c s = (Ok tt, s') ->
  (val s (r, c) = Some 0%Z -> numberAt sol (r, c) <> key) ->
  open_for sol s Z -> open_for sol s' Z.
Proof.
  intros H Hne Hopen set' Hv Hset'.
  pose proof (tame_removePossibility key r c s) as T. rewrite H in T.
  destruct T as (Hb & _ & [Hback _]).
  destruct (removePossibility_spec _ _ _ _ _ H) as (_ & _ & Hoth & Hrem & _).
  unfold val in *. rewrite Hb in Hv.
  destruct (coord_eq_dec Z (r, c)) as [->|HZ].
  - cbn [fst snd] in *.
    destruct (Hback _ _ _ Hset') as (set & Hset & _).
    rewrite (Hrem set Hv Hset) in Hset'. inversion Hset'; subst set'.
    apply in_in_remove; [apply Hne; assumption | apply Hopen; assumption].
  - destruct Z as [zr zc]. cbn [fst snd] in *.
    rewrite Hoth in Hset' by assumption. apply Hopen; assumption.
Qed.

Lemma removePossibility_viable sol key r c s s' :
  removePossibility key r c s = (Ok tt, s') ->
  (val s (r, c) = Some 0%Z -> numberAt sol (r, c) <> key) ->
  viable sol s -> b s' = b s /\ viable sol s'.
Proof.
  intros H Hne [Hfit Hopen].
  pose proof (tame_removePossibility key r c s) as T. rewrite H in T.
  destruct T as (Hb & _).
  split; [assumption|]. split.
  - intros Z v HZ Hv. apply Hfit; [assumption|]. unfold val in *. congruence.
  - intros Z HZ. eapply removePossibility_open; eauto.
Qed.

(** The two pruning loops keep the board viable when the number placed is
    that of the solution. *)
Lemma prune_viable sol key row col s s1 s2 :
  (forall X Y, In X (allSquares 9) -> In Y (allSquares 9) -> peer X Y ->
     numberAt sol X <> numberAt sol Y) ->
  In (row, col) (allSquares 9) -> key <> 0%Z ->
  val s (row, col) = Some key -> numberAt sol (row, col) = key ->
  viable sol s ->
  forM_ (seq 0 9) (fun i =>
    removePossibility key row i ;; removePossibility key i col) s = (Ok tt, s1) ->
  forM_ (square row col) (fun ij => removePossibility key (fst ij) (snd ij)) s1
    = (Ok tt, s2) ->
  viable sol s2.
Proof.
  intros Hpeers HX Hk Hv Hsol Hvia H1 H2.
  pose proof HX as HX'. apply in_allSquares in HX'. cbn [fst snd] in HX'.
  assert (Hstep : forall Y sa sb, In Y (allSquares 9) ->
            (fst Y = row \/ snd Y = col \/ In Y (square row col)) ->
            b sa = b s /\ viable sol sa ->
            removePossibility key (fst Y) (snd Y) sa = (Ok tt, sb) ->
            b sb = b s /\ viable sol sb).
  { intros Y sa sb HY Hrel [Hb Hva] Hrun.
    destruct (removePossibility_viable sol key (fst Y) (snd Y) sa sb Hrun) as [Hb' Hvb];
      [|assumption|split; [congruence | assumption]].
    intros HvY. replace (fst Y, snd Y) with Y in * by (destruct Y; reflexivity).
    assert (HneY : (row, col) <> Y).
    { intros <-. unfold val in *. rewrite Hb in HvY. congruence. }
    rewrite <- Hsol. intros E. symmetry in E. revert E.
    apply Hpeers; [assumption | assumption |].
    split; [assumption|]. cbn [fst snd].
    destruct Hrel as [E | [E | E]]; [left; congruence | right; left; congruence |].
    right; right. apply in_square_block in E. split; symmetry; tauto. }
  assert (Ha : b s1 = b s /\ viable sol s1).
  { eapply forM_keeps with (I := fun sa => b sa = b s /\ viable sol sa);
      [ | split; [reflexivity | exact Hvia] | exact H1].
    intros i sa sc Hi Hsa Hrun. cbv beta in *. apply in_seq in Hi.
    apply bind_Ok in Hrun. destruct Hrun as ([] & sb & Hr1 & Hr2).
    apply (Hstep (i, col) sb sc);
      [apply in_allSquares; cbn [fst snd]; lia | right; left; reflexivity | | exact Hr2].
    apply (Hstep (row, i) sa sb);
      [apply in_allSquares; cbn [fst snd]; lia | left; reflexivity | exact Hsa | exact Hr1]. }
  assert (Hres : b s2 = b s /\ viable sol s2); [|tauto].
  eapply forM_keeps with (I := fun sa => b sa = b s /\ viable sol sa);
    [ | exact Ha | exact H2].
  intros ij sa sb Hij Hsa Hrun. cbv beta in *.
  apply (Hstep ij sa sb); [eapply square_on_board; eauto | auto | exact Hsa | exact Hrun].
Qed.

(** One square of the walk over a purple line. *)
Lemma purpleCellLive_viable sol key row col len Y s :
  dom_ok s -> In Y (allSquares 9) ->
  val s (row, col) = Some key -> key <> 0%Z ->
  (Y <> (row, col) -> apart len key (numberAt sol Y)) ->
  viable sol s ->
  exists s', purpleCellLive key row col len Y s = (Ok tt, s') /\
    dom_ok s' /\ M s' = M s /\ b s' = b s /\ shrinks (p s) (p s') /\ viable sol s'.
Proof.
  intros Hd HY HvX Hk Hap Hvia. destruct Y as [r c].
  destruct (Hd _ HY) as [[v Hv] _]. pose proof Hv as Hv'.
  unfold val in Hv; cbn [fst snd] in Hv.
  unfold purpleCellLive. rewrite bind_get_b, Hv.
  destruct (negb (v =? 0)%Z && (negb (r =? row) || negb (c =? col))) eqn:Hcond.
  - apply andb_true_iff in Hcond. destruct Hcond as [Hnz Hne].
    apply negb_true_iff, Z.eqb_neq in Hnz.
    assert (HneY : (r, c) <> (row, col)).
    { intros E; inversion E; subst.
      rewrite !Nat.eqb_refl in Hne. discriminate. }
    destruct Hvia as [Hfit Hopen].
    pose proof (Hfit _ _ HY Hv' Hnz) as Hsol.
    destruct (Hap HneY) as [Hd1 Hd2]. rewrite Hsol in Hd1, Hd2.
    assert (E : ((v =? key) || (v <=? key - len) || (v >=? key + len))%Z = false).
    { apply orb_false_iff; split; [apply orb_false_iff; split|].
      - apply Z.eqb_neq. congruence.
      - apply Z.leb_gt. lia.
      - rewrite Z.geb_leb. apply Z.leb_gt. lia. }
    rewrite E. exists s. split; [reflexivity|].
    split; [assumption|]. split; [reflexivity|]. split; [reflexivity|].
    split; [apply shrinks_refl | split; assumption].
  - rewrite bind_get_M.
    assert (Hblank : forall sa, b sa = b s -> val sa (r, c) = Some 0%Z ->
              apart len key (numberAt sol (r, c))).
    { intros sa Hb Hz. apply Hap. intros E. rewrite E in Hz.
      unfold val in *. rewrite Hb in Hz. congruence. }
    assert (Hloop : forall l sa, b sa = b s -> dom_ok sa -> viable sol sa ->
              (forall i, In i l -> (i <= key - len \/ key + len <= i)%Z) ->
              exists sb, forM_ l (fun i => removePossibility i r c) sa = (Ok tt, sb) /\
                dom_ok sb /\ M sb = M sa /\ b sb = b s /\ shrinks (p sa) (p sb) /\
                viable sol sb).
    { intros l sa Hb Hda Hva Hl.
      destruct (forM_total_tame _ l (fun i => removePossibility i r c) sa)
        as (sb & Hrun & Hdb & Hbb & HMb & Hpb); [ | | exact Hda |].
      { intros; apply tame_removePossibility. }
      { intros; apply removePossibility_total; assumption. }
      exists sb. split; [exact Hrun|]. split; [assumption|]. split; [assumption|].
      split; [congruence|]. split; [assumption|].
      assert (Hres : b sb = b s /\ viable sol sb); [|tauto].
      eapply forM_keeps with (I := fun sc => b sc = b s /\ viable sol sc);
        [ | split; [exact Hb | exact Hva] | exact Hrun].
      intros i sc sd Hi [Hbc Hvc] Hr. cbv beta in *.
      destruct (removePossibility_viable sol i r c sc sd Hr) as [Hbd Hvd];
        [|assumption|split; [congruence | assumption]].
      intros Hz. destruct (Hblank sc Hbc Hz) as [_ Hwin].
      specialize (Hl i Hi). lia. }
    destruct (Hloop (rangeZ 0 (key - len + 1)) s eq_refl Hd Hvia)
      as (s1 & H1 & Hd1 & HM1 & Hb1 & Hp1 & Hv1).
    { intros i Hi. apply In_rangeZ in Hi. lia. }
    destruct (Hloop (rangeZ (key + len) (Z.of_nat (M s))) s1 Hb1 Hd1 Hv1)
      as (s2 & H2 & Hd2 & HM2 & Hb2 & Hp2 & Hv2).
    { intros i Hi. apply In_rangeZ in Hi. lia. }
    exists s2. unfold bind. rewrite H1, H2.
    split; [reflexivity|]. split; [assumption|]. split; [congruence|].
    split; [assumption|]. split; [eapply shrinks_trans; eauto | assumption].
Qed.

(** [addNumber] with the number of the solution, on a board that is viable
    but for the candidates of the square itself, ends normally on a viable
    board. *)
Lemma addNumberLive_viable pz sol fuel : forall key r c s,
  tables_ok pz -> follows pz sol ->
  dom_ok s -> M s = 9 -> In (r, c) (allSquares 9) ->
  fits sol s ->
  (forall Z, In Z (allSquares 9) -> Z <> (r, c) -> open_for sol s Z) ->
  key = numberAt sol (r, c) -> blanks (b s) < fuel ->
  exists s', addNumberLive pz fuel key r c s = (Ok tt, s') /\ viable sol s'.
Proof.
  induction fuel as [|n IH]; intros key r c s Ht Hfol Hd HM HX Hfit Hopen Hkey Hfuel;
    [lia|].
  destruct Hfol as (Hrange & Hpeers & Hmirror & Hpurple).
  assert (Hk : key <> 0%Z) by (pose proof (Hrange _ HX); lia).
  cbn [addNumberLive]. rewrite bind_get_b.
  destruct (Hd _ HX) as [[v Hv] _]. pose proof Hv as Hv'.
  unfold val in Hv; cbn [fst snd] in Hv. rewrite Hv.
  destruct (Z.eqb_spec v 0) as [->|Hnz]; cbn [negb].
  2:{ rewrite (Hfit _ _ HX Hv' Hnz) in Hkey. subst key. rewrite Z.eqb_refl. cbn [negb].
      exists s. split; [reflexivity|]. split; [assumption|].
      intros Z HZ. destruct (coord_eq_dec Z (r, c)) as [->|Hne]; [|auto].
      intros set Hz. congruence. }
  destruct (grid_set_some _ _ _ _ key _ Hv) as [g Hg].
  rewrite bind_set_b, Hg, bind_get_M. cbn [M]. rewrite HM.
  pose proof (dom_ok_set_b _ _ _ _ _ Hd Hg) as Hd1. rewrite HM in Hd1.
  set (s1 := mkBoard g 9 (p s)) in *.
  destruct (val_after_set s s1 (r, c) key g Hg eq_refl) as [Hsame Hother].
  assert (Hv1 : viable sol s1).
  { split.
    - intros Z w HZ Hw Hw0. destruct (coord_eq_dec Z (r, c)) as [->|Hne].
      + congruence.
      + rewrite Hother in Hw by assumption. eauto.
    - intros Z HZ set Hz. destruct (coord_eq_dec Z (r, c)) as [->|Hne]; [congruence|].
      rewrite Hother in Hz by assumption. apply Hopen; assumption. }
  destruct (prune_runs key r c s1 Hd1 HX)
    as (sa & s2 & H1 & H2 & _ & Hd2 & Hb2 & HM2 & Hp2).
  pose proof (prune_viable sol key r c s1 sa s2 Hpeers HX Hk Hsame (eq_sym Hkey) Hv1 H1 H2)
    as Hv2.
  unfold bind at 1. rewrite H1. unfold bind at 1. rewrite H2.
  cbn [M] in HM2.
  assert (Hbl2 : blanks (b s2) < n).
  { rewrite Hb2. cbn [b s1]. pose proof (blanks_set _ _ _ _ _ Hv Hg Hk). lia. }
  assert (Hs2X : val s2 (r, c) = Some key).
  { unfold val in *. rewrite Hb2. exact Hsame. }
  destruct Ht as (Hgreys & Hgrey & Hpurp).
  destruct (Hgrey _ HX) as (gr & Hgr & Hmir). cbn [fst snd] in Hgr.
  rewrite bind_of_option, Hgr.
  destruct (Nat.eqb_spec gr 0) as [->|Hg0]; cbn [negb].
  - destruct (Hpurp _ HX) as (pu & Hpu & Hline). cbn [fst snd] in Hpu.
    rewrite bind_of_option, Hpu.
    destruct (Nat.eqb_spec pu 0) as [->|Hp0]; cbn [negb].
    { exists s2. split; [reflexivity | assumption]. }
    destruct (Hline Hp0) as (line & Hnth & Hin).
    rewrite bind_of_option, Hnth.
    assert (Hat : purpleAt pz (r, c) line).
    { split; [exact Hgr|]. exists pu. auto. }
    destruct (forM_total _ line (purpleCellLive key r c (Z.of_nat (length line)))
                (fun sb => dom_ok sb /\ b sb = b s2 /\ viable sol sb) s2)
      as (s3 & H3 & _ & _ & Hv3); [ | auto | eauto].
    intros Y sb HY (Hdb & Hbb & Hvb).
    destruct (purpleCellLive_viable sol key r c (Z.of_nat (length line)) Y sb Hdb
                (Hin Y HY)) as (sc & Hc & Hdc & _ & Hbc & _ & Hvc); auto.
    + unfold val in *. rewrite Hbb. exact Hs2X.
    + intros Hne. rewrite Hkey. apply Hpurple; assumption.
    + exists sc. split; [exact Hc|]. split; [assumption|]. split; [congruence | assumption].
  - destruct (Hmir Hg0) as (Y & Hm & HYin).
    pose proof Hm as (g' & line & gi & Hg' & _ & Hline & Hgi & HY).
    cbn [fst snd] in Hg', Hgi. rewrite Hgr in Hg'. inversion Hg'; subst g'.
    rewrite bind_of_option, Hline, bind_of_option, Hgi, bind_of_option, HY.
    destruct Hv2 as [Hfit2 Hopen2].
    apply IH; try assumption.
    + exact (conj Hgreys (conj Hgrey Hpurp)).
    + exact (conj Hrange (conj Hpeers (conj Hmirror Hpurple))).
    + destruct Y; exact HYin.
    + intros Z HZ _. apply Hopen2; assumption.
    + rewrite Hkey. replace (fst Y, snd Y) with Y by (destruct Y; reflexivity).
      apply Hmirror; assumption.
Qed.

Lemma viable_newBoard sol board :
  length board = 9 ->
  (forall X, In X (allSquares 9) -> (1 <= numberAt sol X <= 9)%Z) ->
  (forall X v, In X (allSquares 9) -> grid_get board (fst X) (snd X) = Some v ->
     v <> 0%Z -> numberAt sol X = v) ->
  viable sol (newBoard board).
Proof.
  intros H9 Hrange Hclues. split.
  - intros Z v HZ Hv Hnz. apply Hclues; assumption.
  - intros Z HZ set _ Hset. pose proof HZ as HZ'. apply in_allSquares in HZ'.
    rewrite newBoard_p in Hset by tauto. inversion Hset; subst set.
    apply In_rangeZ. pose proof (Hrange Z HZ). lia.
Qed.

(** The constructor accepts the clues of a puzzle that has a solution. *)
Lemma constructor_viable pz sol fuel board :
  tables_ok pz -> follows pz sol -> length board = 9 ->
  dom_ok (newBoard board) -> viable sol (newBoard board) ->
  blanks board + 2 <= fuel ->
  exists s, updatePossibilities pz fuel (newBoard board) = (Ok tt, s) /\
    dom_ok s /\ M s = 9 /\ cands_ok s /\ blanks (b s) <= blanks board /\ viable sol s.
Proof.
  intros Ht Hfol H9 Hd0 Hv0 Hfuel.
  unfold updatePossibilities. rewrite bind_get_M.
  change (M (newBoard board)) with (length board). rewrite H9.
  apply (forM_total _ (seq 0 9) _
           (fun s => dom_ok s /\ M s = 9 /\ cands_ok s /\
                     blanks (b s) <= blanks board /\ viable sol s));
    [|split; [assumption|]; split; [exact H9|]; split;
      [apply cands_ok_newBoard; exact H9|]; split; [apply Nat.le_refl | assumption]].
  intros i s1 Hi H1. apply forM_total; [|exact H1].
  intros j s2 Hj (Hd2 & HM2 & Hc2 & Hb2 & [Hfit2 Hopen2]).
  apply in_seq in Hi. apply in_seq in Hj.
  assert (HX : In (i, j) (allSquares 9)) by (apply in_allSquares; cbn [fst snd]; lia).
  destruct (Hd2 _ HX) as [[key Hv] _]. pose proof Hv as Hv'.
  unfold val in Hv; cbn [fst snd] in Hv.
  rewrite bind_get_b, Hv.
  destruct (Z.eqb_spec key 0) as [->|Hk]; cbn [negb].
  { exists s2. split; [reflexivity|].
    exact (conj Hd2 (conj HM2 (conj Hc2 (conj Hb2 (conj Hfit2 Hopen2))))). }
  destruct (grid_set_some _ _ _ _ 0%Z _ Hv) as [g0 Hg].
  rewrite bind_set_b, Hg, addNumber_live.
  pose proof (blanks_grid_set _ _ _ _ _ _ Hv Hg) as Hbl.
  unfold blank in Hbl. destruct (Z.eqb_spec key 0) as [|_]; [contradiction|].
  cbn [Z.eqb] in Hbl.
  set (s0 := mkBoard g0 (M s2) (p s2)).
  destruct (val_after_set s2 s0 (i, j) 0%Z g0 Hg eq_refl) as [Hz Hoth].
  assert (Hb0 : blanks (b s0) = blanks (b s2) + 1) by (unfold s0; cbn [b]; lia).
  destruct (addNumberLive_viable pz sol fuel key i j s0 Ht Hfol
              (dom_ok_set_b _ _ _ _ _ Hd2 Hg) HM2 HX) as (s3 & H3 & Hv3).
  - intros Z v HZ Hw Hnz. destruct (coord_eq_dec Z (i, j)) as [->|Hne]; [congruence|].
    rewrite Hoth in Hw by assumption. eauto.
  - intros Z HZ Hne set Hw. rewrite Hoth in Hw by assumption.
    apply Hopen2; assumption.
  - symmetry. apply Hfit2; assumption.
  - lia.
  - exists s3. split; [exact H3|].
    destruct (addNumberLive_frame _ _ _ _ _ _ _ H3) as (HM3 & Hp3 & _).
    destruct (addNumberLive_blanks _ _ _ _ _ _ _ Hk H3) as [_ Hlt].
    specialize (Hlt Hz). change (p s0) with (p s2) in Hp3. change (M s0) with (M s2) in HM3.
    split; [eapply dom_ok_step; [|exact H3]; eapply dom_ok_set_b; eauto|].
    split; [congruence|]. split; [eapply cands_ok_shrinks; eauto|].
    split; [lia | assumption].
Qed.

Lemma guess_finds A (body : Z -> Py A) ks s :
  (forall k, In k ks -> settled (fst (body k s))) ->
  (exists k a, In k ks /\ fst (body k s) = Ok a) ->
  exists a, fst (guess body ks s) = Ok a.
Proof.
  induction ks as [|k t IH]; intros Hall (k0 & a0 & Hin & Hok); [contradiction|].
  cbn [guess].
  pose proof (Hall k (or_introl eq_refl)) as Hk.
  destruct (body k s) as [[a|[]|] s1] eqn:E; simpl in *.
  - eauto.
  - apply IH; [intros; apply Hall; right; assumption|].
    destruct Hin as [->|Hin]; [rewrite E in Hok; discriminate|].
    exists k0, a0. auto.
  - destruct Hk as [[a Ha] | Ha]; discriminate.
  - destruct Hk as [[a Ha] | Ha]; discriminate.
Qed.

(** The search on a viable board ends with a grid. *)
Lemma recurse_finds pz sol : forall fuel level gl s,
  tables_ok pz -> follows pz sol ->
  dom_ok s -> M s = 9 -> cands_ok s -> viable sol s -> blanks (b s) + 2 <= fuel ->
  exists g, fst (recurse pz fuel level gl s) = Ok g.
Proof.
  induction fuel as [|n IH]; intros level gl s Ht Hfol Hd HM Hc Hvia Hfuel; [lia|].
  cbn [recurse]. destruct n as [|n]; [lia|].
  rewrite (bind_Ok_intro _ _ _ _ _ _ _ (check_Ok_full pz n s HM Hd)).
  pose proof Ht as (Hgreys & Hgrey & Hpurple).
  destruct (selectCell_total pz gl s HM Hd Hgreys) as [[[mn X] gl'] Hsel].
  { intros X HX. destruct (Hpurple X HX) as (pu & Hpu & _). eauto. }
  rewrite (bind_Ok_intro _ _ _ _ _ _ _ Hsel). cbv iota beta.
  destruct (Nat.eqb_spec mn 100) as [->|Hmn]; [simpl; eauto|].
  apply selectCell_spec in Hsel. destruct Hsel as (_ & Hsel).
  assert (HX : In X (allSquares 9) /\ blankAt s X mn).
  { destruct Hsel as [(_ & _ & _ & l1 & l2 & Hl & HX & _) |
                      (_ & _ & _ & _ & _ & [E | (HX1 & HX2 & _)] & _)].
    - split; [|assumption]. apply Hgreys. rewrite Hl. apply in_elt.
    - inversion E; contradiction.
    - rewrite HM in HX1. auto. }
  destruct HX as [HXin (HXv & ks & Hks & _)].
  rewrite bind_get_p, Hks.
  assert (Hbody : forall k, In k ks ->
            match addNumberLive pz (S n) k (fst X) (snd X) s with
            | (Ok _, sa) => dom_ok sa /\ M sa = 9 /\ cands_ok sa /\ blanks (b sa) + 2 <= S n
            | (Raise ImpossibleSetup, _) => True
            | _ => False
            end).
  { intros k Hk.
    assert (Hk0 : k <> 0%Z).
    { intros ->. destruct (Hc _ _ _ Hks) as [H0 _]. contradiction. }
    pose proof (addNumberLive_ends pz (S n) k (fst X) (snd X) s Ht Hd HM) as He.
    unfold ends in He.
    destruct (addNumberLive pz (S n) k (fst X) (snd X) s) as [[[]|[]|] sa];
      try (apply He; [destruct X; exact HXin | exact Hk0 | lia]).
    destruct He as (Hda & HMa & Hpa & _ & Hlt);
      [destruct X; exact HXin | exact Hk0 | lia |].
    split; [assumption|]. split; [assumption|].
    split; [eapply cands_ok_shrinks; eauto|].
    assert (blanks (b sa) < blanks (b s)) by (apply Hlt; destruct X; exact HXv). lia. }
  apply guess_finds.
  - intros k Hk. specialize (Hbody k Hk). unfold bind at 1. rewrite addNumber_live.
    destruct (addNumberLive pz (S n) k (fst X) (snd X) s) as [[[]|[]|] sa];
      try contradiction.
    + destruct Hbody as (Hda & HMa & Hca & Hfa).
      apply recurse_settled; assumption.
    + right; reflexivity.
  - exists (numberAt sol X).
    destruct Hvia as [Hfit Hopen].
    pose proof (Hopen X HXin ks HXv Hks) as Hin.
    specialize (Hbody _ Hin).
    destruct (addNumberLive_viable pz sol (S n) (numberAt sol X) (fst X) (snd X) s
                Ht Hfol Hd HM) as (sa & Ha & Hva);
      [destruct X; exact HXin | exact Hfit | intros; auto | destruct X; reflexivity
      | lia |].
    rewrite Ha in Hbody. destruct Hbody as (Hda & HMa & Hca & Hfa).
    destruct (IH (S level) gl' sa Ht Hfol Hda HMa Hca Hva Hfa) as [g Hg].
    exists g. split; [exact Hin|].
    unfold bind at 1. rewrite addNumber_live, Ha. exact Hg.
Qed.

Lemma no_clash_numbers sol :
  (forall X, In X (allSquares 9) -> (1 <= numberAt sol X <= 9)%Z) ->
  no_clash sol ->
  forall X Y, In X (allSquares 9) -> In Y (allSquares 9) -> peer X Y ->
    numberAt sol X <> numberAt sol Y.
Proof.
  intros Hrange Hnc X Y HX HY Hpeer E.
  pose proof (Hrange X HX) as HrX. pose proof (Hrange Y HY) as HrY.
  unfold numberAt in *.
  destruct (grid_get sol (fst X) (snd X)) as [v|] eqn:Ev; [|lia].
  destruct (grid_get sol (fst Y) (snd Y)) as [w|] eqn:Ew; [|lia].
  apply (Hnc X Y v HX HY Hpeer Ev); [lia | congruence].
Qed.

(** A solution of the puzzle follows the tables that are built from it. *)
Lemma solves_follows board greyLines purpleLines pz sol :
  readInput greyLines purpleLines = Some pz ->
  NoDup (concat greyLines ++ concat purpleLines) ->
  solves board greyLines purpleLines sol -> follows pz sol.
Proof.
  intros Hpz Hnd (Hrange & Hnc & _ & Hmirror & Hpurple).
  split; [assumption|]. split; [apply no_clash_numbers; assumption|].
  destruct (readInput_purple _ _ _ Hpz Hnd) as [Hwp _].
  pose proof (NoDup_app_remove_l _ _ Hnd) as HndP.
  destruct (readInput_written _ _ _ Hpz) as (Egl & Epl & Hgw & _).
  split.
  - intros X Y HX (g & line & k & Hg & Hnz & Hline & Hk & HY).
    destruct (Hgw _ _ _ Hg Hnz) as (line' & k' & Hline' & Hk' & HX').
    cbn [fst snd] in Hk'. rewrite Egl, Hline' in Hline. rewrite Hk in Hk'.
    inversion Hline; inversion Hk'; subst line' k'.
    assert (Hlt : k < length line) by (apply nth_error_Some; congruence).
    rewrite py_index_mirror in HY by assumption.
    apply (Hmirror (g - 1) line k X Y); [assumption | | assumption].
    destruct X; exact HX'.
  - intros X line Y HX Hat HY Hne.
    destruct (Hwp X line Hat) as [HXl _].
    destruct Hat as (_ & pu & _ & _ & Hline).
    rewrite Epl, map_nodup_id in Hline by assumption.
    apply (Hpurple (pu - 1) line X Y); auto.
Qed.

(** X21: when the puzzle has a solution (numbers 1 to 9 without a
    clash, the clues kept, mirrored squares of grey lines equal, numbers on a
    purple line apart), the board is readable and no square is on two lines,
    [solve] returns a grid: the search never cuts off the branch of the
    solution.  Without grey lines no two numbers of that grid clash. *)
Theorem solve_finds_a_grid fuel board greyLines purpleLines sol :
  length board = 9 ->
  (forall X, In X (allSquares 9) -> grid_get board (fst X) (snd X) <> None) ->
  (forall X, In X (concat greyLines ++ concat purpleLines) -> In X (allSquares 9)) ->
  NoDup (concat greyLines ++ concat purpleLines) ->
  solves board greyLines purpleLines sol ->
  blanks board + 2 <= fuel ->
  exists g, solve fuel board greyLines purpleLines = Ok g /\
    (greyLines = [] -> no_clash g).
Proof.
  intros H9 Hb Hlines Hnd Hsol Hfuel.
  assert (Hrun : exists g, solve fuel board greyLines purpleLines = Ok g).
  { unfold solve.
    pose proof (readInput_on_board greyLines purpleLines) as Hr.
    destruct (readInput greyLines purpleLines) as [pz|] eqn:Epz.
    2:{ destruct Hr as (X & HX & Hout). exfalso. auto. }
    pose proof (readInput_tables_ok _ _ _ Epz) as Ht.
    pose proof (solves_follows _ _ _ _ _ Epz Hnd Hsol) as Hfol.
    destruct Hsol as (Hrange & _ & Hclues & _).
    destruct (constructor_viable pz sol fuel board Ht Hfol H9
                (dom_ok_newBoard board H9 Hb)
                (viable_newBoard sol board H9 Hrange Hclues) Hfuel)
      as (s & Hs & Hd & HM & Hc & Hbl & Hvia).
    rewrite Hs.
    apply (recurse_finds pz sol fuel 0 true s Ht Hfol Hd HM Hc Hvia). lia. }
  destruct Hrun as [g Hg]. exists g. split; [exact Hg|].
  intros ->.
  pose proof Hg as Hg'. apply solve_cases in Hg'. destruct Hg' as (pz & Hpz & Hg').
  apply readInput_no_grey in Hpz. destruct Hpz as [Hng _].
  apply (no_clash_run pz fuel board g Hng H9); [|exact Hg'].
  destruct Hsol as (Hrange & Hnc & Hclues & _).
  intros X Y v HX HY Hpeer Hv Hnz Hw.
  apply (no_clash_numbers sol Hrange Hnc X Y HX HY Hpeer).
  rewrite (Hclues X v HX Hv Hnz), (Hclues Y v HY Hw Hnz). reflexivity.
Qed.

(** ** The checks decide what they say *)

Lemma peerb_complete X Y : peer X Y -> peerb X Y = true.
Proof.
  intros [Hne H]. unfold peerb. apply andb_true_iff. split.
  - apply negb_true_iff, andb_false_iff.
    destruct (Nat.eqb_spec (fst X) (fst Y)) as [E1|]; [|left; reflexivity].
    destruct (Nat.eqb_spec (snd X) (snd Y)) as [E2|]; [|right; reflexivity].
    exfalso. apply Hne. destruct X, Y; simpl in *; congruence.
  - destruct H as [E | [E | [E1 E2]]].
    + rewrite E, Nat.eqb_refl. reflexivity.
    + rewrite E, Nat.eqb_refl. apply orb_true_iff; left. apply orb_true_r.
    + rewrite E1, E2, !Nat.eqb_refl. apply orb_true_r.
Qed.

Lemma no_clashb_ok g : no_clashb g = true -> no_clash g.
Proof.
  unfold no_clashb. intros H X Y v HX HY Hpeer Hv Hnz Hw.
  rewrite forallb_forall in H. specialize (H X HX).
  rewrite forallb_forall in H. specialize (H Y HY).
  rewrite (peerb_complete _ _ Hpeer), Hv, Hw in H. cbn [negb orb] in H.
  apply orb_true_iff in H. destruct H as [H | H].
  - apply Z.eqb_eq in H. contradiction.
  - rewrite Z.eqb_refl in H. discriminate.
Qed.

Lemma readableb_ok g :
  readableb g = true ->
  forall X, In X (allSquares 9) -> grid_get g (fst X) (snd X) <> None.
Proof.
  unfold readableb. intros H X HX. rewrite forallb_forall in H. specialize (H X HX).
  destruct (grid_get g (fst X) (snd X)); discriminate.
Qed.

Lemma digitsb_ok lo g :
  digitsb lo g = true ->
  forall X, In X (allSquares 9) ->
    exists v, grid_get g (fst X) (snd X) = Some v /\ (lo <= v <= 9)%Z.
Proof.
  unfold digitsb. intros H X HX. rewrite forallb_forall in H. specialize (H X HX).
  destruct (grid_get g (fst X) (snd X)) as [v|]; [|discriminate].
  apply andb_true_iff in H. destruct H as [H1 H2].
  apply Z.leb_le in H1, H2. eauto.
Qed.

Lemma extendsb_ok board sol :
  extendsb board sol = true ->
  forall X v, In X (allSquares 9) -> grid_get board (fst X) (snd X) = Some v ->
    v <> 0%Z -> numberAt sol X = v.
Proof.
  unfold extendsb. intros H X v HX Hv Hnz. rewrite forallb_forall in H.
  specialize (H X HX). rewrite Hv in H.
  apply orb_true_iff in H. destruct H as [H | H]; apply Z.eqb_eq in H; congruence.
Qed.

Lemma grid_get_forallb (f : Z -> bool) (g : grid Z) r c v :
  forallb (forallb f) g = true -> grid_get g r c = Some v -> f v = true.
Proof.
  intros H Hv. unfold grid_get in Hv.
  destruct (nth_error g r) as [row|] eqn:Er; [|discriminate].
  rewrite forallb_forall in H. specialize (H row (nth_error_In _ _ Er)).
  rewrite forallb_forall in H. exact (H v (nth_error_In _ _ Hv)).
Qed.

(** ** The further theorems at concrete boards *)

Lemma removePossibility_effect_witness :
  b cornerWithoutFive = b (newBoard emptyGrid) /\
  M cornerWithoutFive = M (newBoard emptyGrid) /\
  (forall r' c', (r', c') <> (0, 0) ->
     grid_get (p cornerWithoutFive) r' c' = grid_get (p (newBoard emptyGrid)) r' c') /\
  (forall set, val (newBoard emptyGrid) (0, 0) = Some 0%Z ->
     grid_get (p (newBoard emptyGrid)) 0 0 = Some set ->
     grid_get (p cornerWithoutFive) 0 0 = Some (remove Z.eq_dec 5%Z set)) /\
  (val (newBoard emptyGrid) (0, 0) <> Some 0%Z -> cornerWithoutFive = newBoard emptyGrid) /\
  removePossibility 5 0 0 cornerWithoutFive = (Ok tt, cornerWithoutFive).
Proof.
  apply (removePossibility_effect 5 0 0 (newBoard emptyGrid) cornerWithoutFive).
  vm_compute. reflexivity.
Defined.

Lemma addNumber_prunes_peers_witness :
  exists v, val fiveOnCorner (0, 3) = Some v /\
    (v = 0%Z -> exists set,
       grid_get (p fiveOnCorner) (fst (0, 3)) (snd (0, 3)) = Some set /\ ~ In 5%Z set).
Proof.
  apply (addNumber_prunes_peers noLines 1 5 0 0 (newBoard emptyGrid) fiveOnCorner).
  - reflexivity.
  - vm_compute. reflexivity.
  - left. split; [reflexivity | vm_compute; lia].
Defined.

Lemma addNumber_writes_key_on_blanks_witness :
  val fiveOnCorner (0, 0) = Some 5%Z /\
  (forall Z v, val (newBoard emptyGrid) Z = Some v -> v <> 0%Z ->
     val fiveOnCorner Z = Some v) /\
  (forall Z, val fiveOnCorner Z <> val (newBoard emptyGrid) Z ->
     val (newBoard emptyGrid) Z = Some 0%Z /\ val fiveOnCorner Z = Some 5%Z) /\
  M fiveOnCorner = M (newBoard emptyGrid) /\
  shrinks (p (newBoard emptyGrid)) (p fiveOnCorner).
Proof.
  apply (addNumber_writes_key_on_blanks noLines 1 5 0 0 (newBoard emptyGrid) fiveOnCorner).
  vm_compute. reflexivity.
Defined.

Lemma solve_fills_and_keeps_clues_witness :
  (forall X, In X (allSquares 9) ->
     exists v, grid_get solvedGrid (fst X) (snd X) = Some v /\ v <> 0%Z) /\
  (forall r c v, grid_get twoBlanks r c = Some v -> v <> 0%Z ->
     grid_get solvedGrid r c = Some v).
Proof.
  apply (solve_fills_and_keeps_clues 4 twoBlanks [] [] solvedGrid).
  - reflexivity.
  - vm_compute. reflexivity.
Defined.

Lemma solve_without_grey_never_clashes_witness : no_clash solvedGrid.
Proof.
  apply (solve_without_grey_never_clashes 4 twoBlanks [] solvedGrid).
  - reflexivity.
  - apply no_clashb_ok. vm_compute. reflexivity.
  - vm_compute. reflexivity.
Defined.

Lemma solve_numbers_from_clues_or_candidates_witness :
  (1 <= 5 <= 9)%Z \/ exists r' c', grid_get twoBlanks r' c' = Some 5%Z.
Proof.
  apply (solve_numbers_from_clues_or_candidates 4 twoBlanks [] [] solvedGrid
           eq_refl ltac:(vm_compute; reflexivity) 0 0 5%Z).
  reflexivity.
Defined.

Lemma solve_without_grey_is_sudoku_witness :
  unit_ok solvedGrid (map (fun j => (0, j)) (seq 0 9)) /\
  unit_ok solvedGrid (map (fun i => (i, 0)) (seq 0 9)) /\
  unit_ok solvedGrid (square 0 0).
Proof.
  apply (solve_without_grey_is_sudoku 4 twoBlanks [] solvedGrid).
  - reflexivity.
  - apply no_clashb_ok. vm_compute. reflexivity.
  - intros r c v Hv.
    pose proof (grid_get_forallb (fun v => (0 <=? v)%Z && (v <=? 9)%Z) twoBlanks r c v
                  eq_refl Hv) as H.
    apply andb_true_iff in H. destruct H as [H1 H2]. apply Z.leb_le in H1, H2. lia.
  - vm_compute. reflexivity.
  - lia.
  - lia.
Defined.

Lemma solve_ends_on_board_witness :
  (exists g, forall fuel, blanks twoBlanks + 2 <= fuel ->
     solve fuel twoBlanks [] [] = Ok g) \/
  (forall fuel, blanks twoBlanks + 2 <= fuel ->
     solve fuel twoBlanks [] [] = Raise ImpossibleSetup).
Proof.
  apply (solve_ends_on_board twoBlanks [] []).
  - reflexivity.
  - apply readableb_ok. vm_compute. reflexivity.
  - intros X [].
Defined.

Lemma candidates_agree_at_nodes_witness : ~ In 4%Z [5%Z].
Proof.
  apply (candidates_agree_at_nodes greyPairModel twoBlanks greyPairRoot true eq_refl
           (node_root greyPairModel twoBlanks 100
              (s := greyPairRoot) ltac:(vm_compute; reflexivity))
           (0, 2) (0, 0) 4%Z [5%Z]).
  - apply in_allSquares. simpl. lia.
  - apply in_allSquares. simpl. lia.
  - split; [discriminate | left; reflexivity].
  - vm_compute. reflexivity.
  - discriminate.
  - vm_compute. reflexivity.
  - vm_compute. reflexivity.
Defined.

Lemma addNumber_prunes_purple_window_witness :
  exists v, val threeOnPurple (4, 4) = Some v /\
    (v = 0%Z -> exists set,
       grid_get (p threeOnPurple) (fst (4, 4)) (snd (4, 4)) = Some set /\ ~ In 7%Z set).
Proof.
  apply (addNumber_prunes_purple_window purplePairModel 82 3 0 0 [(0, 0); (4, 4)]
           (newBoard emptyGrid) threeOnPurple).
  - split; [vm_compute; reflexivity|].
    exists 1. split; [vm_compute; reflexivity|]. split; [discriminate|].
    vm_compute. reflexivity.
  - reflexivity.
  - vm_compute. reflexivity.
  - right; left; reflexivity.
  - right. vm_compute. split; [discriminate | reflexivity].
Defined.

Lemma solve_rejects_unequal_mirror_clues_witness :
  solve 2 solvedGrid [[(0, 0); (0, 1)]] [] = Raise ImpossibleSetup.
Proof.
  apply (solve_rejects_unequal_mirror_clues 2 solvedGrid [[(0, 0); (0, 1)]] []
           0 [(0, 0); (0, 1)] 0 (0, 0) (0, 1) 5%Z 3%Z).
  - reflexivity.
  - apply readableb_ok. vm_compute. reflexivity.
  - intros Z [<- | [<- | []]]; apply in_allSquares; simpl; lia.
  - simpl. nodup_coords.
  - reflexivity.
  - reflexivity.
  - reflexivity.
  - reflexivity.
  - reflexivity.
  - discriminate.
  - discriminate.
  - discriminate.
  - vm_compute. lia.
Defined.

Lemma solve_rejects_purple_clues_not_apart_witness :
  solve 2 solvedGrid [] [[(0, 0); (0, 1)]] = Raise ImpossibleSetup.
Proof.
  apply (solve_rejects_purple_clues_not_apart 2 solvedGrid [] [[(0, 0); (0, 1)]]
           0 [(0, 0); (0, 1)] (0, 0) (0, 1) 5%Z 3%Z).
  - reflexivity.
  - apply readableb_ok. vm_compute. reflexivity.
  - intros Z [<- | [<- | []]]; apply in_allSquares; simpl; lia.
  - simpl. nodup_coords.
  - reflexivity.
  - left; reflexivity.
  - right; left; reflexivity.
  - discriminate.
  - reflexivity.
  - reflexivity.
  - discriminate.
  - discriminate.
  - right; left. simpl. lia.
  - vm_compute. lia.
Defined.

Lemma recurse_raises_at_dead_end_witness :
  recurse noLines 2 0 true deadEndRoot = (Raise ImpossibleSetup, deadEndRoot).
Proof.
  apply (recurse_raises_at_dead_end [] [] noLines deadEndGrid deadEndRoot true 0 0).
  - reflexivity.
  - reflexivity.
  - apply (node_root noLines deadEndGrid 2). vm_compute. reflexivity.
  - right. split; [intros Y n []|].
    exists (0, 8). split; [apply in_allSquares; simpl; lia|].
    split; [vm_compute; reflexivity|].
    exists []. split; vm_compute; reflexivity.
Defined.

Lemma solve_accepts_every_full_board_witness :
  exists g, solve 2 clashGrid [] [] = Ok g /\
    forall X, In X (allSquares 9) ->
      grid_get g (fst X) (snd X) = grid_get clashGrid (fst X) (snd X).
Proof.
  apply (solve_accepts_every_full_board 2 clashGrid).
  - reflexivity.
  - intros X HX.
    destruct (digitsb_ok 1 clashGrid ltac:(vm_compute; reflexivity) X HX) as (v & Hv & Hr).
    exists v. split; [exact Hv | lia].
  - lia.
Defined.

Lemma solve_finds_a_grid_witness :
  exists g, solve 4 mirrorPuzzle [[(0, 0); (3, 3); (4, 4)]] [] = Ok g /\
    ([[(0, 0); (3, 3); (4, 4)]] = [] -> no_clash g).
Proof.
  apply (solve_finds_a_grid 4 mirrorPuzzle [[(0, 0); (3, 3); (4, 4)]] [] solvedGrid).
  - reflexivity.
  - apply readableb_ok. vm_compute. reflexivity.
  - intros Z [<- | [<- | [<- | []]]]; apply in_allSquares; simpl; lia.
  - simpl. nodup_coords.
  - split; [|split; [|split; [|split]]].
    + intros X HX.
      destruct (digitsb_ok 1 solvedGrid ltac:(vm_compute; reflexivity) X HX) as (v & Hv & Hr).
      unfold numberAt. rewrite Hv. exact Hr.
    + apply no_clashb_ok. vm_compute. reflexivity.
    + apply extendsb_ok. vm_compute. reflexivity.
    + intros n line k X Y Hn Hk HY.
      destruct n as [|n]; [|destruct n; discriminate].
      inversion Hn; subst line.
      destruct k as [|[|[|k]]]; [ | | |destruct k; discriminate];
        inversion Hk; inversion HY; subst X Y; reflexivity.
    + intros n line X Y Hn. destruct n; discriminate.
  - vm_compute. lia.
Defined.

Lemma readInput_tables_point_into_lines_witness :
  (forall r c g, grid_get (isGrey greyPairModel) r c = Some g -> g <> 0 ->
     exists line k, nth_error [[(0, 0); (0, 1)]] (g - 1) = Some line /\
       grid_get (greyIndexes greyPairModel) r c = Some k /\
       nth_error line k = Some (r, c)) /\
  (forall r c pu, grid_get (isPurple greyPairModel) r c = Some pu -> pu <> 0 ->
     exists line, nth_error (@nil (list coord)) (pu - 1) = Some line /\ In (r, c) line) /\
  (forall X, In X (allSquares 9) ->
     exists g, grid_get (isGrey greyPairModel) (fst X) (snd X) = Some g /\
       (g <> 0 -> exists Y, mirrorAt greyPairModel X Y /\ In Y (allSquares 9))) /\
  (forall X, In X (allSquares 9) ->
     exists pu, grid_get (isPurple greyPairModel) (fst X) (snd X) = Some pu /\
       (pu <> 0 -> exists line,
          nth_error (purples greyPairModel) (pu - 1) = Some line /\
          forall Y, In Y line -> In Y (allSquares 9))).
Proof.
  apply (readInput_tables_point_into_lines [[(0, 0); (0, 1)]] [] greyPairModel).
  reflexivity.
Defined.

Lemma constructor_accepts_any_clues_without_lines_witness :
  exists s, updatePossibilities noLines 1 (newBoard clashPuzzle) = (Ok tt, s) /\
    M s = 9 /\ forall Z, val s Z = grid_get clashPuzzle (fst Z) (snd Z).
Proof.
  apply (constructor_accepts_any_clues_without_lines 0 clashPuzzle).
  - reflexivity.
  - apply readableb_ok. vm_compute. reflexivity.
Defined.

Lemma solve_clashes_on_mirrored_peers_witness : ~ no_clash clashGrid.
Proof.
  apply (solve_clashes_on_mirrored_peers 100 twoBlanks [[(0, 0); (0, 1)]] [] clashGrid
           0 [(0, 0); (0, 1)] 0 (0, 0) (0, 1)).
  - reflexivity.
  - simpl. nodup_coords.
  - vm_compute. reflexivity.
  - reflexivity.
  - reflexivity.
  - reflexivity.
  - split; [discriminate | left; reflexivity].
Defined.
